(** * Limitless lifelog / chat sync plugin (src/main.ts)

    A shallow embedding of the plugin's request engine ([makeRequest]),
    its two paginated walks ([getLifelogs], [getChats]), the two sync
    procedures ([syncLifelogs], [syncChats]) and the two renderers
    ([formatLifelogMarkdown], [formatChatMarkdown]), followed by the
    properties of the specification that concern them.

    Conventions of the embedding:
    - a JS string is a [string]; one [ascii] stands for one code unit;
    - a JS [Date] is its time value, [option Z] milliseconds since the
      epoch, [None] being NaN (an invalid date);
    - the vault is a [gmap] from paths to file contents;
    - [async] code is sequential here: every [await] is a bind of the
      state-and-exception monad [M] over the record [World]. *)

From Stdlib Require Import Ascii ZArith Lia DecimalString.
From stdpp Require Import gmap strings list.

Local Open Scope Z_scope.

(** ** JavaScript strings *)

Module JsString.

Definition nl : string := String (ascii_of_nat 10) EmptyString.
Definition dquote : ascii := ascii_of_nat 34.

(** Truthiness of a string value: only the empty string is falsy. *)
Definition truthy (s : string) : bool := negb (String.eqb s EmptyString).

(** [o || d] for an optional string [o] ([None] is [undefined]). *)
Definition or_else (o : option string) (d : string) : string :=
  match o with
  | Some s => if truthy s then s else d
  | None => d
  end.

(** Truthiness of an optional string. *)
Definition present (o : option string) : bool :=
  match o with
  | Some s => truthy s
  | None => false
  end.

Definition of_Z (z : Z) : string := NilZero.string_of_int (Z.to_int z).

Fixpoint repeat_char (c : ascii) (n : nat) : string :=
  match n with
  | O => EmptyString
  | S k => String c (repeat_char c k)
  end.

(** [s.padStart(n, '0')] *)
Definition padStart0 (n : nat) (s : string) : string :=
  repeat_char "0"%char (n - String.length s) +:+ s.

Definition startsWith (s p : string) : bool := String.prefix p s.

Definition endsWith (s p : string) : bool :=
  let n := String.length s in
  let m := String.length p in
  if (m <=? n)%nat then String.eqb (String.substring (n - m) m s) p else false.

(** [s.substring(0, n)] and [s.slice(0, n)] for [0 <= n]. *)
Definition take (n : nat) (s : string) : string := String.substring 0 n s.

(** [a.join(sep)] *)
Fixpoint join (sep : string) (l : list string) : string :=
  match l with
  | [] => EmptyString
  | [x] => x
  | x :: r => x +:+ sep +:+ join sep r
  end.

(** [s.split(c)[0]]: the part of [s] before the first [c]. *)
Fixpoint before (c : ascii) (s : string) : string :=
  match s with
  | EmptyString => EmptyString
  | String a r => if Ascii.eqb a c then EmptyString else String a (before c r)
  end.

(** [s.split('\n')] *)
Fixpoint lines_go (cur : string) (s : string) : list string :=
  match s with
  | EmptyString => [cur]
  | String a r =>
      if Ascii.eqb a (ascii_of_nat 10) then cur :: lines_go EmptyString r
      else lines_go (cur +:+ String a EmptyString) r
  end.

Definition lines (s : string) : list string := lines_go EmptyString s.

(** [s.replaceAll('\n\n', '\n')]: leftmost, non-overlapping matches. *)
Fixpoint collapse_blank (s : string) : string :=
  match s with
  | EmptyString => EmptyString
  | String a s' =>
      match s' with
      | EmptyString => String a EmptyString
      | String b r =>
          if Ascii.eqb a (ascii_of_nat 10) && Ascii.eqb b (ascii_of_nat 10)
          then String (ascii_of_nat 10) (collapse_blank r)
          else String a (collapse_blank s')
      end
  end.

Fixpoint map_chars (f : ascii -> ascii) (s : string) : string :=
  match s with
  | EmptyString => EmptyString
  | String a r => String (f a) (map_chars f r)
  end.

(** [c.toUpperCase()] on one ASCII letter. *)
Definition upper (c : ascii) : ascii :=
  let n := nat_of_ascii c in
  if ((97 <=? n) && (n <=? 122))%nat then ascii_of_nat (n - 32) else c.

Definition is_digit (c : ascii) : bool :=
  let n := nat_of_ascii c in ((48 <=? n) && (n <=? 57))%nat.

Definition digit_val (c : ascii) : Z := Z.of_nat (nat_of_ascii c) - 48.

(** [s] contains [p] as a contiguous substring. *)
Fixpoint includes (p s : string) : bool :=
  String.prefix p s ||
  match s with
  | EmptyString => false
  | String _ r => includes p r
  end.

(** No character of [s] is [c]. *)
Fixpoint lacks (c : ascii) (s : string) : bool :=
  match s with
  | EmptyString => true
  | String a r => negb (Ascii.eqb a c) && lacks c r
  end.

End JsString.

(** ** JavaScript dates

    A model of the parts of ECMA-262's [Date] the plugin uses.  [tz] is
    the offset of the host's zone from UTC, in minutes east, at the instants
    that the plugin parses and formats.  Two things are the host's own and
    come with the record [Host] below: what [new Date] makes of a string
    outside the format of ECMA-262, and the step to the next local day,
    which a daylight-saving change makes 23 or 25 hours long. *)

Module JsDate.
Import JsString.

Definition Date : Type := option Z.

Definition msPerDay : Z := 86400000.
Definition msPerMinute : Z := 60000.

Definition is_leap (y : Z) : bool :=
  ((y mod 4 =? 0) && negb (y mod 100 =? 0)) || (y mod 400 =? 0).

Definition days_in_month (y m : Z) : Z :=
  if m =? 2 then (if is_leap y then 29 else 28)
  else if (m =? 4) || (m =? 6) || (m =? 9) || (m =? 11) then 30
  else 31.

(** Day number (days since 1970-01-01) of a proleptic Gregorian date. *)
Definition days_from_civil (y m d : Z) : Z :=
  let y' := if m <=? 2 then y - 1 else y in
  let era := y' / 400 in
  let yoe := y' - era * 400 in
  let mp := if m <=? 2 then m + 9 else m - 3 in
  let doy := (153 * mp + 2) / 5 + d - 1 in
  let doe := yoe * 365 + yoe / 4 - yoe / 100 + doy in
  era * 146097 + doe - 719468.

(** Year, month (1..12) and day of month of a day number. *)
Definition civil_from_days (z0 : Z) : Z * Z * Z :=
  let z := z0 + 719468 in
  let era := z / 146097 in
  let doe := z - era * 146097 in
  let yoe := (doe - doe / 1460 + doe / 36524 - doe / 146096) / 365 in
  let doy := doe - (365 * yoe + yoe / 4 - yoe / 100) in
  let mp := (5 * doy + 2) / 153 in
  let d := doy - (153 * mp + 2) / 5 + 1 in
  let m := if mp <? 10 then mp + 3 else mp - 9 in
  let y := yoe + era * 400 in
  ((if m <=? 2 then y + 1 else y), m, d).

Definition year_of (t : Z) : Z := fst (fst (civil_from_days (t / msPerDay))).
Definition month_of (t : Z) : Z := snd (fst (civil_from_days (t / msPerDay))).
Definition day_of (t : Z) : Z := snd (civil_from_days (t / msPerDay)).
Definition hour_of (t : Z) : Z := (t mod msPerDay) / 3600000.
Definition minute_of (t : Z) : Z := (t mod 3600000) / 60000.
Definition second_of (t : Z) : Z := (t mod 60000) / 1000.
Definition milli_of (t : Z) : Z := t mod 1000.

Definition pad (n : nat) (z : Z) : string := padStart0 n (of_Z z).

(** The year of the ISO format: four digits, or a sign and six digits
    outside 0..9999. *)
Definition iso_year (y : Z) : string :=
  if (0 <=? y) && (y <=? 9999) then pad 4 y
  else if y <? 0 then "-" +:+ pad 6 (- y)
  else "+" +:+ pad 6 y.

(** [d.toISOString()]; [None] is the RangeError of an invalid date. *)
Definition toISOString (d : Date) : option string :=
  match d with
  | None => None
  | Some t =>
      Some (iso_year (year_of t) +:+ "-" +:+ pad 2 (month_of t) +:+ "-" +:+
            pad 2 (day_of t) +:+ "T" +:+ pad 2 (hour_of t) +:+ ":" +:+
            pad 2 (minute_of t) +:+ ":" +:+ pad 2 (second_of t) +:+ "." +:+
            pad 3 (milli_of t) +:+ "Z")
  end.

(** [d.toISOString().split('T')[0]] *)
Definition isoDate (d : Date) : option string :=
  match toISOString d with
  | Some s => Some (before "T"%char s)
  | None => None
  end.

(** *** Parsing: the date-time string format of ECMA-262 (21.4.1.32),
    four-digit years.  What [new Date] makes of any other string is left
    to the engine by ECMA-262; [parse] is [None] there, and [newDate] below
    asks the host. *)

Fixpoint digits (n : nat) (acc : Z) (s : string) : option (Z * string) :=
  match n with
  | O => Some (acc, s)
  | S k =>
      match s with
      | String c r =>
          if is_digit c then digits k (acc * 10 + digit_val c) r else None
      | EmptyString => None
      end
  end.

Definition expect (c : ascii) (s : string) : option string :=
  match s with
  | String a r => if Ascii.eqb a c then Some r else None
  | EmptyString => None
  end.

(** Zone suffix: [Some None] when absent (local time), [Some (Some o)]
    for an offset of [o] minutes east of UTC. *)
Definition parse_zone (s : string) : option (option Z) :=
  match s with
  | EmptyString => Some None
  | String c r =>
      if Ascii.eqb c "Z"%char then
        (match r with EmptyString => Some (Some 0) | _ => None end)
      else if Ascii.eqb c "+"%char || Ascii.eqb c "-"%char then
        match digits 2 0 r with
        | Some (h, r1) =>
            match expect ":"%char r1 with
            | Some r2 =>
                match digits 2 0 r2 with
                | Some (m, EmptyString) =>
                    if (h <=? 23) && (m <=? 59) then
                      Some (Some ((if Ascii.eqb c "-"%char then -1 else 1) * (h * 60 + m)))
                    else None
                | _ => None
                end
            | None => None
            end
        | None => None
        end
      else None
  end.

(** Seconds and milliseconds, both optional, then the zone. *)
Definition parse_seconds (s : string) : option (Z * Z * option Z) :=
  match expect ":"%char s with
  | Some r =>
      match digits 2 0 r with
      | Some (sec, r1) =>
          match expect "."%char r1 with
          | Some r2 =>
              match digits 3 0 r2 with
              | Some (ms, r3) =>
                  match parse_zone r3 with
                  | Some z => Some (sec, ms, z)
                  | None => None
                  end
              | None => None
              end
          | None =>
              match parse_zone r1 with
              | Some z => Some (sec, 0, z)
              | None => None
              end
          end
      | None => None
      end
  | None =>
      match parse_zone s with
      | Some z => Some (0, 0, z)
      | None => None
      end
  end.

Section Zone.
Variable tz : Z.

(** The time value of a string in the format; [None] for a string that
    is not in the format. *)
Definition parse (s : string) : Date :=
  match digits 4 0 s with
  | Some (y, r0) =>
  match expect "-"%char r0 with
  | Some r1 =>
  match digits 2 0 r1 with
  | Some (m, r2) =>
  match expect "-"%char r2 with
  | Some r3 =>
  match digits 2 0 r3 with
  | Some (d, r4) =>
      if (1 <=? m) && (m <=? 12) && (1 <=? d) && (d <=? days_in_month y m) then
        let day := days_from_civil y m d in
        match r4 with
        | EmptyString => Some (day * msPerDay)
        | String c r5 =>
            if Ascii.eqb c "T"%char then
              match digits 2 0 r5 with
              | Some (hh, r6) =>
              match expect ":"%char r6 with
              | Some r7 =>
              match digits 2 0 r7 with
              | Some (mi, r8) =>
              match parse_seconds r8 with
              | Some (sec, ms, zone) =>
                  if (hh <=? 23) && (mi <=? 59) && (sec <=? 59) then
                    let t := day * msPerDay + hh * 3600000 + mi * 60000 + sec * 1000 + ms in
                    Some (t - match zone with Some o => o | None => tz end * msPerMinute)
                  else None
              | None => None
              end
              | None => None
              end
              | None => None
              end
              | None => None
              end
            else None
        end
      else None
  | None => None
  end
  | None => None
  end
  | None => None
  end
  | None => None
  end
  | None => None
  end.

(** [LocalTime(t)] *)
Definition local (t : Z) : Z := t + tz * msPerMinute.

(** [d.getFullYear()] and [d.getMonth()]; [None] is NaN. *)
Definition getFullYear (d : Date) : option Z := option_map (fun t => year_of (local t)) d.
Definition getMonth (d : Date) : option Z := option_map (fun t => month_of (local t) - 1) d.

(** [d.setDate(d.getDate() + 1)]: the same local time on the next
    local day.  [step] is what the host's zone makes of it on a time
    value: a shift of [msPerDay] in a zone of fixed offset, an hour less or
    more across a daylight-saving change.  An invalid date stays one. *)
Definition nextDay (step : Z -> Z) (d : Date) : Date := option_map step d.

(** [a <= b] on dates: a comparison of time values, false with NaN. *)
Definition leb (a b : Date) : bool :=
  match a, b with
  | Some x, Some y => x <=? y
  | _, _ => false
  end.

(** [n] rendered in a template literal. *)
Definition number_to_string (n : option Z) : string :=
  match n with
  | Some z => of_Z z
  | None => "NaN"
  end.

(** [d.toLocaleString('en-US', {month: '2-digit', day: '2-digit',
    year: '2-digit', hour: 'numeric', minute: '2-digit', hour12: true})].
    The en-US pattern joins the date and the time with a comma and a
    space; [sep] is the host's separator before the day period (a plain
    space up to CLDR 41, U+202F from CLDR 42 on). *)
Definition toLocaleString_short (sep : string) (d : Date) : string :=
  match d with
  | None => "Invalid Date"
  | Some t0 =>
      let t := local t0 in
      let h := hour_of t in
      let h12 := if h mod 12 =? 0 then 12 else h mod 12 in
      pad 2 (month_of t) +:+ "/" +:+ pad 2 (day_of t) +:+ "/" +:+
      pad 2 (year_of t mod 100) +:+ ", " +:+ of_Z h12 +:+ ":" +:+
      pad 2 (minute_of t) +:+ sep +:+ (if h <? 12 then "AM" else "PM")
  end.

(** [d.toLocaleString()] in an en-US host. *)
Definition toLocaleString_enUS (sep : string) (d : Date) : string :=
  match d with
  | None => "Invalid Date"
  | Some t0 =>
      let t := local t0 in
      let h := hour_of t in
      let h12 := if h mod 12 =? 0 then 12 else h mod 12 in
      of_Z (month_of t) +:+ "/" +:+ of_Z (day_of t) +:+ "/" +:+
      of_Z (year_of t) +:+ ", " +:+ of_Z h12 +:+ ":" +:+
      pad 2 (minute_of t) +:+ ":" +:+ pad 2 (second_of t) +:+ sep +:+
      (if h <? 12 then "AM" else "PM")
  end.
End Zone.

End JsDate.

(** ** Data model (the interfaces at the top of main.ts) *)

Record ToolCall := {
  tc_id : string;
  tc_toolName : string;
  (** [JSON.stringify(args)]; [None] when [args] is undefined *)
  tc_args : option string
}.

Record Entry := { en_title : string; en_id : string }.

Record ToolResult := {
  tr_isError : bool;
  tr_toolCallId : string;
  tr_toolName : string;
  tr_entriesReturned : option (list Entry)
}.

Record ChatMessage := {
  m_id : string;
  m_text : option string;
  m_toolCalls : option (list ToolCall);
  m_toolResults : option (list ToolResult);
  m_createdAt : string;
  m_role : string;
  m_name : option string
}.

Record Chat := {
  c_id : string;
  c_summary : option string;
  c_createdAt : string;
  c_startedAt : string;
  c_messages : list ChatMessage;
  c_visibility : string
}.

(** A node of a lifelog's [contents]; the renderer dispatches on [type]. *)
Record ContentNode := {
  n_type : string;
  n_content : string;
  n_speakerName : option string;
  n_startTime : option string
}.

Record Lifelog := {
  l_markdown : option string;
  l_title : option string;
  l_contents : option (list ContentNode)
}.

Record LimitlessLifelogsSettings := {
  apiKey : string;
  folderPath : string;
  startDate : string;
  chatFolderPath : string;
  syncChatsEnabled : bool;
  chatFileFormat : string;
  maxChatsPerSync : Z
}.

Definition DEFAULT_SETTINGS : LimitlessLifelogsSettings := {|
  apiKey := EmptyString;
  folderPath := "Limitless Lifelogs";
  startDate := "2025-02-09";
  chatFolderPath := "Limitless Chats";
  syncChatsEnabled := false;
  chatFileFormat := "per-chat";
  maxChatsPerSync := 50
|}.

(** ** The host and the world *)

(** What the plugin takes from its host. *)
Record Host := {
  (** offset of the local zone, minutes east of UTC *)
  tz : Z;
  (** [Intl.DateTimeFormat().resolvedOptions().timeZone] *)
  timeZone : string;
  (** Obsidian's [normalizePath] *)
  normalizePath : string -> string;
  (** [d.toLocaleString()] in the host's default locale *)
  localeString : JsDate.Date -> string;
  (** separator before AM/PM in the en-US time pattern *)
  dayPeriodSep : string;
  (** what [new Date(s)] gives for a string [s] that is not in the
      date-time format of ECMA-262, [None] being an invalid date: engines
      differ here (V8 reads month/day/year dates and HTTP dates, takes the
      30th of February for the 2nd of March, and accepts more than three
      digits of a fraction of a second) *)
  legacyDate : string -> JsDate.Date;
  (** the time value after [d.setDate(d.getDate() + 1)] on a date of time
      value [t]: the same local wall-clock time on the next local day *)
  setNextDate : Z -> Z
}.

(** [new Date(s)]: the format of ECMA-262 where [s] is in it, the
    engine's own reading where it is not. *)
Definition newDate (h : Host) (s : string) : JsDate.Date :=
  match JsDate.parse (tz h) s with
  | Some t => Some t
  | None => legacyDate h s
  end.

(** The body of a JSON response, as far as the plugin reads it:
    [data.lifelogs], [meta.lifelogs.nextCursor], [data.chats],
    [meta.chats.nextCursor]. *)
Record Body := {
  b_lifelogs : option (list Lifelog);
  b_lifelogsNext : option string;
  b_chats : option (list Chat);
  b_chatsNext : option string
}.

(** The outcome of one [requestUrl] call: a response whose [json] is
    [None] when it is falsy or not parseable, or a rejection carrying the
    HTTP status (absent for a network error) and the [retry-after] header. *)
Inductive Reply :=
| Response (json : option Body)
| Failure (status : option Z) (retryAfter : option string).

(** A thrown value. *)
Record Err := {
  e_status : option Z;
  e_retryAfter : option string;
  e_message : string
}.

Definition Error (msg : string) : Err :=
  {| e_status := None; e_retryAfter := None; e_message := msg |}.

(** [error.status === n] *)
Definition status_is (e : Err) (n : Z) : bool :=
  match e_status e with
  | Some s => s =? n
  | None => false
  end.

(** A GET request: URL, query parameters, and the [X-API-Key] header. *)
Record Request := {
  r_url : string;
  r_query : list (string * string);
  r_apiKey : string
}.

Record World := {
  (** the vault: path to content *)
  files : gmap string string;
  folders : gset string;
  (** paths on which [adapter.write] rejects *)
  faulty : gset string;
  (** outcomes of the [requestUrl] calls still to come; once they are used
      up the service is unreachable *)
  net : list Reply;
  (** current time, milliseconds *)
  clock : Z;
  (** logs, oldest first *)
  requests : list Request;
  sleeps : list (option Z);
  writes : list (string * string);
  notices : list string;
  console : list string
}.

(** ** The monad of [async] code

    A computation runs in a world and ends in one, with a value, with a
    thrown error, or cut short: every loop of the plugin is a [Fixpoint]
    on a number of turns, and [Diverge] is the result of a loop that has
    used them up.  A world holds finitely many replies of the service, and
    a request after the last of them fails; the procedures give their loops
    as many turns as the loops can take in front of these replies, and the
    properties below show that none of them ends in [Diverge].  The loops
    of the plugin themselves have no bound: against a service that names a
    next page for ever they do not end.  What is shown of a whole run is
    shown of runs in front of the replies of a world; where it matters
    that a run ends by itself, the statement names the reply that ends it
    and the replies that stay unread. *)

Inductive Res (A : Type) :=
| Ok (a : A)
| Throw (e : Err)
| Diverge.
Arguments Ok {A} a.
Arguments Throw {A} e.
Arguments Diverge {A}.

Definition M (A : Type) : Type := World -> Res A * World.

Definition ret {A} (a : A) : M A := fun w => (Ok a, w).

Definition bind {A B} (m : M A) (k : A -> M B) : M B :=
  fun w =>
    match m w with
    | (Ok a, w') => k a w'
    | (Throw e, w') => (Throw e, w')
    | (Diverge, w') => (Diverge, w')
    end.

Definition throw {A} (e : Err) : M A := fun w => (Throw e, w).

Definition diverge {A} : M A := fun w => (Diverge, w).

(** [try { m } catch (error) { h error }] *)
Definition try_catch {A} (m : M A) (h : Err -> M A) : M A :=
  fun w =>
    match m w with
    | (Throw e, w') => h e w'
    | r => r
    end.

Declare Scope m_scope.
Delimit Scope m_scope with m.
Notation "x <- m ;; k" := (bind m (fun x => k))
  (at level 100, m at next level, right associativity) : m_scope.
Notation "m ;;; k" := (bind m (fun _ => k))
  (at level 100, right associativity) : m_scope.
Local Open Scope m_scope.

(** [for (const x of l) { body x }] with an accumulator. *)
Fixpoint for_of {A S} (l : list A) (body : A -> S -> M S) (s : S) : M S :=
  match l with
  | [] => ret s
  | x :: r => (s' <- body x s ;; for_of r body s')
  end.

(** *** Worlds

    The changes that the primitive effects make to the world. *)

(** The world [w] in front of a service that will answer with [n]. *)
Definition set_net (n : list Reply) (w : World) : World :=
  {| files := files w; folders := folders w; faulty := faulty w; net := n;
     clock := clock w; requests := requests w; sleeps := sleeps w;
     writes := writes w; notices := notices w; console := console w |}.

(** The world after a notice. *)
Definition noticed (msg : string) (w : World) : World :=
  {| files := files w; folders := folders w; faulty := faulty w; net := net w;
     clock := clock w; requests := requests w; sleeps := sleeps w;
     writes := writes w; notices := notices w ++ [msg]; console := console w |}.

(** The world after an error has been logged to the console. *)
Definition logged (msg : string) (e : Err) (w : World) : World :=
  {| files := files w; folders := folders w; faulty := faulty w; net := net w;
     clock := clock w; requests := requests w; sleeps := sleeps w;
     writes := writes w; notices := notices w;
     console := console w ++ [msg +:+ " " +:+ e_message e] |}.

(** The world after a wait of [delay] milliseconds: a delay that is NaN
    or negative fires at once. *)
Definition slept (delay : option Z) (w : World) : World :=
  {| files := files w; folders := folders w; faulty := faulty w; net := net w;
     clock := clock w + match delay with Some d => Z.max 0 d | None => 0 end;
     requests := requests w; sleeps := sleeps w ++ [delay];
     writes := writes w; notices := notices w; console := console w |}.

(** The world after a request has been sent and answered. *)
Definition sent (rq : Request) (w : World) : World :=
  {| files := files w; folders := folders w; faulty := faulty w; net := tail (net w);
     clock := clock w; requests := requests w ++ [rq]; sleeps := sleeps w;
     writes := writes w; notices := notices w; console := console w |}.

(** The world after a write of [c] to [p] that succeeded, and after one
    that was rejected. *)
Definition written (p c : string) (w : World) : World :=
  {| files := <[p := c]> (files w); folders := folders w; faulty := faulty w; net := net w;
     clock := clock w; requests := requests w; sleeps := sleeps w;
     writes := writes w ++ [(p, c)]; notices := notices w; console := console w |}.

Definition rejected (p c : string) (w : World) : World :=
  {| files := files w; folders := folders w; faulty := faulty w; net := net w;
     clock := clock w; requests := requests w; sleeps := sleeps w;
     writes := writes w ++ [(p, c)]; notices := notices w; console := console w |}.

(** The world after the folder [path] has been created. *)
Definition with_folder (path : string) (w : World) : World :=
  {| files := files w; folders := {[path]} ∪ folders w; faulty := faulty w;
     net := net w; clock := clock w; requests := requests w; sleeps := sleeps w;
     writes := writes w; notices := notices w; console := console w |}.

(** *** Primitive effects *)

(** [new Notice(msg)] *)
Definition Notice (msg : string) : M unit := fun w => (Ok tt, noticed msg w).

(** [console.error(msg, error)] *)
Definition console_error (msg : string) (e : Err) : M unit := fun w =>
  (Ok tt, logged msg e w).

(** [new Date()] *)
Definition now : M JsDate.Date := fun w => (Ok (Some (clock w)), w).

(** [new Date().getTime()] *)
Definition now_ms : M Z := fun w => (Ok (clock w), w).

(** [await new Promise(resolve => setTimeout(resolve, delay))] *)
Definition sleep (delay : option Z) : M unit := fun w => (Ok tt, slept delay w).

(** The outcome of a request once the service is unreachable: a network
    error, which carries no status. *)
Definition unreachable : Reply := Failure None None.

(** [await requestUrl({url, method: 'GET', headers})]: the next reply of
    the service, a rejection being thrown. *)
Definition requestUrl (rq : Request) : M (option Body) := fun w =>
  match hd unreachable (net w) with
  | Response json => (Ok json, sent rq w)
  | Failure st ra =>
      (Throw {| e_status := st; e_retryAfter := ra; e_message := "Request failed" |},
       sent rq w)
  end.

(** [await this.app.vault.adapter.write(path, content)] *)
Definition adapter_write (path content : string) : M unit := fun w =>
  if decide (path ∈ faulty w) then (Throw (Error "EACCES"), rejected path content w)
  else (Ok tt, written path content w).

(** [await this.app.vault.adapter.read(path)] *)
Definition adapter_read (path : string) : M string := fun w =>
  match files w !! path with
  | Some c => (Ok c, w)
  | None => (Throw (Error "ENOENT"), w)
  end.

(** [this.app.vault.getFiles()], as the paths of the files. *)
Definition getFiles : M (list string) := fun w =>
  (Ok (map fst (map_to_list (files w))), w).

(** [ensureFolderExists] *)
Definition ensureFolderExists (path : string) : M unit := fun w =>
  if decide (path ∈ folders w) then (Ok tt, w) else (Ok tt, with_folder path w).

(** ** class LimitlessAPI *)

Module LimitlessAPI.
Import JsString.

Definition baseUrl : string := "https://api.limitless.ai".
Definition batchSize : Z := 10.
Definition maxRetries : Z := 5.
Definition retryDelay : Z := 1000.

(** [URLSearchParams.set] *)
Fixpoint params_set (k v : string) (ps : list (string * string)) : list (string * string) :=
  match ps with
  | [] => [(k, v)]
  | (k', v') :: r =>
      if String.eqb k' k then (k, v) :: filter (fun kv => negb (String.eqb (fst kv) k)) r
      else (k', v') :: params_set k v r
  end.

Definition is_space (c : ascii) : bool :=
  let n := nat_of_ascii c in ((n =? 32) || ((9 <=? n) && (n <=? 13)))%nat.

Fixpoint skip_spaces (s : string) : string :=
  match s with
  | String c r => if is_space c then skip_spaces r else s
  | EmptyString => s
  end.

(** The value of the longest prefix of digits, if there is a digit. *)
Fixpoint leading_digits (acc : option Z) (s : string) : option Z :=
  match s with
  | String c r =>
      if is_digit c
      then leading_digits (Some (match acc with Some a => a | None => 0 end * 10 + digit_val c)) r
      else acc
  | EmptyString => acc
  end.

(** [parseInt(s, 10)]; [None] is NaN. *)
Definition parseInt (s : string) : option Z :=
  match skip_spaces s with
  | String c r =>
      if Ascii.eqb c "-"%char then option_map Z.opp (leading_digits None r)
      else if Ascii.eqb c "+"%char then leading_digits None r
      else leading_digits None (String c r)
  | EmptyString => None
  end.

(** The wait before the next attempt, computed in the [catch] of
    [makeRequest] from the retry counter and the [retry-after] header of
    the error, at time [t]; [date] is [new Date] of the host.  [None] is
    NaN: a header that is neither an integer nor a date that the host
    reads.  The seconds of a header are the integer that its digits name;
    the number of the code is the nearest double, the same below [2 ^ 53]. *)
Definition computeDelay (date : string -> JsDate.Date) (t : Z) (retries : Z)
    (retryAfter : option string) : option Z :=
  let delay := retryDelay * 2 ^ retries in
  match retryAfter with
  | Some ra =>
      if truthy ra then
        match parseInt ra with
        | Some retryAfterSeconds => Some (retryAfterSeconds * 1000)
        | None =>
            match date ra with
            | Some retryAfterDate => Some (retryAfterDate - t)
            | None => None
            end
        end
      else Some delay
  | None => Some delay
  end.

(** [Math.round(delay / 1000)] in the notice. *)
Definition rounded_seconds (delay : option Z) : string :=
  match delay with
  | Some d => of_Z ((d + 500) / 1000)
  | None => "NaN"
  end.

Section API.
Variable h : Host.
Variable key : string.

(** One turn of the [while (true)] of [makeRequest] per unit of fuel. *)
Fixpoint makeRequest_loop (fuel : nat) (url : string) (params : list (string * string))
    (retries : Z) : M Body :=
  match fuel with
  | O => diverge
  | S k =>
      try_catch
        (response <- requestUrl {| r_url := url; r_query := params; r_apiKey := key |} ;;
         match response with
         | None => throw (Error "Invalid response format")
         | Some json => ret json
         end)
        (fun error =>
           if status_is error 429 && (retries <? maxRetries) then
             (t <- now_ms ;;
              let delay := computeDelay (newDate h) t retries (e_retryAfter error) in
              Notice ("Rate limit exceeded. Retrying in " +:+ rounded_seconds delay +:+
                      " seconds...") ;;;
              sleep delay ;;;
              makeRequest_loop k url params (retries + 1))
           else
             (console_error "Error making request:" error ;;; throw error))
  end.

(** [makeRequest]: the first request and at most [maxRetries] more. *)
Definition makeRequest (url : string) (params : list (string * string)) : M Body :=
  makeRequest_loop (S (Z.to_nat maxRetries)) url params 0.

(** [if (cursor) params.set('cursor', cursor)] *)
Definition with_cursor (cursor : option string) (params : list (string * string))
  : list (string * string) :=
  match cursor with
  | Some c => if truthy c then params_set "cursor" c params else params
  | None => params
  end.

(** [data.meta?.lifelogs?.nextCursor || null] *)
Definition next_cursor (data : Body) : option string :=
  if present (b_lifelogsNext data) then b_lifelogsNext data else None.

(** The [do ... while (cursor)] of [getLifelogs]. *)
Fixpoint getLifelogs_loop (fuel : nat) (params : list (string * string))
    (cursor : option string) (allLifelogs : list Lifelog) : M (list Lifelog) :=
  match fuel with
  | O => diverge
  | S k =>
      let params := with_cursor cursor params in
      data <- try_catch
                (makeRequest (baseUrl +:+ "/v1/lifelogs") params)
                (fun error => console_error "Error fetching lifelogs:" error ;;; throw error) ;;
      let allLifelogs := allLifelogs ++ default [] (b_lifelogs data) in
      let cursor := next_cursor data in
      if present cursor then getLifelogs_loop k params cursor allLifelogs
      else ret allLifelogs
  end.

(** [getLifelogs]: every turn of its loop uses up a reply of the service
    or throws, which bounds the turns. *)
Definition getLifelogs (date : JsDate.Date) : M (list Lifelog) :=
  match JsDate.isoDate date with
  | None => throw (Error "RangeError: Invalid time value")
  | Some d =>
      let params :=
        [("date", d); ("timezone", timeZone h); ("includeMarkdown", "true");
         ("includeHeadings", "true"); ("direction", "asc");
         ("limit", of_Z batchSize)]%string in
      fun w => getLifelogs_loop (S (length (net w))) params None [] w
  end.

Record ChatParams := {
  p_cursor : option string;
  p_direction : option string;
  p_limit : option Z;
  p_timezone : option string;
  p_isScheduled : option bool;
  p_globalPromptId : option string
}.

Definition set_if (k : string) (v : option string) (ps : list (string * string)) :=
  match v with
  | Some s => if truthy s then params_set k s ps else ps
  | None => ps
  end.

Definition chat_query (params : ChatParams) : list (string * string) :=
  let sp := set_if "cursor" (p_cursor params) [] in
  let sp := set_if "direction" (p_direction params) sp in
  let sp :=
    match p_limit params with
    | Some n => if n =? 0 then sp else params_set "limit" (of_Z n) sp
    | None => sp
    end in
  let sp := set_if "timezone" (p_timezone params) sp in
  let sp :=
    match p_isScheduled params with
    | Some b => params_set "isScheduled" (if b then "true" else "false") sp
    | None => sp
    end in
  set_if "globalPromptId" (p_globalPromptId params) sp.

(** [getChats]: the chats of a page and [meta.chats.nextCursor]. *)
Definition getChats (params : ChatParams) : M (list Chat * option string) :=
  try_catch
    (response <- makeRequest (baseUrl +:+ "/v1/chats") (chat_query params) ;;
     ret (default [] (b_chats response), b_chatsNext response))
    (fun error =>
       if status_is error 404 then
         throw (Error "Chats not found or access denied")
       else if status_is error 401 then
         throw (Error "Invalid API key or unauthorized access")
       else throw error).

(** [deleteChat]: one DELETE request, sent with [requestUrl] itself and
    not through [makeRequest]; the response is not read.  The URL has no
    query string, and the log of requests keeps no method: the request is
    there by its URL. *)
Definition deleteChat (id : string) : M bool :=
  try_catch
    (response <- requestUrl {| r_url := baseUrl +:+ "/v1/chats/" +:+ id;
                               r_query := []; r_apiKey := key |} ;;
     ret true)
    (fun error =>
       if status_is error 404 then
         throw (Error "Chat not found or access denied")
       else if status_is error 401 then
         throw (Error "Invalid API key or unauthorized access")
       else throw error).
End API.

End LimitlessAPI.

(** ** class LimitlessLifelogsPlugin *)

Module Plugin.
Import JsString.

(** The state of the node loop of [formatLifelogMarkdown]. *)
Record Render := {
  content : list string;
  currentSection : string;
  sectionMessages : list string
}.

Definition sanitize_char (c : ascii) : ascii :=
  if existsb (Ascii.eqb c)
       ["<"; ">"; ":"; dquote; "/"; "\"; "|"; "?"; "*"]%char
  then "_"%char else c.

(** [sanitizeFilename]: each of the nine characters of the class
    (angle brackets, colon, double quote, slash, backslash, bar, question
    mark, star) becomes an underscore, then [substring(0, 100)]. *)
Definition sanitizeFilename (name : string) : string :=
  take 100 (map_chars sanitize_char name).

(** [role.charAt(0).toUpperCase() + role.slice(1)] *)
Definition formatRole (role : string) : string :=
  match role with
  | EmptyString => EmptyString
  | String c r => String (upper c) r
  end.

(** [/^\d{4}-\d{2}-\d{2}$/.test(s)] *)
Definition is_date_name (s : string) : bool :=
  match String.list_ascii_of_string s with
  | [y1; y2; y3; y4; d1; m1; m2; d2; a1; a2] =>
      forallb is_digit [y1; y2; y3; y4; m1; m2; a1; a2] &&
      Ascii.eqb d1 "-"%char && Ascii.eqb d2 "-"%char
  | _ => false
  end.

(** The part of [s] after its last [c], or [s] when it has none. *)
Fixpoint after_last (c : ascii) (s : string) : string :=
  match s with
  | EmptyString => EmptyString
  | String a r =>
      if Ascii.eqb a c && negb (includes (String c EmptyString) r) then r
      else if includes (String c EmptyString) (String a r) then after_last c r
      else String a r
  end.

(** The part of [s] before its last [c], or [s] when it has none. *)
Fixpoint before_last (c : ascii) (s : string) : string :=
  match s with
  | EmptyString => EmptyString
  | String a r =>
      if includes (String c EmptyString) r then String a (before_last c r)
      else if Ascii.eqb a c then EmptyString
      else String a r
  end.

(** [file.basename]: the last segment of the path without its extension. *)
Definition basename (path : string) : string :=
  before_last "."%char (after_last "/"%char path).

Section Plugin.
Variable h : Host.
Variable settings : LimitlessLifelogsSettings.

(** The timestamp of a blockquote node. *)
Definition node_timestamp (node : ContentNode) : string :=
  match n_startTime node with
  | Some st =>
      if truthy st then
        "(" +:+ JsDate.toLocaleString_short (tz h) (dayPeriodSep h) (newDate h st)
            +:+ ")"
      else EmptyString
  | None => EmptyString
  end.

Definition node_message (node : ContentNode) : string :=
  "- " +:+ or_else (n_speakerName node) "Speaker" +:+ " " +:+ node_timestamp node
       +:+ ": " +:+ n_content node.

(** The body of [for (const node of lifelog.contents)]. *)
Definition render_node (st : Render) (node : ContentNode) : Render :=
  if String.eqb (n_type node) "heading2" then
    {| content :=
         if truthy (currentSection st) && (0 <? length (sectionMessages st))%nat then
           content st ++ ["## " +:+ currentSection st +:+ nl] ++ sectionMessages st
                      ++ [EmptyString]
         else content st;
       currentSection := n_content node;
       sectionMessages := [] |}
  else if String.eqb (n_type node) "blockquote" then
    if truthy (currentSection st) then
      {| content := content st;
         currentSection := currentSection st;
         sectionMessages := sectionMessages st ++ [node_message node] |}
    else
      {| content := content st ++ [node_message node];
         currentSection := currentSection st;
         sectionMessages := sectionMessages st |}
  else if negb (String.eqb (n_type node) "heading1") then
    {| content := content st ++ [n_content node];
       currentSection := currentSection st;
       sectionMessages := sectionMessages st |}
  else st.

(** The flush after the loop. *)
Definition render_finish (st : Render) : list string :=
  if truthy (currentSection st) && (0 <? length (sectionMessages st))%nat then
    content st ++ ["## " +:+ currentSection st +:+ nl] ++ sectionMessages st
  else content st.

(** The blocks pushed to [content] when [lifelog.markdown] is falsy. *)
Definition lifelog_blocks (lifelog : Lifelog) : list string :=
  let content0 :=
    match l_title lifelog with
    | Some t => if truthy t then ["# " +:+ t +:+ nl] else []
    | None => []
    end in
  match l_contents lifelog with
  | Some nodes =>
      render_finish
        (fold_left render_node nodes
           {| content := content0; currentSection := EmptyString;
              sectionMessages := [] |})
  | None => content0
  end.

Definition formatLifelogMarkdown (lifelog : Lifelog) : string :=
  if present (l_markdown lifelog) then
    collapse_blank (default EmptyString (l_markdown lifelog))
  else join (nl +:+ nl) (lifelog_blocks lifelog).

(** *** Chats *)

Definition format_toolCall (tc : ToolCall) : string :=
  "- " +:+ tc_toolName tc +:+ ": `" +:+ default "undefined" (tc_args tc) +:+ "`".

Definition format_toolResult (r : ToolResult) : list string :=
  ("- " +:+ tr_toolName r +:+ ": " +:+ (if tr_isError r then "Error" else "Success"))
  :: match tr_entriesReturned r with
     | Some es =>
         map (fun e => "  - [[" +:+ en_title e +:+ "]] (" +:+ en_id e +:+ ")") es
     | None => []
     end.

Definition format_message (m : ChatMessage) : list string :=
  ["### " +:+ formatRole (m_role m) +:+ " " +:+ or_else (m_name m) EmptyString;
   "*" +:+ localeString h (newDate h (m_createdAt m)) +:+ "*";
   EmptyString]
  ++ (match m_text m with
      | Some t => if truthy t then [t; EmptyString] else []
      | None => []
      end)
  ++ (match m_toolCalls m with
      | Some (tc :: tcs) =>
          ["**Tool Calls:**"%string] ++ map format_toolCall (tc :: tcs) ++ [EmptyString]
      | _ => []
      end)
  ++ (match m_toolResults m with
      | Some (r :: rs) =>
          ["**Tool Results:**"%string] ++ concat (map format_toolResult (r :: rs))
            ++ [EmptyString]
      | _ => []
      end)
  ++ ["---"%string; EmptyString].

Definition formatChatMarkdown (chat : Chat) : string :=
  join nl
    (["# " +:+ or_else (c_summary chat) "Chat Conversation";
      "**Chat ID:** " +:+ c_id chat;
      "**Created:** " +:+ localeString h (newDate h (c_createdAt chat));
      "**Started:** " +:+ localeString h (newDate h (c_startedAt chat));
      "**Visibility:** " +:+ c_visibility chat;
      EmptyString]
     ++ match c_messages chat with
        | [] => []
        | ms => ["## Conversation"%string; EmptyString] ++ concat (map format_message ms)
        end).

(** [getChatFilePath]; [None] is the RangeError that [toISOString]
    throws on an invalid date. *)
Definition getChatFilePath (chat : Chat) (folder : string) : option string :=
  let date := newDate h (c_createdAt chat) in
  if String.eqb (chatFileFormat settings) "per-chat" then
    let safeTitle := sanitizeFilename (or_else (c_summary chat) ("Chat " +:+ c_id chat)) in
    Some (folder +:+ "/" +:+ safeTitle +:+ " - " +:+ take 8 (c_id chat) +:+ ".md")
  else if String.eqb (chatFileFormat settings) "daily" then
    match JsDate.isoDate date with
    | Some d => Some (folder +:+ "/" +:+ d +:+ " - Chats.md")
    | None => None
    end
  else if String.eqb (chatFileFormat settings) "monthly" then
    Some (folder +:+ "/" +:+ JsDate.number_to_string (JsDate.getFullYear (tz h) date)
            +:+ "-"
            +:+ padStart0 2 (JsDate.number_to_string
                               (option_map (Z.add 1) (JsDate.getMonth (tz h) date)))
            +:+ " - Chats.md")
  else Some (folder +:+ "/" +:+ c_id chat +:+ ".md").

(** [existingContent !== content], where [None] is [null]. *)
Definition differs (existingContent : option string) (content : string) : bool :=
  match existingContent with
  | Some c => negb (String.eqb c content)
  | None => true
  end.

(** [getExistingFileContent]; [None] is [null]. *)
Definition getExistingFileContent (filePath : string) : M (option string) :=
  try_catch (c <- adapter_read filePath ;; ret (Some c)) (fun _ => ret None).

Definition processChatFile (chat : Chat) (folder : string) : M unit :=
  try_catch
    (filePath <- match getChatFilePath chat folder with
                 | Some p => ret p
                 | None => throw (Error "RangeError: Invalid time value")
                 end ;;
     let content := formatChatMarkdown chat in
     existingContent <- getExistingFileContent filePath ;;
     if differs existingContent content then adapter_write filePath content
     else ret tt)
    (fun error => console_error "Error processing chat file:" error).

(** [this.settings.maxChatsPerSync || d] *)
Definition maxChats_or (d : Z) : Z :=
  if maxChatsPerSync settings =? 0 then d else maxChatsPerSync settings.

(** The argument of [getChats] in [syncChats]. *)
Definition page_params (cursor : option string) : LimitlessAPI.ChatParams :=
  {| LimitlessAPI.p_cursor := cursor;
     LimitlessAPI.p_direction := Some "desc"%string;
     LimitlessAPI.p_limit := Some (Z.min (maxChats_or 50) 100);
     LimitlessAPI.p_timezone := Some (timeZone h);
     LimitlessAPI.p_isScheduled := None;
     LimitlessAPI.p_globalPromptId := None |}.

(** The body of the [for] of [syncChats]: [processedChats] after [chat]. *)
Definition count_chat (folder : string) (chat : Chat) (processedChats : Z) : M Z :=
  processChatFile chat folder ;;; ret (processedChats + 1).

(** The [do ... while] of [syncChats]; the result is [processedChats]. *)
Fixpoint syncChats_loop (fuel : nat) (folder : string) (cursor : option string)
    (processedChats : Z) : M Z :=
  match fuel with
  | O => diverge
  | S k =>
      result <- LimitlessAPI.getChats h (apiKey settings) (page_params cursor) ;;
      processedChats <- for_of (fst result) (count_chat folder) processedChats ;;
      let cursor := snd result in
      if present cursor && (processedChats <? maxChats_or 200)
      then syncChats_loop k folder cursor processedChats
      else ret processedChats
  end.

Definition syncChats : M unit :=
  if negb (syncChatsEnabled settings) then ret tt
  else if negb (truthy (apiKey settings)) then
    Notice "Please set your Limitless API key in settings"
  else
    try_catch
      (let chatFolderPath := normalizePath h (chatFolderPath settings) in
       ensureFolderExists chatFolderPath ;;;
       Notice "Starting chat sync..." ;;;
       processedChats <- (fun w => syncChats_loop (S (length (net w))) chatFolderPath None 0 w) ;;
       Notice ("Chat sync complete! Processed " +:+ of_Z processedChats +:+ " chats."))
      (fun error =>
         console_error "Error syncing chats:" error ;;;
         Notice "Error syncing chats. Check console for details.").

(** *** Lifelogs *)

(** The comparator [(a, b) => b.getTime() - a.getTime()]; with an
    invalid date the difference is NaN, which [sort] reads as +0. *)
Definition newest_first (a b : JsDate.Date) : Z :=
  match a, b with
  | Some x, Some y => y - x
  | _, _ => 0
  end.

(** [Array.prototype.sort] as a stable insertion sort. *)
Fixpoint insert_by {A} (cmp : A -> A -> Z) (x : A) (l : list A) : list A :=
  match l with
  | [] => [x]
  | y :: r => if cmp x y <=? 0 then x :: y :: r else y :: insert_by cmp x r
  end.

Definition sort_by {A} (cmp : A -> A -> Z) (l : list A) : list A :=
  fold_right (insert_by cmp) [] l.

(** The dates of the lifelog files among [paths]: the files under the
    lifelog folder, with the extension [.md], whose basename has the shape
    of a date. *)
Definition date_files (paths : list string) : list JsDate.Date :=
  let folder := normalizePath h (folderPath settings) in
  map (newDate h)
    (filter (fun b => is_date_name b = true)
       (map basename
          (filter (fun p => endsWith p ".md" = true)
             (filter (fun p => startsWith p (folder +:+ "/") = true) paths)))).

(** [getLastSyncedDate]; [None] is [null]. *)
Definition getLastSyncedDate : M (option JsDate.Date) :=
  paths <- getFiles ;;
  ret (head (sort_by newest_first (date_files paths))).

(** The body of the [while] of [syncLifelogs] for [currentDate]. *)
Definition syncLifelogs_day (folder : string) (currentDate : JsDate.Date) : M unit :=
  dateStr <- match JsDate.isoDate currentDate with
             | Some d => ret d
             | None => throw (Error "RangeError: Invalid time value")
             end ;;
  logs <- LimitlessAPI.getLifelogs h (apiKey settings) currentDate ;;
  if (0 <? length logs)%nat then
    let content := join (nl +:+ nl) (map formatLifelogMarkdown logs) in
    let filePath := folder +:+ "/" +:+ dateStr +:+ ".md" in
    adapter_write filePath content ;;;
    Notice ("Synced entries for " +:+ dateStr)
  else ret tt.

(** [while (currentDate <= endDate)] *)
Fixpoint syncLifelogs_loop (fuel : nat) (folder : string)
    (currentDate endDate : JsDate.Date) : M unit :=
  match fuel with
  | O => diverge
  | S k =>
      if JsDate.leb currentDate endDate then
        syncLifelogs_day folder currentDate ;;;
        syncLifelogs_loop k folder (JsDate.nextDay (setNextDate h) currentDate) endDate
      else ret tt
  end.

Definition syncLifelogs : M unit :=
  if negb (truthy (apiKey settings)) then
    Notice "Please set your Limitless API key in settings"
  else
    try_catch
      (let folder := normalizePath h (folderPath settings) in
       ensureFolderExists folder ;;;
       lastSyncedDate <- getLastSyncedDate ;;
       let startDate :=
         match lastSyncedDate with
         | Some d => d
         | None => newDate h (startDate settings)
         end in
       endDate <- now ;;
       Notice "Starting Limitless lifelog sync..." ;;;
       (fun w => syncLifelogs_loop (S (length (net w))) folder startDate endDate w) ;;;
       Notice "Limitless lifelog sync complete!")
      (fun error =>
         console_error "Error syncing lifelogs:" error ;;;
         Notice "Error syncing Limitless lifelogs. Check console for details.").
End Plugin.
End Plugin.

(** ** A concrete host and world, for running the model *)

Module Demo.
Import JsString.

(** An en-US host on UTC whose paths are already normal, whose engine
    reads dates in the format of ECMA-262 only, and whose days all have 24
    hours. *)
Definition host : Host := {|
  tz := 0;
  timeZone := "UTC";
  normalizePath := fun p => p;
  localeString := JsDate.toLocaleString_enUS 0 " ";
  dayPeriodSep := " ";
  legacyDate := fun _ => None;
  setNextDate := fun t => t + JsDate.msPerDay
|}.

(** The default settings with a key and with the chat sync switched on. *)
Definition settings : LimitlessLifelogsSettings := {|
  apiKey := "key";
  folderPath := "Limitless Lifelogs";
  startDate := "2025-02-09";
  chatFolderPath := "Limitless Chats";
  syncChatsEnabled := true;
  chatFileFormat := "per-chat";
  maxChatsPerSync := 50
|}.

(** An empty vault at time [t], in front of a service that will answer
    with [replies]. *)
Definition world (t : Z) (replies : list Reply) : World := {|
  files := ∅; folders := ∅; faulty := ∅; net := replies; clock := t;
  requests := []; sleeps := []; writes := []; notices := []; console := []
|}.

Definition page_lifelogs (ls : list Lifelog) (next : option string) : Reply :=
  Response (Some {| b_lifelogs := Some ls; b_lifelogsNext := next;
                    b_chats := None; b_chatsNext := None |}).

Definition page_chats (cs : list Chat) (next : option string) : Reply :=
  Response (Some {| b_lifelogs := None; b_lifelogsNext := None;
                    b_chats := Some cs; b_chatsNext := next |}).

Definition chat (id summary created : string) : Chat := {|
  c_id := id; c_summary := Some summary; c_createdAt := created;
  c_startedAt := created; c_messages := []; c_visibility := "private"
|}.

Definition node_h2 (t : string) : ContentNode :=
  {| n_type := "heading2"; n_content := t; n_speakerName := None; n_startTime := None |}.

Definition node_quote (speaker : option string) (start : option string) (text : string)
  : ContentNode :=
  {| n_type := "blockquote"; n_content := text; n_speakerName := speaker;
     n_startTime := start |}.

Definition lifelog_of (nodes : list ContentNode) : Lifelog :=
  {| l_markdown := None; l_title := None; l_contents := Some nodes |}.

(** The lifelog of the specification's literal example. *)
Definition meeting_lifelog : Lifelog :=
  lifelog_of [node_h2 "Meeting";
              node_quote (Some "Alice"%string) (Some "2025-02-09T10:00:00"%string) "Hello"].

(** Two headings in a row: the first section never gets a line. *)
Definition intro_lifelog : Lifelog :=
  lifelog_of [node_h2 "Intro"; node_h2 "Meeting"; node_quote (Some "Alice"%string) None "Hello"].

(** The settings of [settings] under the daily and the monthly layout. *)
Definition daily_settings : LimitlessLifelogsSettings := {|
  apiKey := "key"; folderPath := "Limitless Lifelogs"; startDate := "2025-02-09";
  chatFolderPath := "Limitless Chats"; syncChatsEnabled := true;
  chatFileFormat := "daily"; maxChatsPerSync := 50 |}.


(** An empty vault in which writes to [paths] are rejected. *)
Definition locked_world (paths : list string) (replies : list Reply) : World := {|
  files := ∅; folders := ∅; faulty := list_to_set paths; net := replies; clock := 0;
  requests := []; sleeps := []; writes := []; notices := []; console := []
|}.

(** Two chats created on the same UTC day. *)
Definition morning_chat : Chat := chat "abcd1234-xxxx" "Plan" "2025-02-09T10:00:00Z".
Definition evening_chat : Chat := chat "ef015678-yyyy" "Review" "2025-02-09T18:30:00Z".

(** [p] holds of the [n] day numbers from [z] on. *)
Fixpoint all_days (n : nat) (z : Z) (p : Z -> bool) : bool :=
  match n with
  | O => true
  | S k => p z && all_days k (z + 1) p
  end.

(** Chats with distinct ids, [n] of them from number [start] on. *)
Definition numbered_chat (i : nat) : Chat :=
  chat ("chat-" +:+ of_Z (Z.of_nat i)) ("Topic " +:+ of_Z (Z.of_nat i)) "2025-02-09T10:00:00Z".

Definition chats_from (start n : nat) : list Chat := map numbered_chat (seq start n).

(** A cap of 151 chats per sync, above the page size of 100. *)
Definition capped_settings : LimitlessLifelogsSettings := {|
  apiKey := "key"; folderPath := "Limitless Lifelogs"; startDate := "2025-02-09";
  chatFolderPath := "Limitless Chats"; syncChatsEnabled := true;
  chatFileFormat := "per-chat"; maxChatsPerSync := 151 |}.

(** A vault that holds the lifelog file of 2025-02-09 (and a note), at
    noon UTC of 2025-02-10. *)
Definition synced_world (replies : list Reply) : World := {|
  files := {[ "Limitless Lifelogs/2025-02-09.md"%string := "old"%string;
              "Limitless Lifelogs/notes.md"%string := "note"%string ]};
  folders := {[ "Limitless Lifelogs"%string ]}; faulty := ∅; net := replies;
  clock := 1739188800000;
  requests := []; sleeps := []; writes := []; notices := []; console := []
|}.
End Demo.

(** ** Vocabulary of the statements *)

Module Terms.
Import JsString.

(** A node that opens a section, and a node that is a quoted utterance. *)
Definition is_heading2 (n : ContentNode) : Prop := n_type n = "heading2"%string.
Definition is_blockquote (n : ContentNode) : Prop := n_type n = "blockquote"%string.

(** The UTC calendar date of the instant [t], in the form YYYY-MM-DD. *)
Definition iso_day (t : Z) : string :=
  JsDate.iso_year (JsDate.year_of t) +:+ "-" +:+ JsDate.pad 2 (JsDate.month_of t) +:+ "-" +:+
  JsDate.pad 2 (JsDate.day_of t).

(** The error that [makeRequest] catches when a request is answered by
    [r]; [None] when [r] is a response with a JSON body. *)
Definition reply_error (r : Reply) : option Err :=
  match r with
  | Response None => Some (Error "Invalid response format")
  | Response (Some _) => None
  | Failure st ra =>
      Some {| e_status := st; e_retryAfter := ra; e_message := "Request failed" |}
  end.

(** The reply to the [k]-th request from now on. *)
Definition reply_at (w : World) (k : nat) : Reply := nth k (net w) unreachable.

(** A rate-limited reply with the given [retry-after] header. *)
Definition rate_limited (retryAfter : option string) : Reply :=
  Failure (Some 429) retryAfter.

(** The world after the notice and the wait of a rate-limited turn. *)
Definition waited (delay : option Z) (w : World) : World :=
  slept delay
    (noticed ("Rate limit exceeded. Retrying in " +:+ LimitlessAPI.rounded_seconds delay +:+
              " seconds...") w).

(** The GET request that [makeRequest] sends. *)
Definition request_of (key url : string) (params : list (string * string)) : Request :=
  {| r_url := url; r_query := params; r_apiKey := key |}.

(** [w'] has the vault of [w]: the same files, the same log of writes and
    the same rejecting paths. *)
Definition vault_kept (w w' : World) : Prop :=
  files w' = files w /\ writes w' = writes w /\ faulty w' = faulty w.

(** [w'] differs from [w] in the vault and the console at most. *)
Definition service_kept (w w' : World) : Prop :=
  net w' = net w /\ clock w' = clock w /\ requests w' = requests w /\
  sleeps w' = sleeps w /\ notices w' = notices w /\ folders w' = folders w /\
  faulty w' = faulty w.

(** A world with an empty vault in front of a service that will answer
    with [replies]. *)
Definition service (replies : list Reply) : World := Demo.world 0 replies.

(** The chats that the loop of [syncChats] hands to [processChatFile], in
    order, when it starts in [w] with [cursor] and [processed]: the loop
    with the processing left out. *)
Fixpoint chat_plan (h : Host) (settings : LimitlessLifelogsSettings) (fuel : nat)
    (cursor : option string) (processed : Z) (w : World) : list Chat :=
  match fuel with
  | O => []
  | S k =>
      match LimitlessAPI.getChats h (apiKey settings) (Plugin.page_params h settings cursor) w with
      | (Ok (chats, next), w') =>
          let processed' := processed + Z.of_nat (length chats) in
          chats ++
          (if present next && (processed' <? Plugin.maxChats_or settings 200)
           then chat_plan h settings k next processed' w' else [])
      | _ => []
      end
  end.

(** The chats that one [syncChats] processes when the service answers
    with [replies]. *)
Definition sync_plan (h : Host) (settings : LimitlessLifelogsSettings)
    (replies : list Reply) : list Chat :=
  if syncChatsEnabled settings && truthy (apiKey settings)
  then chat_plan h settings (S (length replies)) None 0 (service replies)
  else [].

(** The target paths of the chats [cs], those whose path can be computed. *)
Definition chat_paths (h : Host) (settings : LimitlessLifelogsSettings) (cs : list Chat)
  : list string :=
  omap (fun c => Plugin.getChatFilePath h settings c (normalizePath h (chatFolderPath settings)))
    cs.

(** [URLSearchParams.get]: the value of the first parameter named [k]. *)
Fixpoint query_get (k : string) (ps : list (string * string)) : option string :=
  match ps with
  | [] => None
  | (k', v) :: r => if String.eqb k' k then Some v else query_get k r
  end.

(** The [date] parameters of the requests [rqs]. *)
Definition dates_fetched (rqs : list Request) : list (option string) :=
  map (fun rq => query_get "date" (r_query rq)) rqs.

(** The block that a flushed section starts with. *)
Definition heading (t : string) : string := "## " +:+ t +:+ nl.

(** Every character of [s] passes [p]. *)
Fixpoint forall_chars (p : ascii -> bool) (s : string) : bool :=
  match s with
  | EmptyString => true
  | String a r => p a && forall_chars p r
  end.

(** The nine characters that [sanitizeFilename] replaces, and the strings
    that hold none of them. *)
Definition reserved (c : ascii) : bool :=
  existsb (Ascii.eqb c) ["<"; ">"; ":"; dquote; "/"; "\"; "|"; "?"; "*"]%char.

Definition unreserved (s : string) : bool := forall_chars (fun c => negb (reserved c)) s.

(** A node that is neither a heading nor a quoted utterance. *)
Definition is_heading1 (n : ContentNode) : Prop := n_type n = "heading1"%string.
Definition is_plain (n : ContentNode) : Prop :=
  n_type n <> "heading1"%string /\ n_type n <> "heading2"%string /\
  n_type n <> "blockquote"%string.

(** The block that a node gives outside of any section. *)
Definition node_block (h : Host) (n : ContentNode) : string :=
  if String.eqb (n_type n) "blockquote" then Plugin.node_message h n else n_content n.

(** The block that the title of a lifelog gives. *)
Definition title_block (title : option string) : list string :=
  if present title then ["# " +:+ default EmptyString title +:+ nl] else [].

(** The [cursor] parameters of the requests [rqs]. *)
Definition cursors_sent (rqs : list Request) : list (option string) :=
  map (fun rq => query_get "cursor" (r_query rq)) rqs.

(** A page of lifelogs followed by the cursor of the next page. *)
Definition lifelog_page (p : list Lifelog * string) : Reply :=
  Demo.page_lifelogs (fst p) (Some (snd p)).


(** The instant that a walk from [c] has reached after [k] steps to the
    next local day, and the dates of the first [n] days of the walk. *)
Fixpoint walk_day (h : Host) (c : Z) (k : nat) : Z :=
  match k with
  | O => c
  | S j => walk_day h (setNextDate h c) j
  end.

Definition walk_days (h : Host) (c : Z) (n : nat) : list string :=
  map (fun k => iso_day (walk_day h c k)) (seq 0 n).

(** The number of days of 24 hours from [c] to [e], both counted. *)
Definition days_between (c e : Z) : nat := Z.to_nat ((e - c) / JsDate.msPerDay + 1).

(** The path of the lifelog file of the day of [t]. *)
Definition lifelog_path (h : Host) (settings : LimitlessLifelogsSettings) (t : Z) : string :=
  normalizePath h (folderPath settings) +:+ "/" +:+ iso_day t +:+ ".md".

(** The date at which the walk of [syncLifelogs] starts in [w]. *)
Definition walk_start (h : Host) (settings : LimitlessLifelogsSettings) (w : World)
  : JsDate.Date :=
  match head (Plugin.sort_by Plugin.newest_first
                (Plugin.date_files h settings (map fst (map_to_list (files w))))) with
  | Some d => d
  | None => newDate h (startDate settings)
  end.

(** The requests [groups] are those of a walk that starts at [c], one
    group for each day of the walk and in its order: no group is empty, the
    requests of the first group carry the date of [c], and the groups after
    it are those of a walk from the instant that the host's step to the next
    local day leads to. *)
Fixpoint day_groups (h : Host) (c : Z) (groups : list (list Request)) : Prop :=
  match groups with
  | [] => True
  | g :: r =>
      g <> [] /\
      Forall (fun rq => query_get "date" (r_query rq) = Some (iso_day c)) g /\
      day_groups h (setNextDate h c) r
  end.

(** The only page of a day of lifelogs. *)
Definition day_page (ls : list Lifelog) : Reply := Demo.page_lifelogs ls None.

(** The writes of a walk that starts at [c], the lifelogs of its days
    being [days]: one file for each day that has lifelogs. *)
Fixpoint day_writes (h : Host) (settings : LimitlessLifelogsSettings) (c : Z)
    (days : list (list Lifelog)) : list (string * string) :=
  match days with
  | [] => []
  | ls :: r =>
      (if (0 <? length ls)%nat
       then [(lifelog_path h settings c,
              join (nl +:+ nl) (map (Plugin.formatLifelogMarkdown h) ls))]
       else []) ++ day_writes h settings (setNextDate h c) r
  end.

(** The files [fs] after the writes [ws]. *)
Definition stored (ws : list (string * string)) (fs : gmap string string)
  : gmap string string :=
  foldl (fun m pc => <[fst pc := snd pc]> m) fs ws.

(** A reply that carries no [retry-after] header. *)
Definition no_retry_after (r : Reply) : Prop :=
  match r with
  | Failure _ ra => ra = None
  | Response _ => True
  end.


(** The waits of the exponential backoff, in order. *)
Definition backoff_waits : list (option Z) :=
  [Some 1000; Some 2000; Some 4000; Some 8000; Some 16000].

(** A request for a page of chats as [syncChats] sends it. *)
Definition chat_request (h : Host) (settings : LimitlessLifelogsSettings) (rq : Request)
  : Prop :=
  r_url rq = LimitlessAPI.baseUrl +:+ "/v1/chats" /\
  r_apiKey rq = apiKey settings /\
  query_get "direction" (r_query rq) = Some "desc"%string /\
  query_get "limit" (r_query rq) =
    Some (of_Z (Z.min (Plugin.maxChats_or settings 50) 100)) /\
  query_get "timezone" (r_query rq) =
    (if truthy (timeZone h) then Some (timeZone h) else None).

(** A request for a page of lifelogs as [syncLifelogs] sends it. *)
Definition lifelog_request (h : Host) (settings : LimitlessLifelogsSettings) (rq : Request)
  : Prop :=
  r_url rq = LimitlessAPI.baseUrl +:+ "/v1/lifelogs" /\
  r_apiKey rq = apiKey settings /\
  query_get "timezone" (r_query rq) = Some (timeZone h) /\
  query_get "includeMarkdown" (r_query rq) = Some "true"%string /\
  query_get "includeHeadings" (r_query rq) = Some "true"%string /\
  query_get "direction" (r_query rq) = Some "asc"%string /\
  query_get "limit" (r_query rq) = Some "10"%string.

End Terms.

(** * Properties *)

(** ** The model of [Date] on concrete inputs *)

Example parse_date_only : JsDate.parse 0 "2025-02-09" = Some 1739059200000.
Proof. reflexivity. Qed.

Example parse_local_time : JsDate.parse (-300) "2025-02-09T10:00:00" = Some 1739113200000.
Proof. reflexivity. Qed.

Example parse_invalid_month : JsDate.parse 0 "2025-13-01" = None.
Proof. reflexivity. Qed.

Example isoDate_roundtrip_example :
  JsDate.isoDate (JsDate.parse 0 "2024-02-29") = Some "2024-02-29"%string.
Proof. reflexivity. Qed.

(** The two calendar conversions agree on every day from 1970-01-01 to
    2106-11-23. *)
Example calendar_roundtrip :
  Demo.all_days (Z.to_nat 50000) 0
    (fun z =>
       let '(y, m, d) := JsDate.civil_from_days z in
       (JsDate.days_from_civil y m d =? z) &&
       (1 <=? m) && (m <=? 12) && (1 <=? d) && (d <=? JsDate.days_in_month y m)) = true.
Proof. vm_compute. reflexivity. Qed.

Example toISOString_example :
  JsDate.toISOString (Some 1739095200123) = Some "2025-02-09T10:00:00.123Z"%string.
Proof. reflexivity. Qed.

Example short_en_US_example :
  JsDate.toLocaleString_short (-300) " " (JsDate.parse (-300) "2025-02-09T10:00:00")
  = "02/09/25, 10:00 AM"%string.
Proof. reflexivity. Qed.

Import JsString Terms Demo.

(** ** Strings *)

Lemma append_cons x (a b : string) : String x a +:+ b = String x (a +:+ b).
Proof. reflexivity. Qed.

Lemma append_nil (b : string) : EmptyString +:+ b = b.
Proof. reflexivity. Qed.

Lemma append_assoc (a b c : string) : (a +:+ b) +:+ c = a +:+ (b +:+ c).
Proof.
  induction a as [|x a IH]; [reflexivity|].
  by rewrite !append_cons, IH.
Qed.

Lemma append_empty_r (a : string) : a +:+ EmptyString = a.
Proof. induction a as [|x a IH]; [reflexivity | by rewrite append_cons, IH]. Qed.

Lemma prefix_append (p s : string) : String.prefix p (p +:+ s) = true.
Proof.
  induction p as [|x p IH]; [by destruct s|].
  rewrite append_cons. simpl.
  destruct (Ascii.ascii_dec x x); [exact IH | congruence].
Qed.

Lemma includes_unfold (p s : string) :
  includes p s =
  String.prefix p s || match s with EmptyString => false | String _ r => includes p r end.
Proof. by destruct s. Qed.

Lemma includes_prefix (p s : string) : String.prefix p s = true -> includes p s = true.
Proof. intros H. by rewrite includes_unfold, H. Qed.

Lemma includes_append (p a b : string) : includes p (a +:+ p +:+ b) = true.
Proof.
  induction a as [|x a IH].
  - rewrite append_nil. apply includes_prefix, prefix_append.
  - rewrite append_cons, includes_unfold, IH. apply orb_true_r.
Qed.

Lemma join_app sep (a b : list string) :
  a <> [] -> b <> [] -> join sep (a ++ b) = join sep a +:+ sep +:+ join sep b.
Proof.
  induction a as [|x a IH]; intros Ha Hb; [congruence|].
  destruct a as [|y a].
  - destruct b; [congruence|]. reflexivity.
  - change (join sep ((x :: y :: a) ++ b)) with (x +:+ sep +:+ join sep ((y :: a) ++ b)).
    rewrite IH by congruence.
    change (join sep (x :: y :: a)) with (x +:+ sep +:+ join sep (y :: a)).
    by rewrite !append_assoc.
Qed.

(** A run of blocks of the array shows in the joined text. *)
Lemma join_includes sep (a b c : list string) :
  b <> [] -> includes (join sep b) (join sep (a ++ b ++ c)) = true.
Proof.
  intros Hb.
  destruct a as [|x a], c as [|z c].
  - rewrite app_nil_r. simpl. apply includes_prefix.
    rewrite <- (append_empty_r (join sep b)) at 2. apply prefix_append.
  - simpl app. rewrite join_app by (done || congruence).
    apply includes_prefix, prefix_append.
  - rewrite app_nil_r, join_app by (done || congruence).
    rewrite <- (append_empty_r (join sep b)) at 2.
    rewrite <- append_assoc. apply includes_append.
  - rewrite join_app; [|congruence| by destruct b].
    rewrite join_app by (done || congruence).
    rewrite <- (append_assoc (join sep (x :: a)) sep). apply includes_append.
Qed.

(** ** The lifelog renderer *)

Section Renderer.
Variable h : Host.

Lemma eqb_decide (a b : string) : String.eqb a b = bool_decide (a = b).
Proof.
  destruct (String.eqb_spec a b) as [->|Hne].
  - by rewrite bool_decide_eq_true_2.
  - by rewrite bool_decide_eq_false_2.
Qed.

(** The array [content] only grows. *)
Lemma render_node_grows st n :
  exists ext, Plugin.content (Plugin.render_node h st n) = Plugin.content st ++ ext.
Proof.
  unfold Plugin.render_node.
  repeat match goal with |- context [if ?b then _ else _] => destruct b end;
    simpl; eauto using app_nil_r.
Qed.

Lemma render_nodes_grow nodes st :
  exists ext,
    Plugin.content (fold_left (Plugin.render_node h) nodes st) = Plugin.content st ++ ext.
Proof.
  revert st. induction nodes as [|n nodes IH]; intros st; simpl.
  - exists []. by rewrite app_nil_r.
  - destruct (IH (Plugin.render_node h st n)) as [e2 ->].
    destruct (render_node_grows st n) as [e1 ->].
    exists (e1 ++ e2). by rewrite app_assoc.
Qed.

Lemma render_finish_grows st :
  exists ext, Plugin.render_finish st = Plugin.content st ++ ext.
Proof.
  unfold Plugin.render_finish. destruct (_ && _); eauto.
  exists []. by rewrite app_nil_r.
Qed.

(** Inside an open section, nodes other than heading2 leave the section
    open and buffer exactly the messages of the blockquotes. *)
Lemma render_section_body body st :
  Forall (fun n => ~ is_heading2 n) body ->
  truthy (Plugin.currentSection st) = true ->
  let st' := fold_left (Plugin.render_node h) body st in
  Plugin.currentSection st' = Plugin.currentSection st /\
  Plugin.sectionMessages st' =
    Plugin.sectionMessages st ++ map (Plugin.node_message h) (filter is_blockquote body).
Proof.
  intros Hbody. revert st. induction Hbody as [|n body Hn _ IH]; intros st Hopen; simpl.
  - by rewrite app_nil_r.
  - unfold is_heading2 in Hn.
    assert (Hstep : Plugin.currentSection (Plugin.render_node h st n) = Plugin.currentSection st /\
                    Plugin.sectionMessages (Plugin.render_node h st n) =
                      Plugin.sectionMessages st ++
                      map (Plugin.node_message h) (filter is_blockquote [n])).
    { unfold Plugin.render_node, is_blockquote.
      rewrite !eqb_decide, bool_decide_eq_false_2 by done.
      rewrite filter_cons, filter_nil.
      case_bool_decide; case_decide; try done.
      - by rewrite Hopen.
      - destruct (negb _); simpl; by rewrite app_nil_r. }
    destruct Hstep as [Hs Hm].
    destruct (IH (Plugin.render_node h st n)) as [Hs' Hm']; [by rewrite Hs|].
    split; [by rewrite Hs', Hs|].
    rewrite Hm', Hm, <- app_assoc, <- map_app. f_equal. f_equal.
    by rewrite filter_cons, filter_nil, (filter_cons _ n); case_decide.
Qed.

Lemma section_flushed_blocks pre hd body rest st0 :
  is_heading2 hd ->
  truthy (n_content hd) = true ->
  Forall (fun n => ~ is_heading2 n) body ->
  (rest = [] \/ exists n r, rest = n :: r /\ is_heading2 n) ->
  filter is_blockquote body <> [] ->
  exists before after,
    Plugin.render_finish (fold_left (Plugin.render_node h) (pre ++ hd :: body ++ rest) st0) =
    before ++ (heading (n_content hd) :: map (Plugin.node_message h) (filter is_blockquote body))
           ++ after.
Proof.
  intros Hhd Ht Hbody Hrest Hmsgs.
  rewrite fold_left_app. simpl fold_left. rewrite fold_left_app.
  set (st1 := fold_left _ pre st0).
  set (st2 := Plugin.render_node h st1 hd).
  assert (Hst2 : Plugin.currentSection st2 = n_content hd /\ Plugin.sectionMessages st2 = []).
  { unfold st2, Plugin.render_node. unfold is_heading2 in Hhd. by rewrite Hhd. }
  destruct Hst2 as [Hs2 Hm2].
  destruct (render_section_body body st2 Hbody) as [Hs3 Hm3]; [by rewrite Hs2|].
  set (st3 := fold_left _ body st2) in *.
  rewrite Hs2 in Hs3. rewrite Hm2 in Hm3. simpl in Hm3.
  assert (Hlen : (0 <? length (Plugin.sectionMessages st3))%nat = true).
  { rewrite Hm3. destruct (filter _ body); [done|]. reflexivity. }
  destruct Hrest as [->|(n & r & -> & Hn)].
  - simpl. unfold Plugin.render_finish. rewrite Hs3, Ht, Hlen, Hm3. simpl.
    exists (Plugin.content st3), []. by rewrite app_nil_r.
  - simpl fold_left.
    set (st4 := Plugin.render_node h st3 n).
    assert (Hc4 : Plugin.content st4 =
                  Plugin.content st3 ++ [heading (n_content hd)] ++
                  Plugin.sectionMessages st3 ++ [EmptyString]).
    { unfold st4, Plugin.render_node. unfold is_heading2 in Hn.
      rewrite Hn. simpl. by rewrite Hs3, Ht, Hlen. }
    destruct (render_nodes_grow r st4) as [e1 He1].
    destruct (render_finish_grows (fold_left (Plugin.render_node h) r st4)) as [e2 ->].
    rewrite He1, Hc4, Hm3.
    exists (Plugin.content st3), (EmptyString :: e1 ++ e2).
    rewrite <- !app_assoc. simpl. by rewrite <- ?app_assoc.
Qed.
End Renderer.

(** A string in the format of ECMA-262 is read as the format says. *)
Lemma newDate_parse h s t : JsDate.parse (tz h) s = Some t -> newDate h s = Some t.
Proof. unfold newDate. by intros ->. Qed.

Lemma parse_local_example z :
  JsDate.parse z "2025-02-09T10:00:00" = Some (1739095200000 - z * JsDate.msPerMinute).
Proof. reflexivity. Qed.

(** A local time renders the same in every zone. *)
Lemma toLocaleString_short_local z sep c :
  JsDate.toLocaleString_short z sep (Some (c - z * JsDate.msPerMinute)) =
  JsDate.toLocaleString_short 0 sep (Some c).
Proof.
  unfold JsDate.toLocaleString_short, JsDate.local.
  replace (c - z * JsDate.msPerMinute + z * JsDate.msPerMinute) with c by lia.
  replace (c + 0 * JsDate.msPerMinute) with c by lia. reflexivity.
Qed.

(** C5, as amended: on every host, [formatLifelogMarkdown] renders the
    literal example to the heading [## Meeting], two empty lines, and the
    line [- Alice (02/09/25, 10:00 AM): Hello]: the en-US pattern puts a
    comma and a space between the date and the time (the separator before
    AM is the host's). *)
Theorem formatLifelogMarkdown_meeting :
  (forall h : Host,
     Plugin.formatLifelogMarkdown h meeting_lifelog =
     "## Meeting" +:+ nl +:+ nl +:+ nl +:+
     "- Alice (02/09/25, 10:00" +:+ dayPeriodSep h +:+ "AM): Hello") /\
  lines (Plugin.formatLifelogMarkdown Demo.host meeting_lifelog) =
  ["## Meeting"; EmptyString; EmptyString; "- Alice (02/09/25, 10:00 AM): Hello"]%string.
Proof.
  split; [|reflexivity].
  intros h.
  unfold Plugin.formatLifelogMarkdown, Plugin.lifelog_blocks, meeting_lifelog, lifelog_of.
  cbn [l_markdown present l_title l_contents fold_left].
  unfold Plugin.render_node at 1 2. cbn -[Plugin.node_message].
  unfold Plugin.node_message, Plugin.node_timestamp, node_quote.
  cbn [n_startTime n_speakerName n_content].
  rewrite (newDate_parse h _ _ (parse_local_example (tz h))), toLocaleString_short_local.
  cbn -[String.append]. by rewrite !append_assoc.
Qed.

(** C5 as stated fails: the line without the comma is no line of the
    document, and not even a part of one. *)
Lemma formatLifelogMarkdown_meeting_no_such_line :
  existsb (String.eqb "- Alice (02/09/25 10:00 AM): Hello")
    (lines (Plugin.formatLifelogMarkdown Demo.host meeting_lifelog)) = false /\
  includes "- Alice (02/09/25 10:00 AM): Hello"
    (Plugin.formatLifelogMarkdown Demo.host meeting_lifelog) = false.
Proof. split; reflexivity. Qed.

(** C8, as amended: a section opened by a heading2 node with a non-empty
    title, closed by the next heading2 node or by the end of the nodes,
    and holding at least one blockquote line, is flushed as the block
    [## title] followed by its buffered lines, both in the array of blocks
    and in the rendered text; a section whose buffer is empty when it is
    closed adds nothing to the output. *)
Theorem formatLifelogMarkdown_section_flushed
    (h : Host) (title : option string) (pre body rest : list ContentNode) (hd : ContentNode) :
  is_heading2 hd ->
  truthy (n_content hd) = true ->
  Forall (fun n => ~ is_heading2 n) body ->
  (rest = [] \/ exists n r, rest = n :: r /\ is_heading2 n) ->
  filter is_blockquote body <> [] ->
  let lifelog :=
    {| l_markdown := None; l_title := title;
       l_contents := Some (pre ++ hd :: body ++ rest) |} in
  let section :=
    heading (n_content hd) :: map (Plugin.node_message h) (filter is_blockquote body) in
  (exists before after, Plugin.lifelog_blocks h lifelog = before ++ section ++ after) /\
  includes (join (nl +:+ nl) section) (Plugin.formatLifelogMarkdown h lifelog) = true /\
  (forall st nxt, is_heading2 nxt -> Plugin.sectionMessages st = [] ->
     Plugin.content (Plugin.render_node h st nxt) = Plugin.content st /\
     Plugin.render_finish st = Plugin.content st).
Proof.
  intros Hhd Ht Hbody Hrest Hmsgs lifelog section.
  assert (Hblocks : exists before after,
             Plugin.lifelog_blocks h lifelog = before ++ section ++ after).
  { unfold Plugin.lifelog_blocks, lifelog. cbn [l_title l_contents].
    by apply section_flushed_blocks. }
  split; [exact Hblocks|]. split.
  - destruct Hblocks as (before & after & Hb).
    unfold Plugin.formatLifelogMarkdown, lifelog at 1. cbn [l_markdown present].
    rewrite Hb. by apply join_includes.
  - intros st nxt Hnxt Hempty. unfold is_heading2 in Hnxt.
    unfold Plugin.render_node, Plugin.render_finish.
    rewrite Hnxt, Hempty. cbn. by rewrite andb_false_r.
Qed.

Lemma formatLifelogMarkdown_section_flushed_witness :
  exists before after,
    Plugin.lifelog_blocks Demo.host intro_lifelog =
    before ++ (heading "Meeting" ::
               map (Plugin.node_message Demo.host)
                 (filter is_blockquote [node_quote (Some "Alice"%string) None "Hello"]))
           ++ after.
Proof.
  refine (proj1 (formatLifelogMarkdown_section_flushed Demo.host None
                   [node_h2 "Intro"] [node_quote (Some "Alice"%string) None "Hello"] []
                   (node_h2 "Meeting") _ _ _ _ _)).
  - reflexivity.
  - reflexivity.
  - repeat constructor. unfold is_heading2. simpl. discriminate.
  - by left.
  - vm_compute. discriminate.
Defined.

(** C8 as stated fails: the section [Intro] is opened by a heading2 node
    and its heading is nowhere in the output. *)
Lemma formatLifelogMarkdown_section_dropped :
  includes "## Intro" (Plugin.formatLifelogMarkdown Demo.host intro_lifelog) = false /\
  Plugin.formatLifelogMarkdown Demo.host intro_lifelog =
  "## Meeting" +:+ nl +:+ nl +:+ nl +:+ "- Alice : Hello".
Proof. split; reflexivity. Qed.

(** ** Chat file paths *)

Lemma lacks_append c (a b : string) : lacks c (a +:+ b) = lacks c a && lacks c b.
Proof.
  induction a as [|x a IH]; [reflexivity|].
  rewrite append_cons. simpl. by rewrite IH, andb_assoc.
Qed.

Lemma before_append c (a r : string) :
  lacks c a = true -> before c (a +:+ String c r) = a.
Proof.
  induction a as [|x a IH]; intros Ha.
  - rewrite append_nil. simpl. by rewrite Ascii.eqb_refl.
  - rewrite append_cons. simpl in *.
    apply andb_true_iff in Ha as [Hx Ha].
    apply negb_true_iff in Hx. by rewrite Hx, IH.
Qed.

Lemma lacks_uint (d : Decimal.uint) : lacks "T" (NilEmpty.string_of_uint d) = true.
Proof. induction d; simpl; auto. Qed.

Lemma lacks_of_Z z : lacks "T" (of_Z z) = true.
Proof.
  unfold of_Z, NilZero.string_of_int.
  destruct (Z.to_int z) as [d|d]; [|simpl]; unfold NilZero.string_of_uint;
    destruct d; try reflexivity; apply lacks_uint.
Qed.

Lemma lacks_repeat n : lacks "T" (repeat_char "0" n) = true.
Proof. induction n; simpl; auto. Qed.

Lemma lacks_pad n z : lacks "T" (JsDate.pad n z) = true.
Proof.
  unfold JsDate.pad, padStart0. by rewrite lacks_append, lacks_repeat, lacks_of_Z.
Qed.

Lemma lacks_iso_year y : lacks "T" (JsDate.iso_year y) = true.
Proof.
  unfold JsDate.iso_year.
  repeat case_match; rewrite ?lacks_append, ?lacks_pad; reflexivity.
Qed.

Lemma isoDate_valid t : JsDate.isoDate (Some t) = Some (iso_day t).
Proof.
  unfold JsDate.isoDate, JsDate.toISOString. f_equal.
  set (rest := (JsDate.pad 2 (JsDate.hour_of t) +:+ _)%string).
  transitivity (before "T" (iso_day t +:+ String "T" rest)).
  - f_equal. unfold iso_day. by rewrite !append_assoc.
  - apply before_append. unfold iso_day.
    by rewrite !lacks_append, lacks_iso_year, !lacks_pad.
Qed.




(** ** The request engine *)

Section Engine.
Variable h : Host.
Variable key : string.

(** A turn answered by a JSON body returns it. *)
Lemma makeRequest_loop_ok fuel url params retries w json :
  hd unreachable (net w) = Response (Some json) ->
  LimitlessAPI.makeRequest_loop h key (S fuel) url params retries w =
  (Ok json, sent (request_of key url params) w).
Proof.
  intros Hr. cbn [LimitlessAPI.makeRequest_loop].
  unfold try_catch, bind, requestUrl. by rewrite Hr.
Qed.

(** A rate-limited turn with retries left waits and takes another turn. *)
Lemma makeRequest_loop_retry fuel url params retries w ra :
  hd unreachable (net w) = rate_limited ra ->
  retries < LimitlessAPI.maxRetries ->
  LimitlessAPI.makeRequest_loop h key (S fuel) url params retries w =
  LimitlessAPI.makeRequest_loop h key fuel url params (retries + 1)
    (waited (LimitlessAPI.computeDelay (newDate h) (clock w) retries ra)
       (sent (request_of key url params) w)).
Proof.
  intros Hr Hlt. cbn [LimitlessAPI.makeRequest_loop].
  unfold try_catch at 1. unfold bind at 1. unfold requestUrl at 1. rewrite Hr.
  unfold rate_limited, status_is. cbn [e_status e_retryAfter].
  rewrite Z.eqb_refl. apply Z.ltb_lt in Hlt. rewrite Hlt. reflexivity.
Qed.

(** Any other failing turn logs the error and throws it. *)
Lemma makeRequest_loop_throw fuel url params retries w e :
  reply_error (hd unreachable (net w)) = Some e ->
  e_status e <> Some 429 \/ LimitlessAPI.maxRetries <= retries ->
  LimitlessAPI.makeRequest_loop h key (S fuel) url params retries w =
  (Throw e, logged "Error making request:" e (sent (request_of key url params) w)).
Proof.
  intros Hr Hstop. cbn [LimitlessAPI.makeRequest_loop].
  assert (Hcond : status_is e 429 && (retries <? LimitlessAPI.maxRetries) = false).
  { destruct Hstop as [Hne|Hge].
    - unfold status_is. destruct (e_status e) as [s|]; [|done].
      destruct (Z.eqb_spec s 429) as [->|]; [congruence|done].
    - apply Z.ltb_ge in Hge. rewrite Hge. apply andb_false_r. }
  unfold try_catch at 1. unfold bind at 1. unfold requestUrl at 1.
  destruct (hd unreachable (net w)) as [[json|]|st ra]; simpl in Hr; simplify_eq.
  - unfold throw at 1. rewrite Hcond. reflexivity.
  - rewrite Hcond. reflexivity.
Qed.
End Engine.




Lemma vault_kept_refl w : vault_kept w w.
Proof. by repeat split. Qed.

Lemma vault_kept_trans w1 w2 w3 : vault_kept w1 w2 -> vault_kept w2 w3 -> vault_kept w1 w3.
Proof. unfold vault_kept. intros (-> & -> & ->) (-> & -> & ->). done. Qed.

Lemma reply_at_next d rq w i :
  reply_at (waited d (sent rq w)) i = reply_at w (S i).
Proof.
  unfold reply_at. cbn [net waited slept noticed sent].
  destruct (net w); [by destruct i|reflexivity].
Qed.

Lemma reply_at_0 w : reply_at w 0 = hd unreachable (net w).
Proof. unfold reply_at. by destruct (net w). Qed.

(** What every run of the loop of [makeRequest] does to the world. *)
Lemma makeRequest_loop_world h key fuel url params retries w :
  let r := LimitlessAPI.makeRequest_loop h key fuel url params retries w in
  vault_kept w (snd r) /\
  (exists n, requests (snd r) = requests w ++ repeat (request_of key url params) n /\
             net (snd r) = drop n (net w) /\
             (0 < fuel -> 0 < n)%nat /\
             (forall json, fst r = Ok json -> (n <= length (net w))%nat)) /\
  (retries <= LimitlessAPI.maxRetries ->
   LimitlessAPI.maxRetries - retries < Z.of_nat fuel -> fst r <> Diverge).
Proof.
  revert retries w. induction fuel as [|fuel IH]; intros retries w r.
  { subst r. simpl. split; [apply vault_kept_refl|]. split; [|lia].
    exists 0%nat. rewrite app_nil_r. repeat split; try done; lia. }
  destruct (reply_error (hd unreachable (net w))) as [e|] eqn:He.
  - destruct (status_is e 429 && (retries <? LimitlessAPI.maxRetries)) eqn:Hc.
    + apply andb_true_iff in Hc as [Hs Hlt]. apply Z.ltb_lt in Hlt.
      assert (Hr : hd unreachable (net w) = rate_limited (e_retryAfter e)).
      { unfold status_is in Hs.
        destruct (hd unreachable (net w)) as [[?|]|st ra]; simpl in He; simplify_eq;
          try done.
        simpl in *. destruct st as [s|]; [|done]. apply Z.eqb_eq in Hs. by subst. }
      subst r. rewrite (makeRequest_loop_retry h key fuel url params retries w _ Hr Hlt).
      set (w1 := waited _ _).
      destruct (IH (retries + 1) w1) as ((Hf & Hw & Hx) & (n & Hrq & Hnet & Hpos & Hok) & Hdiv).
      split; [by repeat split|]. split; [|intros ? ?; apply Hdiv; lia].
      exists (S n). rewrite Hrq, Hnet. cbn [requests net w1 waited slept noticed sent].
      rewrite <- app_assoc. split; [done|]. split; [by destruct (net w)|].
      split; [lia|]. intros json Hj. specialize (Hok json Hj).
      cbn [net w1 waited slept noticed sent] in Hok. destruct (net w); simpl in *; [|lia].
      destruct n; [|lia]. destruct fuel; [done|]. lia.
    + subst r. rewrite (makeRequest_loop_throw h key fuel url params retries w e He).
      2:{ apply andb_false_iff in Hc as [Hs|Hge]; [left|right; by apply Z.ltb_ge].
          unfold status_is in Hs. destruct (e_status e) as [s|]; [|done].
          intros [= ->]. done. }
      split; [by repeat split|]. split; [|done].
      exists 1%nat. cbn. repeat split; try done; try lia; by destruct (net w).
  - destruct (hd unreachable (net w)) as [[json|]|st ra] eqn:Hr; simpl in He; try done.
    subst r. rewrite (makeRequest_loop_ok h key fuel url params retries w json Hr).
    split; [by repeat split|]. split; [|done].
    exists 1%nat. cbn. repeat split; try done; try lia; try by destruct (net w).
    intros _ _. destruct (net w); [done|simpl; lia].
Qed.

Lemma makeRequest_world h key url params w :
  let r := LimitlessAPI.makeRequest h key url params w in
  vault_kept w (snd r) /\
  (exists n, requests (snd r) = requests w ++ repeat (request_of key url params) n /\
             net (snd r) = drop n (net w) /\ (0 < n)%nat /\
             (forall json, fst r = Ok json -> (n <= length (net w))%nat)) /\
  fst r <> Diverge.
Proof.
  intros r.
  destruct (makeRequest_loop_world h key (S (Z.to_nat LimitlessAPI.maxRetries)) url params 0 w)
    as (Hv & (n & Hrq & Hnet & Hpos & Hok) & Hdiv).
  split; [exact Hv|]. split.
  - exists n. repeat split; try done. apply Hpos. lia.
  - apply Hdiv; unfold LimitlessAPI.maxRetries; simpl; lia.
Qed.

(** After [k] rate-limited replies, a failure that is not one is thrown
    in the turn in which it arrives. *)
Lemma makeRequest_loop_first_failure h key url params k :
  forall fuel retries w e,
    (forall i, (i < k)%nat -> exists ra, reply_at w i = rate_limited ra) ->
    reply_error (reply_at w k) = Some e ->
    e_status e <> Some 429 ->
    retries + Z.of_nat k <= LimitlessAPI.maxRetries ->
    (k < fuel)%nat ->
    exists w' ds,
      LimitlessAPI.makeRequest_loop h key fuel url params retries w = (Throw e, w') /\
      net w' = drop (S k) (net w) /\
      requests w' = requests w ++ repeat (request_of key url params) (S k) /\
      sleeps w' = sleeps w ++ ds /\ length ds = k /\
      (k = 0%nat -> clock w' = clock w).
Proof.
  induction k as [|k IH]; intros fuel retries w e Hpre He Hne Hle Hfuel.
  - destruct fuel as [|fuel]; [lia|].
    rewrite reply_at_0 in He.
    rewrite (makeRequest_loop_throw h key fuel url params retries w e He (or_introl Hne)).
    eexists _, []. split; [reflexivity|]. cbn. rewrite app_nil_r.
    repeat split; try done; by destruct (net w).
  - destruct fuel as [|fuel]; [lia|].
    destruct (Hpre 0%nat) as [ra Hra]; [lia|]. rewrite reply_at_0 in Hra.
    rewrite (makeRequest_loop_retry h key fuel url params retries w ra Hra)
      by (unfold LimitlessAPI.maxRetries in *; lia).
    set (w1 := waited _ _).
    destruct (IH fuel (retries + 1) w1 e) as (w' & ds & Hrun & Hnet & Hrq & Hsl & Hlen & _).
    + intros i Hi. unfold w1. rewrite reply_at_next. apply Hpre. lia.
    + unfold w1. by rewrite reply_at_next.
    + done.
    + lia.
    + lia.
    + exists w', (LimitlessAPI.computeDelay (newDate h) (clock w) retries ra :: ds).
      split; [exact Hrun|]. rewrite Hnet, Hrq, Hsl. cbn [net requests sleeps w1 waited slept noticed sent].
      rewrite <- !app_assoc.
      repeat split; try done; try (by destruct (net w)); simpl; by rewrite Hlen.
Qed.


(** C9: when a request fails and the failure is not a 429 (a network
    error, another HTTP status, or a response without a JSON body),
    [makeRequest] throws that error in the very turn: after [k] rate-limited
    replies it has sent [k + 1] requests and waited [k] times, so the
    failing attempt adds neither a wait nor a further attempt. *)
Theorem makeRequest_no_retry
    (h : Host) (key url : string) (params : list (string * string)) (w : World)
    (k : nat) (e : Err) :
  (k <= 5)%nat ->
  (forall i, (i < k)%nat -> exists ra, reply_at w i = rate_limited ra) ->
  reply_error (reply_at w k) = Some e ->
  e_status e <> Some 429 ->
  exists w' ds,
    LimitlessAPI.makeRequest h key url params w = (Throw e, w') /\
    net w' = drop (S k) (net w) /\
    requests w' = requests w ++ repeat (request_of key url params) (S k) /\
    sleeps w' = sleeps w ++ ds /\ length ds = k /\
    (k = 0%nat -> clock w' = clock w).
Proof.
  intros Hk Hpre He Hne.
  apply makeRequest_loop_first_failure; try done.
  - unfold LimitlessAPI.maxRetries. lia.
  - unfold LimitlessAPI.maxRetries. simpl. lia.
Qed.

Lemma makeRequest_no_retry_witness :
  exists w' ds,
    LimitlessAPI.makeRequest Demo.host "key" "https://api.limitless.ai/v1/chats" []
      (Demo.world 0 [Failure (Some 500) None; Demo.page_chats [] None]) =
      (Throw {| e_status := Some 500; e_retryAfter := None; e_message := "Request failed" |}, w') /\
    net w' = drop 1 [Failure (Some 500) None; Demo.page_chats [] None] /\
    requests w' = [] ++ repeat (request_of "key" "https://api.limitless.ai/v1/chats" []) 1 /\
    sleeps w' = [] ++ ds /\ length ds = 0%nat /\
    (0%nat = 0%nat -> clock w' = 0).
Proof.
  apply (makeRequest_no_retry Demo.host "key" "https://api.limitless.ai/v1/chats" []
           (Demo.world 0 [Failure (Some 500) None; Demo.page_chats [] None]) 0
           {| e_status := Some 500; e_retryAfter := None; e_message := "Request failed" |}).
  - lia.
  - intros i Hi. lia.
  - reflexivity.
  - discriminate.
Defined.

(** ** Processing one chat *)

Section Chats.
Variable h : Host.
Variable settings : LimitlessLifelogsSettings.

Lemma differs_false (o : option string) (c : string) : Plugin.differs o c = false <-> o = Some c.
Proof.
  destruct o as [s|]; simpl; [|done].
  rewrite negb_false_iff, String.eqb_eq. split; congruence.
Qed.

(** The four ways [processChatFile] ends, none of them a throw. *)
Lemma processChatFile_cases chat folder w :
  Plugin.processChatFile h settings chat folder w =
  match Plugin.getChatFilePath h settings chat folder with
  | None =>
      (Ok tt, logged "Error processing chat file:" (Error "RangeError: Invalid time value") w)
  | Some p =>
      let content := Plugin.formatChatMarkdown h chat in
      if Plugin.differs (files w !! p) content then
        if decide (p ∈ faulty w)
        then (Ok tt, logged "Error processing chat file:" (Error "EACCES") (rejected p content w))
        else (Ok tt, written p content w)
      else (Ok tt, w)
  end.
Proof.
  unfold Plugin.processChatFile, try_catch at 1, bind at 1.
  destruct (Plugin.getChatFilePath h settings chat folder) as [p|]; [|reflexivity].
  unfold ret at 1, bind at 1, Plugin.getExistingFileContent, try_catch, bind, adapter_read.
  destruct (files w !! p) as [c|] eqn:Hp; cbn [ret Plugin.differs].
  - destruct (negb (String.eqb c _)); [|reflexivity].
    unfold adapter_write. by destruct (decide (p ∈ faulty w)).
  - unfold adapter_write. by destruct (decide (p ∈ faulty w)).
Qed.

Lemma processChatFile_returns chat folder w :
  exists w', Plugin.processChatFile h settings chat folder w = (Ok tt, w') /\ service_kept w w'.
Proof.
  rewrite processChatFile_cases.
  destruct (Plugin.getChatFilePath h settings chat folder) as [p|]; cbv zeta;
    [destruct (Plugin.differs _ _); [destruct (decide _)|]|];
    eexists; (split; [reflexivity | by repeat split]).
Qed.

Lemma for_of_chats_returns folder chats n w :
  exists w', for_of chats (Plugin.count_chat h settings folder) n w = (Ok (n + Z.of_nat (length chats)), w') /\
             service_kept w w'.
Proof.
  revert n w. induction chats as [|chat chats IH]; intros n w.
  - exists w. simpl. rewrite Z.add_0_r. by repeat split.
  - cbn [for_of]. unfold bind at 1. unfold Plugin.count_chat at 1. unfold bind at 1.
    destruct (processChatFile_returns chat folder w) as (w1 & -> & Hk1).
    cbn [ret]. destruct (IH (n + 1) w1) as (w2 & -> & Hk2).
    exists w2. split; [f_equal; f_equal; rewrite length_cons; lia|].
    unfold service_kept in *. intuition congruence.
Qed.
End Chats.


(** ** The walk over the pages of chats *)

(** The three kinds of turn of the loop of [makeRequest]. *)
Lemma turn_cases (w : World) (retries : Z) :
  (exists json, hd unreachable (net w) = Response (Some json)) \/
  (exists ra, hd unreachable (net w) = rate_limited ra /\ retries < LimitlessAPI.maxRetries) \/
  (exists e, reply_error (hd unreachable (net w)) = Some e /\
             (e_status e <> Some 429 \/ LimitlessAPI.maxRetries <= retries)).
Proof.
  destruct (hd unreachable (net w)) as [[json|]|st ra]; [eauto| |].
  - right; right. eexists; split; [reflexivity|]. by left.
  - destruct (decide (st = Some 429)) as [->|Hne].
    + destruct (Z.lt_ge_cases retries LimitlessAPI.maxRetries).
      * right; left. by exists ra.
      * right; right. eexists; split; [reflexivity|]. by right.
    + right; right. eexists; split; [reflexivity|]. by left.
Qed.

Section ChatSync.
Variable h : Host.
Variable settings : LimitlessLifelogsSettings.

(** The result of [makeRequest] and the replies it leaves are decided by
    the replies it finds. *)
Lemma makeRequest_loop_script key fuel url params retries w v :
  net w = net v ->
  fst (LimitlessAPI.makeRequest_loop h key fuel url params retries w) =
  fst (LimitlessAPI.makeRequest_loop h key fuel url params retries v) /\
  net (snd (LimitlessAPI.makeRequest_loop h key fuel url params retries w)) =
  net (snd (LimitlessAPI.makeRequest_loop h key fuel url params retries v)).
Proof.
  revert retries w v. induction fuel as [|fuel IH]; intros retries w v Hnet; [done|].
  destruct (turn_cases w retries) as [(json & Hr)|[(ra & Hr & Hlt)|(e & He & Hstop)]].
  - rewrite (makeRequest_loop_ok h key fuel url params retries w json Hr).
    rewrite Hnet in Hr.
    rewrite (makeRequest_loop_ok h key fuel url params retries v json Hr).
    cbn. by rewrite Hnet.
  - rewrite (makeRequest_loop_retry h key fuel url params retries w ra Hr Hlt).
    rewrite Hnet in Hr.
    rewrite (makeRequest_loop_retry h key fuel url params retries v ra Hr Hlt).
    apply IH. cbn. by rewrite Hnet.
  - rewrite (makeRequest_loop_throw h key fuel url params retries w e He Hstop).
    rewrite Hnet in He.
    rewrite (makeRequest_loop_throw h key fuel url params retries v e He Hstop).
    cbn. by rewrite Hnet.
Qed.

Lemma getChats_script key params w v :
  net w = net v ->
  fst (LimitlessAPI.getChats h key params w) = fst (LimitlessAPI.getChats h key params v) /\
  net (snd (LimitlessAPI.getChats h key params w)) =
  net (snd (LimitlessAPI.getChats h key params v)).
Proof.
  intros Hnet. unfold LimitlessAPI.getChats, try_catch, bind, LimitlessAPI.makeRequest.
  destruct (makeRequest_loop_script key (S (Z.to_nat LimitlessAPI.maxRetries))
              (LimitlessAPI.baseUrl +:+ "/v1/chats") (LimitlessAPI.chat_query params) 0 w v Hnet)
    as [Hres Hn].
  destruct (LimitlessAPI.makeRequest_loop h key _ _ _ 0 w) as [[j|e|] w1];
    destruct (LimitlessAPI.makeRequest_loop h key _ _ _ 0 v) as [[j'|e'|] v1];
    simpl in *; simplify_eq; try done.
  repeat case_match; simpl; done.
Qed.

(** [getChats] leaves the vault alone, never diverges, and uses up at
    least one reply when it returns. *)
Lemma getChats_world key params w :
  let r := LimitlessAPI.getChats h key params w in
  vault_kept w (snd r) /\ fst r <> Diverge /\
  (length (net (snd r)) <= length (net w))%nat /\
  (forall x, fst r = Ok x -> (length (net (snd r)) < length (net w))%nat).
Proof.
  intros r. subst r. unfold LimitlessAPI.getChats, try_catch, bind.
  destruct (makeRequest_world h key (LimitlessAPI.baseUrl +:+ "/v1/chats")
              (LimitlessAPI.chat_query params) w)
    as (Hv & (n & _ & Hnet & Hpos & Hok) & Hdiv).
  assert (Hlen : (length (net (snd (LimitlessAPI.makeRequest h key
                    (LimitlessAPI.baseUrl +:+ "/v1/chats") (LimitlessAPI.chat_query params) w)))
                  <= length (net w))%nat) by (rewrite Hnet, length_drop; lia).
  assert (Hlt : forall j, fst (LimitlessAPI.makeRequest h key
                    (LimitlessAPI.baseUrl +:+ "/v1/chats") (LimitlessAPI.chat_query params) w) = Ok j ->
                  (length (net (snd (LimitlessAPI.makeRequest h key
                    (LimitlessAPI.baseUrl +:+ "/v1/chats") (LimitlessAPI.chat_query params) w)))
                  < length (net w))%nat).
  { intros j Hj. specialize (Hok j Hj). rewrite Hnet, length_drop. lia. }
  clear Hnet Hok.
  destruct (LimitlessAPI.makeRequest h key _ _ w) as [[j|e|] w1]; cbn [fst snd] in *.
  - unfold ret. cbn [fst snd]. repeat split; try done; try apply Hv. intros _ _. by eapply Hlt.
  - destruct (status_is e 404); [|destruct (status_is e 401)];
      unfold throw; cbn [fst snd]; repeat split; try done; apply Hv.
  - by destruct Hdiv.
Qed.
End ChatSync.

Section Plan.
Variable h : Host.
Variable settings : LimitlessLifelogsSettings.

Lemma vault_kept_sym w v : vault_kept w v -> vault_kept v w.
Proof. unfold vault_kept. intuition congruence. Qed.

Lemma chat_plan_script fuel cursor n w v :
  net w = net v -> chat_plan h settings fuel cursor n w = chat_plan h settings fuel cursor n v.
Proof.
  revert cursor n w v. induction fuel as [|fuel IH]; intros cursor n w v Hnet; [done|].
  cbn [chat_plan].
  destruct (getChats_script h (apiKey settings) (Plugin.page_params h settings cursor) w v Hnet)
    as [Hr Hn].
  destruct (LimitlessAPI.getChats h _ _ w) as [[[cs next]|e|] w1];
    destruct (LimitlessAPI.getChats h _ _ v) as [[[cs' next']|e'|] v1];
    simpl in *; simplify_eq; try done.
  f_equal. case_match; [by apply IH|done].
Qed.

Lemma for_of_cons folder c cs n w :
  for_of (c :: cs) (Plugin.count_chat h settings folder) n w =
  for_of cs (Plugin.count_chat h settings folder) (n + 1)
    (snd (Plugin.processChatFile h settings c folder w)).
Proof.
  cbn [for_of]. unfold bind at 1. unfold Plugin.count_chat at 1. unfold bind at 1.
  by destruct (processChatFile_returns h settings c folder w) as (w1 & -> & _).
Qed.

Lemma for_of_app folder a b n w :
  for_of (a ++ b) (Plugin.count_chat h settings folder) n w =
  for_of b (Plugin.count_chat h settings folder) (n + Z.of_nat (length a))
    (snd (for_of a (Plugin.count_chat h settings folder) n w)).
Proof.
  revert n w. induction a as [|c a IH]; intros n w.
  - simpl. by rewrite Z.add_0_r.
  - rewrite <- app_comm_cons, !for_of_cons, IH. f_equal. rewrite length_cons. lia.
Qed.

(** Processing depends on the vault only. *)
Lemma processChatFile_vault chat folder w v :
  vault_kept w v ->
  vault_kept (snd (Plugin.processChatFile h settings chat folder w))
             (snd (Plugin.processChatFile h settings chat folder v)).
Proof.
  intros (Hf & Hw & Hx). rewrite !processChatFile_cases.
  destruct (Plugin.getChatFilePath h settings chat folder) as [p|]; cbv zeta.
  - rewrite Hf, Hx. destruct (Plugin.differs _ _); [destruct (decide _)|];
      unfold vault_kept; cbn; rewrite ?Hf, ?Hw, ?Hx; done.
  - unfold vault_kept; cbn; done.
Qed.

Lemma for_of_vault folder cs n m w v :
  vault_kept w v ->
  vault_kept (snd (for_of cs (Plugin.count_chat h settings folder) n w))
             (snd (for_of cs (Plugin.count_chat h settings folder) m v)).
Proof.
  revert n m w v. induction cs as [|c cs IH]; intros n m w v Hv; [done|].
  rewrite !for_of_cons. by apply IH, processChatFile_vault.
Qed.

(** One turn of the loop of [syncChats]. *)
Lemma syncChats_loop_step folder fuel cursor n w :
  Plugin.syncChats_loop h settings (S fuel) folder cursor n w =
  match LimitlessAPI.getChats h (apiKey settings) (Plugin.page_params h settings cursor) w with
  | (Ok (cs, next), w1) =>
      let w2 := snd (for_of cs (Plugin.count_chat h settings folder) n w1) in
      let n' := n + Z.of_nat (length cs) in
      if present next && (n' <? Plugin.maxChats_or settings 200)
      then Plugin.syncChats_loop h settings fuel folder next n' w2
      else (Ok n', w2)
  | (Throw e, w1) => (Throw e, w1)
  | (Diverge, w1) => (Diverge, w1)
  end.
Proof.
  cbn [Plugin.syncChats_loop]. unfold bind at 1.
  destruct (LimitlessAPI.getChats h _ _ w) as [[[cs next]|e|] w1]; try reflexivity.
  unfold bind at 1. cbn [fst snd].
  destruct (for_of_chats_returns h settings folder cs n w1) as (w2 & -> & _).
  cbn [snd]. by destruct (present next && _).
Qed.

(** The loop of [syncChats] does to the vault what processing its plan
    does, counts the chats of its plan, and ends. *)
Lemma syncChats_loop_plan folder fuel cursor n w :
  let r := Plugin.syncChats_loop h settings fuel folder cursor n w in
  let plan := chat_plan h settings fuel cursor n w in
  vault_kept (snd (for_of plan (Plugin.count_chat h settings folder) n w)) (snd r) /\
  (forall m, fst r = Ok m -> m = n + Z.of_nat (length plan)) /\
  ((length (net w) < fuel)%nat -> fst r <> Diverge).
Proof.
  revert cursor n w. induction fuel as [|fuel IH]; intros cursor n w r plan.
  { subst r plan. simpl. split; [apply vault_kept_refl|]. split; [done|lia]. }
  subst r plan. rewrite syncChats_loop_step. cbn [chat_plan].
  destruct (getChats_world h (apiKey settings) (Plugin.page_params h settings cursor) w)
    as (Hv & Hdiv & Hle & Hlt).
  destruct (LimitlessAPI.getChats h _ _ w) as [[[cs next]|e|] w1]; cbn [fst snd] in *.
  - destruct (for_of_chats_returns h settings folder cs n w1) as (w2 & Hfor & Hk).
    rewrite Hfor. cbv zeta. cbn [snd]. rewrite for_of_app.
    assert (Hv2 : vault_kept (snd (for_of cs (Plugin.count_chat h settings folder) n w)) w2).
    { replace w2 with (snd (for_of cs (Plugin.count_chat h settings folder) n w1))
        by (by rewrite Hfor).
      by apply for_of_vault. }
    destruct Hk as (Hnet2 & _).
    specialize (Hlt _ eq_refl).
    destruct (present next && _) eqn:Hcont.
    + rewrite (chat_plan_script fuel next _ w1 w2) by done.
      destruct (IH next (n + Z.of_nat (length cs)) w2) as (Hv3 & Hcount & Hend).
      split; [|split].
      * eapply vault_kept_trans; [|exact Hv3]. by apply for_of_vault.
      * intros m Hm. rewrite (Hcount m Hm), length_app. lia.
      * intros Hfuel. apply Hend. rewrite Hnet2. lia.
    + cbn [for_of ret fst snd]. rewrite app_nil_r.
      split; [done|]. split; [|done]. by intros m [= <-].
  - cbn [for_of ret fst snd]. split; [done|]. split; done.
  - done.
Qed.
End Plan.

Section Sync.
Variable h : Host.
Variable settings : LimitlessLifelogsSettings.

Lemma ensureFolderExists_world path w :
  exists w', ensureFolderExists path w = (Ok tt, w') /\ vault_kept w w' /\ net w' = net w /\
             requests w' = requests w /\ clock w' = clock w.
Proof.
  unfold ensureFolderExists. destruct (decide _); eexists; (split; [reflexivity|]);
    by repeat split.
Qed.

(** In front of finitely many replies [syncChats] returns, and does to the
    vault what processing the plan of its replies does. *)
Lemma syncChats_plan w :
  exists w',
    Plugin.syncChats h settings w = (Ok tt, w') /\
    vault_kept
      (snd (for_of (sync_plan h settings (net w))
              (Plugin.count_chat h settings (normalizePath h (chatFolderPath settings))) 0 w))
      w'.
Proof.
  unfold Plugin.syncChats, sync_plan.
  set (folder := normalizePath h (chatFolderPath settings)).
  destruct (syncChatsEnabled settings); cbn [negb andb];
    [|eexists; split; [reflexivity|apply vault_kept_refl]].
  destruct (truthy (apiKey settings)); cbn [negb];
    [|eexists; split; [reflexivity|by repeat split]].
  unfold try_catch. unfold bind at 1.
  destruct (ensureFolderExists_world folder w) as (wa & -> & Hva & Hna & _).
  unfold bind at 1. unfold Notice at 1.
  set (wb := noticed _ wa).
  assert (Hvb : vault_kept w wb) by (destruct Hva as (? & ? & ?); by repeat split).
  assert (Hnb : net wb = net w) by done.
  unfold bind at 1.
  destruct (syncChats_loop_plan h settings folder (S (length (net wb))) None 0 wb)
    as (Hv & _ & Hend).
  rewrite (chat_plan_script h settings _ None 0 wb (service (net w))) in Hv by done.
  rewrite Hnb in Hv at 1.
  assert (Hv' : vault_kept
            (snd (for_of (chat_plan h settings (S (length (net w))) None 0 (service (net w)))
                    (Plugin.count_chat h settings folder) 0 w))
            (snd (Plugin.syncChats_loop h settings (S (length (net wb))) folder None 0 wb))).
  { eapply vault_kept_trans; [|exact Hv]. by apply for_of_vault. }
  clear Hv.
  destruct (Plugin.syncChats_loop h settings _ folder None 0 wb) as [[m|e|] wc];
    cbn [fst snd] in *.
  - eexists. split; [reflexivity|]. destruct Hv' as (? & ? & ?). by repeat split.
  - eexists. split; [reflexivity|]. destruct Hv' as (? & ? & ?). by repeat split.
  - exfalso. apply Hend; [lia|done].
Qed.
End Sync.

(** ** Running the chat sync twice *)

Section Twice.
Variable h : Host.
Variable settings : LimitlessLifelogsSettings.
Variable folder : string.

Local Abbreviation path := (fun c => Plugin.getChatFilePath h settings c folder).
Local Abbreviation process := (Plugin.count_chat h settings folder).

(** A chat whose write is not rejected ends up stored at its path. *)
Lemma processChatFile_files chat w :
  let w' := snd (Plugin.processChatFile h settings chat folder w) in
  faulty w' = faulty w /\
  match path chat with
  | Some p => p ∉ faulty w -> files w' = <[p := Plugin.formatChatMarkdown h chat]> (files w)
  | None => files w' = files w
  end /\
  (forall q, path chat <> Some q -> files w' !! q = files w !! q).
Proof.
  cbv zeta. rewrite processChatFile_cases.
  destruct (Plugin.getChatFilePath h settings chat folder) as [p|]; cbv zeta; [|done].
  destruct (Plugin.differs _ _) eqn:Hd; [destruct (decide _)|]; cbn [fst snd];
    (split; [done|]); split; try done.
  - intros q Hq. cbn. rewrite lookup_insert_ne; [done|congruence].
  - intros _. apply differs_false in Hd. by rewrite insert_id.
Qed.

Lemma for_of_files_other cs n w q :
  q ∉ omap path cs -> files (snd (for_of cs process n w)) !! q = files w !! q.
Proof.
  revert n w. induction cs as [|c cs IH]; intros n w Hq; [done|].
  rewrite for_of_cons.
  destruct (processChatFile_files c w) as (_ & _ & Hother).
  cbn [omap list_omap] in Hq.
  destruct (Plugin.getChatFilePath h settings c folder) as [p|] eqn:Hp.
  - apply not_elem_of_cons in Hq as [Hne Hq]. rewrite IH by done. apply Hother. congruence.
  - rewrite IH by done. by apply Hother.
Qed.

Lemma for_of_faulty cs n w : faulty (snd (for_of cs process n w)) = faulty w.
Proof.
  destruct (for_of_chats_returns h settings folder cs n w) as (w' & -> & Hk).
  apply Hk.
Qed.

(** After a run in which no two chats share a path and no write is
    rejected, every chat of the run is stored at its path. *)
Lemma for_of_settles cs n w :
  NoDup (omap path cs) ->
  (forall q, q ∈ omap path cs -> q ∉ faulty w) ->
  forall c p, c ∈ cs -> path c = Some p ->
    files (snd (for_of cs process n w)) !! p = Some (Plugin.formatChatMarkdown h c).
Proof.
  revert n w. induction cs as [|c0 cs IH]; intros n w Hnd Hok c p Hc Hp.
  { by apply elem_of_nil in Hc. }
  rewrite for_of_cons.
  destruct (processChatFile_files c0 w) as (Hfaulty & Hhere & _).
  cbn [omap list_omap] in Hnd, Hok.
  apply elem_of_cons in Hc as [->|Hc].
  - cbn beta in Hp. rewrite Hp in Hnd, Hok, Hhere.
    apply NoDup_cons in Hnd as [Hnew _].
    rewrite for_of_files_other by done.
    rewrite Hhere by (apply Hok; left). apply lookup_insert_eq.
  - apply IH; try done.
    + destruct (Plugin.getChatFilePath h settings c0 folder); [|done].
      by apply NoDup_cons in Hnd as [_ ?].
    + intros q Hq. rewrite Hfaulty. apply Hok.
      destruct (Plugin.getChatFilePath h settings c0 folder); [by right|done].
Qed.

(** A run over chats that are all stored at their paths writes nothing. *)
Lemma for_of_stored cs n w :
  (forall c p, c ∈ cs -> path c = Some p ->
     files w !! p = Some (Plugin.formatChatMarkdown h c)) ->
  files (snd (for_of cs process n w)) = files w /\
  writes (snd (for_of cs process n w)) = writes w.
Proof.
  revert n w. induction cs as [|c0 cs IH]; intros n w Hst; [done|].
  rewrite for_of_cons.
  assert (Hstep : files (snd (Plugin.processChatFile h settings c0 folder w)) = files w /\
                  writes (snd (Plugin.processChatFile h settings c0 folder w)) = writes w).
  { rewrite processChatFile_cases.
    destruct (Plugin.getChatFilePath h settings c0 folder) as [p|] eqn:Hp; cbv zeta; [|done].
    rewrite (Hst c0 p) by (done || left).
    by rewrite (proj2 (differs_false _ _) eq_refl). }
  destruct Hstep as [Hf Hw].
  destruct (IH (n + 1) (snd (Plugin.processChatFile h settings c0 folder w))) as [Hf' Hw'].
  { intros c p Hc Hp. rewrite Hf. apply Hst; [by right|done]. }
  by rewrite Hf', Hw', Hf, Hw.
Qed.
End Twice.

(** C10: [processChatFile] returns normally in every world, whatever
    fails inside it; the [for] of [syncChats] therefore counts every chat
    of a page; the count that [syncChats] reports is the number of chats it
    handed to [processChatFile]; and a chat whose write is rejected is
    counted although no file is written for it. *)
Theorem processChatFile_never_throws :
  (forall h settings chat folder w,
     exists w', Plugin.processChatFile h settings chat folder w = (Ok tt, w')) /\
  (forall h settings folder chats n w,
     exists w', for_of chats (Plugin.count_chat h settings folder) n w =
                (Ok (n + Z.of_nat (length chats)), w')) /\
  (forall h settings folder fuel cursor n w m,
     fst (Plugin.syncChats_loop h settings fuel folder cursor n w) = Ok m ->
     m = n + Z.of_nat (length (chat_plan h settings fuel cursor n w))) /\
  (let r := Plugin.syncChats Demo.host Demo.settings
              (locked_world ["Limitless Chats/Plan - abcd1234.md"%string]
                 [Demo.page_chats [morning_chat] None]) in
   fst r = Ok tt /\
   notices (snd r) = ["Starting chat sync..."; "Chat sync complete! Processed 1 chats."]%string /\
   files (snd r) = ∅ /\
   console (snd r) = ["Error processing chat file: EACCES"%string]).
Proof.
  split; [|split; [|split]].
  - intros h settings chat folder w.
    destruct (processChatFile_returns h settings chat folder w) as (w' & Hrun & _). eauto.
  - intros h settings folder chats n w.
    destruct (for_of_chats_returns h settings folder chats n w) as (w' & Hrun & _). eauto.
  - intros h settings folder fuel cursor n w m.
    apply (syncChats_loop_plan h settings folder fuel cursor n w).
  - vm_compute. repeat split; reflexivity.
Qed.

(** C4, as amended: [processChatFile] writes the target file exactly when
    the rendered text differs from the text stored at the target path; and
    when every chat that a sync fetches has a target path (under the daily
    layout: the host reads a date from its [createdAt]), these paths are
    pairwise distinct and none of them rejects a write, a second sync over
    the same replies performs no write and leaves every file as it is. *)
Theorem syncChats_second_run_writes_nothing
    (h : Host) (settings : LimitlessLifelogsSettings) (w : World) (replies : list Reply) :
  let plan := sync_plan h settings replies in
  Forall (fun c => is_Some (Plugin.getChatFilePath h settings c
                              (normalizePath h (chatFolderPath settings)))) plan ->
  NoDup (chat_paths h settings plan) ->
  (forall p, p ∈ chat_paths h settings plan -> p ∉ faulty w) ->
  (forall chat folder v p,
     Plugin.getChatFilePath h settings chat folder = Some p ->
     (files v !! p = Some (Plugin.formatChatMarkdown h chat) ->
      Plugin.processChatFile h settings chat folder v = (Ok tt, v)) /\
     (files v !! p <> Some (Plugin.formatChatMarkdown h chat) ->
      writes (snd (Plugin.processChatFile h settings chat folder v)) =
      writes v ++ [(p, Plugin.formatChatMarkdown h chat)])) /\
  let w1 := snd (Plugin.syncChats h settings (set_net replies w)) in
  let w2 := snd (Plugin.syncChats h settings (set_net replies w1)) in
  writes w2 = writes w1 /\ files w2 = files w1.
Proof.
  intros plan _ Hnd Hok. split.
  - intros chat folder v p Hp. rewrite processChatFile_cases, Hp. cbv zeta. split.
    + intros Hst. by rewrite (proj2 (differs_false _ _) Hst).
    + intros Hne. destruct (Plugin.differs _ _) eqn:Hd.
      * by destruct (decide _).
      * by apply differs_false in Hd.
  - cbv zeta.
    destruct (syncChats_plan h settings (set_net replies w)) as (w1 & -> & Hv1).
    cbn [snd].
    destruct (syncChats_plan h settings (set_net replies w1)) as (w2 & -> & Hv2).
    cbn [snd]. cbn [net set_net] in Hv1, Hv2. fold plan in Hv1, Hv2.
    set (folder := normalizePath h (chatFolderPath settings)) in *.
    destruct Hv1 as (Hf1 & _ & _). destruct Hv2 as (Hf2 & Hw2 & _).
    destruct (for_of_stored h settings folder plan 0 (set_net replies w1)) as [Hf Hw].
    { intros c p Hc Hp. cbn [files set_net]. rewrite Hf1.
      apply for_of_settles; try done. }
    by rewrite Hf2, Hw2, Hf, Hw.
Qed.

Lemma syncChats_second_run_writes_nothing_witness :
  let w1 := snd (Plugin.syncChats Demo.host Demo.settings
                   (set_net [Demo.page_chats [morning_chat; evening_chat] None]
                      (Demo.world 0 []))) in
  let w2 := snd (Plugin.syncChats Demo.host Demo.settings
                   (set_net [Demo.page_chats [morning_chat; evening_chat] None] w1)) in
  writes w2 = writes w1 /\ files w2 = files w1.
Proof.
  refine (proj2 (syncChats_second_run_writes_nothing Demo.host Demo.settings (Demo.world 0 [])
                   [Demo.page_chats [morning_chat; evening_chat] None] _ _ _)).
  - repeat constructor; by eexists.
  - apply (bool_decide_unpack _). by vm_compute.
  - intros p _. cbn. set_solver.
Defined.

(** C4 as stated fails: under the daily layout two chats of one day share
    a file, each run writes it twice, and so does the second run. *)
Lemma syncChats_second_run_rewrites_shared_file :
  let replies := [Demo.page_chats [morning_chat; evening_chat] None] in
  let w1 := snd (Plugin.syncChats Demo.host daily_settings (Demo.world 0 replies)) in
  let w2 := snd (Plugin.syncChats Demo.host daily_settings (set_net replies w1)) in
  map fst (writes w1) = repeat "Limitless Chats/2025-02-09 - Chats.md"%string 2 /\
  map fst (writes w2) = repeat "Limitless Chats/2025-02-09 - Chats.md"%string 4 /\
  length (writes w2) = (length (writes w1) + 2)%nat.
Proof. vm_compute. repeat split; reflexivity. Qed.

(** C1 at the failing input: with a cap of 151 and two pages of 100 chats,
    [syncChats] asks for pages of 100 chats, processes 200 chats and writes
    200 files. *)
Theorem syncChats_overshoots_cap :
  let replies := [Demo.page_chats (chats_from 0 100) (Some "c1"%string);
                  Demo.page_chats (chats_from 100 100) None] in
  let r := Plugin.syncChats Demo.host capped_settings (Demo.world 0 replies) in
  notices (snd r) =
    ["Starting chat sync..."; "Chat sync complete! Processed 200 chats."]%string /\
  length (sync_plan Demo.host capped_settings replies) = 200%nat /\
  size (files (snd r)) = 200%nat /\
  map (fun rq => query_get "limit" (r_query rq)) (requests (snd r)) =
    [Some "100"%string; Some "100"%string].
Proof. vm_compute. repeat split; reflexivity. Qed.

(** ** The walk over the dates of lifelogs *)

Lemma query_get_filter k k' (ps : list (string * string)) :
  k <> k' ->
  query_get k (filter (fun kv => negb (String.eqb (fst kv) k')) ps) = query_get k ps.
Proof.
  intros Hne. induction ps as [|[k2 v2] ps IH]; [done|].
  rewrite filter_cons. cbn [fst query_get].
  destruct (String.eqb_spec k2 k') as [->|Hk2]; cbn [negb].
  - rewrite decide_False by (by intros ?).
    destruct (String.eqb_spec k' k) as [->|_]; [done|]. exact IH.
  - rewrite decide_True by done. cbn [query_get]. by rewrite IH.
Qed.

Lemma query_get_set_other k k' v ps :
  k <> k' -> query_get k (LimitlessAPI.params_set k' v ps) = query_get k ps.
Proof.
  intros Hne. induction ps as [|[k2 v2] ps IH]; cbn [LimitlessAPI.params_set query_get].
  - destruct (String.eqb_spec k' k) as [->|_]; done.
  - destruct (String.eqb_spec k2 k') as [->|Hk2]; cbn [query_get].
    + destruct (String.eqb_spec k' k) as [->|_]; [done|].
      by apply query_get_filter.
    + by rewrite IH.
Qed.

Section Lifelogs.
Variable h : Host.
Variable key : string.

(** One turn of the loop of [getLifelogs]. *)
Lemma getLifelogs_loop_step fuel params cursor acc w :
  LimitlessAPI.getLifelogs_loop h key (S fuel) params cursor acc w =
  match LimitlessAPI.makeRequest h key (LimitlessAPI.baseUrl +:+ "/v1/lifelogs")
          (LimitlessAPI.with_cursor cursor params) w with
  | (Ok data, w1) =>
      if present (LimitlessAPI.next_cursor data)
      then LimitlessAPI.getLifelogs_loop h key fuel (LimitlessAPI.with_cursor cursor params)
             (LimitlessAPI.next_cursor data) (acc ++ default [] (b_lifelogs data)) w1
      else (Ok (acc ++ default [] (b_lifelogs data)), w1)
  | (Throw e, w1) => (Throw e, logged "Error fetching lifelogs:" e w1)
  | (Diverge, w1) => (Diverge, w1)
  end.
Proof.
  cbn [LimitlessAPI.getLifelogs_loop]. unfold bind at 1. unfold try_catch at 1.
  destruct (LimitlessAPI.makeRequest h key _ _ w) as [[data|e|] w1]; try reflexivity.
  by destruct (present (LimitlessAPI.next_cursor data)).
Qed.

(** What [getLifelogs] does to the world: the vault is kept, every request
    carries the date of the call, and it ends. *)
Lemma getLifelogs_loop_world fuel params cursor acc w d :
  query_get "date" params = Some d ->
  let r := LimitlessAPI.getLifelogs_loop h key fuel params cursor acc w in
  vault_kept w (snd r) /\
  (exists rqs, requests (snd r) = requests w ++ rqs /\
               Forall (fun rq => query_get "date" (r_query rq) = Some d) rqs /\
               ((0 < fuel)%nat -> rqs <> [])) /\
  ((length (net w) < fuel)%nat -> fst r <> Diverge) /\
  (forall x, fst r = Ok x -> (length (net (snd r)) < length (net w))%nat).
Proof.
  revert params cursor acc w. induction fuel as [|fuel IH]; intros params cursor acc w Hd r.
  { subst r. simpl. split; [apply vault_kept_refl|]. split; [|split; [lia|done]].
    exists []. rewrite app_nil_r. repeat split; [done|lia]. }
  subst r. rewrite getLifelogs_loop_step.
  set (params' := LimitlessAPI.with_cursor cursor params).
  assert (Hd' : query_get "date" params' = Some d).
  { subst params'. unfold LimitlessAPI.with_cursor. destruct cursor as [c|]; [|done].
    destruct (truthy c); [|done]. by rewrite query_get_set_other. }
  destruct (makeRequest_world h key (LimitlessAPI.baseUrl +:+ "/v1/lifelogs") params' w)
    as (Hv & (n & Hrq & Hnet & Hpos & Hok) & Hdiv).
  assert (Hall : Forall (fun rq => query_get "date" (r_query rq) = Some d)
                   (repeat (request_of key (LimitlessAPI.baseUrl +:+ "/v1/lifelogs") params') n)).
  { apply Forall_forall. intros rq Hin. apply list_elem_of_In, repeat_spec in Hin.
    by subst rq. }
  assert (Hne : repeat (request_of key (LimitlessAPI.baseUrl +:+ "/v1/lifelogs") params') n <> [])
    by (destruct n; [lia|done]).
  destruct (LimitlessAPI.makeRequest h key _ params' w) as [[data|e|] w1]; cbn [fst snd] in *.
  - specialize (Hok data eq_refl).
    assert (Hlt : (length (net w1) < length (net w))%nat)
      by (rewrite Hnet, length_drop; lia).
    destruct (present (LimitlessAPI.next_cursor data)).
    + destruct (IH params' (LimitlessAPI.next_cursor data) (acc ++ default [] (b_lifelogs data)) w1 Hd')
        as (Hv' & (rqs & Hrq' & Hall' & _) & Hdiv' & Hlt').
      split; [by eapply vault_kept_trans|]. split; [|split].
      * exists (repeat (request_of key (LimitlessAPI.baseUrl +:+ "/v1/lifelogs") params') n ++ rqs).
        rewrite Hrq', Hrq, <- app_assoc. split; [done|]. split; [by apply Forall_app|].
        intros _ Hnil. by apply app_eq_nil in Hnil as [? _].
      * intros Hfuel. apply Hdiv'. lia.
      * intros x Hx. specialize (Hlt' x Hx). lia.
    + cbn [fst snd]. split; [done|]. split; [eauto|]. split; [done|]. by intros _ _.
  - cbn [fst snd].
    split; [destruct Hv as (? & ? & ?); by repeat split|].
    split; [|done]. cbn [requests logged]. eauto.
  - done.
Qed.

Lemma getLifelogs_world date w :
  let r := LimitlessAPI.getLifelogs h key date w in
  vault_kept w (snd r) /\
  (exists rqs, requests (snd r) = requests w ++ rqs /\
               Forall (fun rq => Some (query_get "date" (r_query rq)) = Some (JsDate.isoDate date))
                 rqs /\
               (is_Some date -> rqs <> [])) /\
  fst r <> Diverge /\
  (forall x, fst r = Ok x -> (length (net (snd r)) < length (net w))%nat).
Proof.
  unfold LimitlessAPI.getLifelogs.
  destruct (JsDate.isoDate date) as [d|] eqn:Hd.
  - set (params := [("date"%string, d); _; _; _; _; _]).
    destruct (getLifelogs_loop_world (S (length (net w))) params None [] w d eq_refl)
      as (Hv & (rqs & Hrq & Hall & Hne) & Hdiv & Hlt).
    cbv zeta. split; [done|]. split; [|split; [apply Hdiv; lia|done]].
    exists rqs. split; [done|]. split; [|intros _; apply Hne; lia].
    eapply Forall_impl; [exact Hall|]. by intros rq ->.
  - cbv zeta. unfold throw. cbn [fst snd]. split; [apply vault_kept_refl|].
    split; [|done]. exists []. rewrite app_nil_r. split; [done|]. split; [done|].
    intros [t ->]. by rewrite isoDate_valid in Hd.
Qed.
End Lifelogs.

Section DateWalk.
Variable h : Host.
Variable settings : LimitlessLifelogsSettings.

(** One day of the walk. *)
Lemma syncLifelogs_day_step folder date w :
  Plugin.syncLifelogs_day h settings folder date w =
  match JsDate.isoDate date with
  | None => (Throw (Error "RangeError: Invalid time value"), w)
  | Some d =>
      match LimitlessAPI.getLifelogs h (apiKey settings) date w with
      | (Ok logs, w1) =>
          if (0 <? length logs)%nat then
            let content := join (nl +:+ nl) (map (Plugin.formatLifelogMarkdown h) logs) in
            let filePath := folder +:+ "/" +:+ d +:+ ".md" in
            if decide (filePath ∈ faulty w1)
            then (Throw (Error "EACCES"), rejected filePath content w1)
            else (Ok tt, noticed ("Synced entries for " +:+ d) (written filePath content w1))
          else (Ok tt, w1)
      | (Throw e, w1) => (Throw e, w1)
      | (Diverge, w1) => (Diverge, w1)
      end
  end.
Proof.
  unfold Plugin.syncLifelogs_day. unfold bind at 1.
  destruct (JsDate.isoDate date) as [d|]; [|reflexivity].
  unfold ret at 1. unfold bind at 1.
  destruct (LimitlessAPI.getLifelogs h _ date w) as [[logs|e|] w1]; try reflexivity.
  destruct (0 <? length logs)%nat; [|reflexivity].
  unfold bind, adapter_write. by destruct (decide _).
Qed.

Lemma syncLifelogs_day_world folder c w :
  let r := Plugin.syncLifelogs_day h settings folder (Some c) w in
  (exists rq rqs, requests (snd r) = requests w ++ rq :: rqs /\
                  Forall (fun rq => query_get "date" (r_query rq) = Some (iso_day c)) (rq :: rqs)) /\
  fst r <> Diverge /\
  (forall x, fst r = Ok x -> (length (net (snd r)) < length (net w))%nat).
Proof.
  cbv zeta. rewrite syncLifelogs_day_step, isoDate_valid.
  destruct (getLifelogs_world h (apiKey settings) (Some c) w)
    as (_ & (rqs & Hrq & Hall & Hne) & Hdiv & Hlt).
  rewrite isoDate_valid in Hall.
  assert (Hall' : Forall (fun rq => query_get "date" (r_query rq) = Some (iso_day c)) rqs).
  { eapply Forall_impl; [exact Hall|]. intros rq [=]. done. }
  destruct rqs as [|rq rqs]; [by destruct Hne|]. clear Hne Hall.
  destruct (LimitlessAPI.getLifelogs h _ (Some c) w) as [[logs|e|] w1]; cbn [fst snd] in *.
  - specialize (Hlt logs eq_refl).
    destruct (0 <? length logs)%nat; [cbv zeta; destruct (decide _)|];
      cbn [fst snd requests net rejected noticed written];
      (split; [eauto|]); split; done.
  - split; [eauto|]. done.
  - done.
Qed.

Lemma syncLifelogs_loop_step fuel folder date endDate w :
  Plugin.syncLifelogs_loop h settings (S fuel) folder date endDate w =
  if JsDate.leb date endDate then
    match Plugin.syncLifelogs_day h settings folder date w with
    | (Ok _, w1) =>
        Plugin.syncLifelogs_loop h settings fuel folder
          (JsDate.nextDay (setNextDate h) date) endDate w1
    | (Throw e, w1) => (Throw e, w1)
    | (Diverge, w1) => (Diverge, w1)
    end
  else (Ok tt, w).
Proof.
  cbn [Plugin.syncLifelogs_loop]. destruct (JsDate.leb date endDate); [|reflexivity].
  unfold bind. by destruct (Plugin.syncLifelogs_day h settings folder date w) as [[[]|e|] w1].
Qed.

(** The requests of the walk from [c] come in groups, one for each day
    of the walk. *)
Lemma syncLifelogs_loop_groups fuel folder c endDate w :
  let r := Plugin.syncLifelogs_loop h settings fuel folder (Some c) endDate w in
  (exists groups, requests (snd r) = requests w ++ concat groups /\
     day_groups h c groups /\
     ((0 < fuel)%nat -> JsDate.leb (Some c) endDate = true -> groups <> [])) /\
  ((length (net w) < fuel)%nat -> fst r <> Diverge).
Proof.
  revert c w. induction fuel as [|fuel IH]; intros c w; cbv zeta.
  { simpl. split; [|lia]. exists []. simpl. rewrite app_nil_r.
    split; [done|]. split; [done|lia]. }
  rewrite syncLifelogs_loop_step.
  destruct (JsDate.leb (Some c) endDate) eqn:Hle.
  2:{ split; [|done]. exists []. simpl. rewrite app_nil_r. by repeat split. }
  destruct (syncLifelogs_day_world folder c w) as ((rq & rqs & Hrq & Hall) & Hdiv & Hlt).
  destruct (Plugin.syncLifelogs_day h settings folder (Some c) w) as [[[]|e|] w1];
    cbn [fst snd] in *.
  - specialize (Hlt tt eq_refl). cbn [JsDate.nextDay option_map].
    destruct (IH (setNextDate h c) w1) as ((groups & Hrq2 & Hgroups & _) & Hdiv2).
    split.
    + exists ((rq :: rqs) :: groups). rewrite Hrq2, Hrq. cbn [concat].
      rewrite <- app_assoc. split; [done|]. split; [|done].
      cbn [day_groups]. by repeat split.
    + intros Hfuel. apply Hdiv2. lia.
  - split; [|done]. exists [rq :: rqs]. cbn [concat]. rewrite app_nil_r.
    split; [done|]. split; [|done]. cbn [day_groups]. by repeat split.
  - done.
Qed.

End DateWalk.


Section Resume.
Variable h : Host.
Variable settings : LimitlessLifelogsSettings.

(** C7: when [getLifelogs] returns no lifelog for the date of a step of
    the walk, the step returns in the world that [getLifelogs] left: no
    write is issued and every file keeps its content; the walk goes on with
    the next day from there. *)
Theorem syncLifelogs_day_empty (folder : string) (currentDate : JsDate.Date) (w w1 : World) :
  LimitlessAPI.getLifelogs h (apiKey settings) currentDate w = (Ok [], w1) ->
  Plugin.syncLifelogs_day h settings folder currentDate w = (Ok tt, w1) /\
  files w1 = files w /\ writes w1 = writes w /\
  (forall fuel endDate, JsDate.leb currentDate endDate = true ->
     Plugin.syncLifelogs_loop h settings (S fuel) folder currentDate endDate w =
     Plugin.syncLifelogs_loop h settings fuel folder
       (JsDate.nextDay (setNextDate h) currentDate) endDate w1).
Proof.
  intros Hget.
  assert (Hday : Plugin.syncLifelogs_day h settings folder currentDate w = (Ok tt, w1)).
  { rewrite syncLifelogs_day_step, Hget.
    destruct (JsDate.isoDate currentDate) as [d|] eqn:Hd; [done|].
    unfold LimitlessAPI.getLifelogs in Hget. by rewrite Hd in Hget. }
  destruct (getLifelogs_world h (apiKey settings) currentDate w) as ((Hf & Hw & _) & _).
  rewrite Hget in Hf, Hw. cbn [snd] in Hf, Hw.
  repeat split; try done.
  intros fuel endDate Hle. by rewrite syncLifelogs_loop_step, Hle, Hday.
Qed.

(** The requests of a lifelog sync are those of its walk. *)
Lemma syncLifelogs_run (w : World) :
  truthy (apiKey settings) = true ->
  exists w' groups,
    Plugin.syncLifelogs h settings w = (Ok tt, w') /\
    requests w' = requests w ++ concat groups /\
    match walk_start h settings w with
    | Some c => day_groups h c groups /\ (c <= clock w -> groups <> [])
    | None => groups = []
    end.
Proof.
  intros Hkey. unfold walk_start.
  unfold Plugin.syncLifelogs. rewrite Hkey. cbn [negb].
  set (folder := normalizePath h (folderPath settings)).
  unfold try_catch. unfold bind at 1.
  destruct (ensureFolderExists_world folder w) as (wa & -> & (Hfa & _) & Hna & Hra & Hca).
  unfold bind at 1. unfold Plugin.getLastSyncedDate, bind at 1, getFiles, ret at 1.
  rewrite Hfa.
  set (start := match head _ with Some d => d | None => _ end).
  unfold bind at 1. unfold now at 1. unfold bind at 1. unfold Notice at 1.
  set (wb := noticed _ wa).
  unfold bind at 1.
  destruct start as [c|].
  - destruct (syncLifelogs_loop_groups h settings (S (length (net wb))) folder c
                (Some (clock wa)) wb) as ((groups & Hrq & Hgroups & Hfirst) & Hdiv).
    assert (Hfirst' : c <= clock w -> groups <> []).
    { intros Hle. apply Hfirst; [lia|]. cbn [JsDate.leb]. rewrite Hca. by apply Z.leb_le. }
    destruct (Plugin.syncLifelogs_loop h settings _ folder (Some c) (Some (clock wa)) wb)
      as [[[]|e|] wc]; cbn [fst snd] in *.
    + eexists _, groups. split; [reflexivity|]. cbn [requests noticed]. rewrite Hrq.
      cbn [requests wb noticed]. by rewrite Hra.
    + eexists _, groups. split; [reflexivity|]. cbn [requests noticed logged]. rewrite Hrq.
      cbn [requests wb noticed]. by rewrite Hra.
    + exfalso. apply Hdiv; [lia|done].
  - rewrite syncLifelogs_loop_step. cbn [JsDate.leb].
    eexists _, []. split; [reflexivity|]. cbn [requests noticed wb concat].
    by rewrite Hra, app_nil_r.
Qed.


(** In front of finitely many replies [syncLifelogs] returns: whatever
    fails is caught. *)
Lemma syncLifelogs_returns (w : World) :
  exists w', Plugin.syncLifelogs h settings w = (Ok tt, w').
Proof.
  destruct (truthy (apiKey settings)) eqn:Hkey.
  - destruct (syncLifelogs_run w Hkey) as (w' & _ & Hrun & _). eauto.
  - unfold Plugin.syncLifelogs. rewrite Hkey. cbn [negb]. unfold Notice. eauto.
Qed.
End Resume.



Lemma syncLifelogs_day_empty_witness :
  let w := synced_world [Demo.page_lifelogs [] None] in
  let w1 := snd (LimitlessAPI.getLifelogs Demo.host "key" (Some 1739059200000) w) in
  Plugin.syncLifelogs_day Demo.host Demo.settings "Limitless Lifelogs" (Some 1739059200000) w
    = (Ok tt, w1) /\
  files w1 = files w /\ writes w1 = writes w.
Proof.
  cbv zeta.
  destruct (syncLifelogs_day_empty Demo.host Demo.settings "Limitless Lifelogs"
              (Some 1739059200000) (synced_world [Demo.page_lifelogs [] None])
              (snd (LimitlessAPI.getLifelogs Demo.host "key" (Some 1739059200000)
                      (synced_world [Demo.page_lifelogs [] None]))))
    as (Hday & Hf & Hw & _).
  - by vm_compute.
  - repeat split; assumption.
Defined.

(** * Further properties *)

(** ** File names *)

Lemma length_append (a b : string) :
  String.length (a +:+ b) = (String.length a + String.length b)%nat.
Proof. induction a as [|x a IH]; [done|]. rewrite append_cons. simpl. by rewrite IH. Qed.

Lemma forall_chars_append p a b :
  forall_chars p (a +:+ b) = forall_chars p a && forall_chars p b.
Proof.
  induction a as [|x a IH]; [done|].
  rewrite append_cons. simpl. by rewrite IH, andb_assoc.
Qed.

Lemma sanitize_char_reserved c : reserved (Plugin.sanitize_char c) = false.
Proof.
  unfold Plugin.sanitize_char. fold (reserved c).
  destruct (reserved c) eqn:E; [reflexivity | exact E].
Qed.

Lemma sanitize_char_keeps c : reserved c = false -> Plugin.sanitize_char c = c.
Proof. unfold Plugin.sanitize_char. fold (reserved c). by intros ->. Qed.

Lemma take_nil n : take n EmptyString = EmptyString.
Proof. by destruct n. Qed.

Lemma take_cons n a s : take (S n) (String a s) = String a (take n s).
Proof. reflexivity. Qed.

Lemma take_0 s : take 0 s = EmptyString.
Proof. by destruct s. Qed.

Lemma take_length n s : (String.length (take n s) <= n)%nat.
Proof.
  revert s. induction n as [|n IH]; intros s.
  - rewrite take_0. simpl. lia.
  - destruct s as [|a s]; [rewrite take_nil; simpl; lia|].
    rewrite take_cons. simpl. specialize (IH s). lia.
Qed.

Lemma take_all n s : (String.length s <= n)%nat -> take n s = s.
Proof.
  revert s. induction n as [|n IH]; intros [|a s] Hl; simpl in Hl; try reflexivity; try lia.
  rewrite take_cons, IH; [done | lia].
Qed.

Lemma take_forall p n s : forall_chars p s = true -> forall_chars p (take n s) = true.
Proof.
  revert s. induction n as [|n IH]; intros s Hs.
  - by rewrite take_0.
  - destruct s as [|a s]; [by rewrite take_nil|].
    rewrite take_cons. simpl in *. apply andb_true_iff in Hs as [-> Hs]. by apply IH.
Qed.

Lemma map_chars_sanitized s : unreserved (map_chars Plugin.sanitize_char s) = true.
Proof.
  induction s as [|a s IH]; [done|]. unfold unreserved in *. simpl.
  by rewrite sanitize_char_reserved, IH.
Qed.

Lemma map_chars_unreserved s : unreserved s = true -> map_chars Plugin.sanitize_char s = s.
Proof.
  induction s as [|a s IH]; [done|]. unfold unreserved in *. simpl.
  intros [Ha Hs]%andb_true_iff.
  rewrite sanitize_char_keeps, IH; [done..|]. by destruct (reserved a).
Qed.

Lemma sanitizeFilename_unreserved s : unreserved (Plugin.sanitizeFilename s) = true.
Proof. apply take_forall, map_chars_sanitized. Qed.

Lemma unreserved_lacks_slash s : unreserved s = true -> lacks "/" s = true.
Proof.
  induction s as [|a s IH]; [done|]. unfold unreserved. cbn [forall_chars lacks].
  intros [Ha Hs]%andb_true_iff. rewrite (IH Hs), andb_true_r.
  destruct (Ascii.eqb_spec a "/") as [->|]; [discriminate Ha | done].
Qed.

(** X1: the name that [sanitizeFilename] returns has at most 100
    characters and none of the nine reserved ones; sanitising it again
    changes nothing; and a name that is already short and free of reserved
    characters is returned as it is. *)
Theorem sanitizeFilename_safe (name : string) :
  (String.length (Plugin.sanitizeFilename name) <= 100)%nat /\
  unreserved (Plugin.sanitizeFilename name) = true /\
  Plugin.sanitizeFilename (Plugin.sanitizeFilename name) = Plugin.sanitizeFilename name /\
  (unreserved name = true -> (String.length name <= 100)%nat ->
   Plugin.sanitizeFilename name = name).
Proof.
  split; [apply take_length|]. split; [apply sanitizeFilename_unreserved|]. split.
  - unfold Plugin.sanitizeFilename at 1.
    rewrite map_chars_unreserved by apply sanitizeFilename_unreserved.
    apply take_all, take_length.
  - intros Hc Hl. unfold Plugin.sanitizeFilename. rewrite map_chars_unreserved by done.
    by apply take_all.
Qed.

(** X2: under the per-chat layout the path of a chat is
    [{folder}/{name}.md], and when the first eight characters of the chat's
    id hold no reserved character, neither does [name]: it has no slash,
    so the file lies in the chat folder itself, and at most 111
    characters.  (The id is not sanitised by the code; the title is.) *)
Theorem getChatFilePath_per_chat
    (h : Host) (settings : LimitlessLifelogsSettings) (chat : Chat) (folder : string) :
  chatFileFormat settings = "per-chat"%string ->
  unreserved (take 8 (c_id chat)) = true ->
  exists name,
    Plugin.getChatFilePath h settings chat folder = Some (folder +:+ "/" +:+ name +:+ ".md") /\
    unreserved name = true /\ lacks "/" name = true /\ (String.length name <= 111)%nat.
Proof.
  intros Hf Hid.
  set (title := Plugin.sanitizeFilename (or_else (c_summary chat) ("Chat " +:+ c_id chat))).
  assert (Hu : unreserved (title +:+ " - " +:+ take 8 (c_id chat)) = true).
  { unfold unreserved in *. rewrite !forall_chars_append, Hid.
    pose proof (sanitizeFilename_unreserved
                  (or_else (c_summary chat) ("Chat " +:+ c_id chat))) as Hc.
    unfold unreserved in Hc. fold title in Hc. by rewrite Hc. }
  exists (title +:+ " - " +:+ take 8 (c_id chat)).
  split; [|split; [exact Hu|split; [by apply unreserved_lacks_slash|]]].
  - unfold Plugin.getChatFilePath. rewrite Hf. cbn [String.eqb Ascii.eqb Bool.eqb].
    fold title. by rewrite !append_assoc.
  - rewrite !length_append.
    pose proof (take_length 100 (map_chars Plugin.sanitize_char
                  (or_else (c_summary chat) ("Chat " +:+ c_id chat)))) as H1.
    pose proof (take_length 8 (c_id chat)) as H2.
    fold (Plugin.sanitizeFilename (or_else (c_summary chat) ("Chat " +:+ c_id chat))) in H1.
    fold title in H1. simpl String.length at 2. lia.
Qed.

Lemma getChatFilePath_per_chat_witness :
  exists name,
    Plugin.getChatFilePath Demo.host Demo.settings
      (Demo.chat "abcd1234-xxxx" "Plan: a/b?" "2025-02-09T10:00:00Z") "Limitless Chats" =
    Some ("Limitless Chats" +:+ "/" +:+ name +:+ ".md") /\
    unreserved name = true /\ lacks "/" name = true /\ (String.length name <= 111)%nat.
Proof.
  apply (getChatFilePath_per_chat Demo.host Demo.settings
           (Demo.chat "abcd1234-xxxx" "Plan: a/b?" "2025-02-09T10:00:00Z") "Limitless Chats");
    reflexivity.
Defined.

(** X3: [getChatFilePath] fails in one case only: under the daily layout,
    for a chat from whose [createdAt] the host's [new Date] reads no date.
    A [createdAt] in the format of ECMA-262 is read by every host, so such
    a chat always has a path; and under the monthly layout a chat without a
    readable date gets a path all the same, named after NaN. *)
Theorem getChatFilePath_fails_only_daily
    (h : Host) (settings : LimitlessLifelogsSettings) (chat : Chat) (folder : string) :
  (Plugin.getChatFilePath h settings chat folder = None <->
   chatFileFormat settings = "daily"%string /\ newDate h (c_createdAt chat) = None) /\
  (forall t, JsDate.parse (tz h) (c_createdAt chat) = Some t ->
   Plugin.getChatFilePath h settings chat folder <> None) /\
  (chatFileFormat settings = "monthly"%string ->
   newDate h (c_createdAt chat) = None ->
   Plugin.getChatFilePath h settings chat folder = Some (folder +:+ "/NaN-NaN - Chats.md")).
Proof.
  assert (Hiff : Plugin.getChatFilePath h settings chat folder = None <->
                 chatFileFormat settings = "daily"%string /\
                 newDate h (c_createdAt chat) = None).
  { unfold Plugin.getChatFilePath.
    destruct (String.eqb_spec (chatFileFormat settings) "per-chat") as [E1|E1].
    { split; [done|]. intros [E2 _]. rewrite E2 in E1. discriminate. }
    destruct (String.eqb_spec (chatFileFormat settings) "daily") as [E2|E2].
    { destruct (newDate h (c_createdAt chat)) as [t|].
      - rewrite isoDate_valid. split; [done|]. by intros [_ ?].
      - done. }
    destruct (String.eqb_spec (chatFileFormat settings) "monthly") as [E3|E3];
      (split; [done | by intros [? _]]). }
  split; [exact Hiff|]. split.
  - intros t Ht Hnone. apply Hiff in Hnone as [_ Hnone].
    by rewrite (newDate_parse h _ _ Ht) in Hnone.
  - intros Hf Hp. unfold Plugin.getChatFilePath. rewrite Hf, Hp. reflexivity.
Qed.

(** ** The lifelog renderer, continued *)

Lemma collapse_blank_cons a s :
  a <> ascii_of_nat 10 -> collapse_blank (String a s) = String a (collapse_blank s).
Proof.
  intros Ha. destruct s as [|b r]; [reflexivity|].
  change (collapse_blank (String a (String b r))) with
    (if Ascii.eqb a (ascii_of_nat 10) && Ascii.eqb b (ascii_of_nat 10)
     then String (ascii_of_nat 10) (collapse_blank r)
     else String a (collapse_blank (String b r))).
  by apply Ascii.eqb_neq in Ha as ->.
Qed.

Lemma collapse_blank_pair s :
  collapse_blank (String (ascii_of_nat 10) (String (ascii_of_nat 10) s)) =
  String (ascii_of_nat 10) (collapse_blank s).
Proof. reflexivity. Qed.

Lemma collapse_blank_single s :
  startsWith s nl = false ->
  collapse_blank (String (ascii_of_nat 10) s) = String (ascii_of_nat 10) (collapse_blank s).
Proof.
  destruct s as [|b r]; [reflexivity|]. intros Hb.
  change (collapse_blank (String (ascii_of_nat 10) (String b r))) with
    (if Ascii.eqb (ascii_of_nat 10) (ascii_of_nat 10) && Ascii.eqb b (ascii_of_nat 10)
     then String (ascii_of_nat 10) (collapse_blank r)
     else String (ascii_of_nat 10) (collapse_blank (String b r))).
  destruct (Ascii.eqb_spec b (ascii_of_nat 10)) as [->|Hn]; [|reflexivity].
  unfold startsWith, nl in Hb. simpl in Hb. by destruct r.
Qed.

Lemma collapse_blank_prefix a s :
  lacks (ascii_of_nat 10) a = true -> collapse_blank (a +:+ s) = a +:+ collapse_blank s.
Proof.
  induction a as [|x a IH]; [done|]. intros H. cbn [lacks] in H.
  apply andb_true_iff in H as [Hx Ha].
  rewrite !append_cons, collapse_blank_cons, IH; [done..|].
  intros ->. by rewrite Ascii.eqb_refl in Hx.
Qed.

(** A run of [n] line breaks comes out as half as many, rounded up. *)
Lemma collapse_blank_run n : forall s,
  startsWith s nl = false ->
  collapse_blank (repeat_char (ascii_of_nat 10) n +:+ s) =
  repeat_char (ascii_of_nat 10) (Nat.div2 (S n)) +:+ collapse_blank s.
Proof.
  induction n as [n IH] using lt_wf_ind. intros s Hs.
  destruct n as [|[|n]].
  - reflexivity.
  - simpl repeat_char. rewrite append_cons, append_nil. simpl Nat.div2.
    rewrite append_cons, append_nil. by apply collapse_blank_single.
  - change (repeat_char (ascii_of_nat 10) (S (S n))) with
      (String (ascii_of_nat 10) (String (ascii_of_nat 10) (repeat_char (ascii_of_nat 10) n))).
    rewrite !append_cons, collapse_blank_pair, IH by (done || lia).
    change (Nat.div2 (S (S (S n)))) with (S (Nat.div2 (S n))).
    reflexivity.
Qed.

Lemma collapse_blank_id s : includes (nl +:+ nl) s = false -> collapse_blank s = s.
Proof.
  induction s as [|a s IH]; [done|]. intros Hi.
  rewrite includes_unfold in Hi. apply orb_false_iff in Hi as [Hp Hi].
  destruct (Ascii.eqb_spec a (ascii_of_nat 10)) as [->|Hn].
  - rewrite collapse_blank_single, IH; [done..|].
    unfold startsWith, nl. destruct s as [|b r]; [done|].
    unfold nl in Hp. simpl in Hp |- *.
    destruct (Ascii.ascii_dec (ascii_of_nat 10) b); [|done].
    destruct r; done.
  - by rewrite collapse_blank_cons, IH.
Qed.

(** X4: a lifelog with a non-empty [markdown] is rendered from it alone,
    whatever its title and contents: a text without an empty line comes
    back unchanged, and a run of [n] line breaks (after a first line, before
    a text that starts with another character) comes back as [n / 2] of
    them, rounded up: the replacement makes one pass and does not look at
    its own output, so three line breaks give two. *)
Theorem formatLifelogMarkdown_markdown
    (h : Host) (md : string) (title : option string) (contents : option (list ContentNode)) :
  truthy md = true ->
  let format := Plugin.formatLifelogMarkdown h
                  {| l_markdown := Some md; l_title := title; l_contents := contents |} in
  format = collapse_blank md /\
  (includes (nl +:+ nl) md = false -> format = md) /\
  (forall a n b, md = a +:+ repeat_char (ascii_of_nat 10) n +:+ b ->
     lacks (ascii_of_nat 10) a = true -> startsWith b nl = false ->
     format = a +:+ repeat_char (ascii_of_nat 10) (Nat.div2 (S n)) +:+ collapse_blank b).
Proof.
  intros Hmd format.
  assert (Hf : format = collapse_blank md).
  { unfold format, Plugin.formatLifelogMarkdown. cbn [l_markdown present default]. by rewrite Hmd. }
  split; [exact Hf|]. split.
  - intros Hi. rewrite Hf. by apply collapse_blank_id.
  - intros a n b -> Ha Hb. rewrite Hf, collapse_blank_prefix by done.
    by rewrite collapse_blank_run.
Qed.

Lemma formatLifelogMarkdown_markdown_witness :
  let format := Plugin.formatLifelogMarkdown Demo.host
                  {| l_markdown := Some ("a" +:+ repeat_char (ascii_of_nat 10) 3 +:+ "b");
                     l_title := Some "Title"%string; l_contents := Some [node_h2 "x"] |} in
  format = collapse_blank ("a" +:+ repeat_char (ascii_of_nat 10) 3 +:+ "b") /\
  (includes (nl +:+ nl) ("a" +:+ repeat_char (ascii_of_nat 10) 3 +:+ "b") = false ->
   format = "a" +:+ repeat_char (ascii_of_nat 10) 3 +:+ "b") /\
  (forall a n b, "a" +:+ repeat_char (ascii_of_nat 10) 3 +:+ "b" =
                 a +:+ repeat_char (ascii_of_nat 10) n +:+ b ->
     lacks (ascii_of_nat 10) a = true -> startsWith b nl = false ->
     format = a +:+ repeat_char (ascii_of_nat 10) (Nat.div2 (S n)) +:+ collapse_blank b).
Proof.
  apply (formatLifelogMarkdown_markdown Demo.host
           ("a" +:+ repeat_char (ascii_of_nat 10) 3 +:+ "b")). reflexivity.
Defined.

Section Renderer2.
Variable h : Host.

Lemma render_node_heading1 st n : is_heading1 n -> Plugin.render_node h st n = st.
Proof. unfold is_heading1, Plugin.render_node. by intros ->. Qed.

Lemma fold_render_heading1 nodes st :
  fold_left (Plugin.render_node h) (filter (fun n => ~ is_heading1 n) nodes) st =
  fold_left (Plugin.render_node h) nodes st.
Proof.
  revert st. induction nodes as [|n nodes IH]; intros st; [done|].
  rewrite filter_cons. case_decide as Hn.
  - simpl. apply IH.
  - simpl. rewrite render_node_heading1; [apply IH|].
    by destruct (decide (is_heading1 n)).
Qed.

Lemma fold_render_flat nodes st :
  Forall (fun n => ~ is_heading2 n) nodes ->
  truthy (Plugin.currentSection st) = false ->
  fold_left (Plugin.render_node h) nodes st =
  {| Plugin.content :=
       Plugin.content st ++ map (node_block h) (filter (fun n => ~ is_heading1 n) nodes);
     Plugin.currentSection := Plugin.currentSection st;
     Plugin.sectionMessages := Plugin.sectionMessages st |}.
Proof.
  intros Hn. revert st. induction Hn as [|n nodes Hn _ IH]; intros st Hs.
  - simpl. rewrite app_nil_r. by destruct st.
  - simpl fold_left. rewrite filter_cons.
    unfold is_heading2 in Hn.
    destruct (String.eqb_spec (n_type n) "blockquote") as [Hb|Hb].
    + assert (Hstep : Plugin.render_node h st n =
                {| Plugin.content := Plugin.content st ++ [Plugin.node_message h n];
                   Plugin.currentSection := Plugin.currentSection st;
                   Plugin.sectionMessages := Plugin.sectionMessages st |}).
      { unfold Plugin.render_node. rewrite Hb, Hs. reflexivity. }
      rewrite Hstep, IH by done. cbn [Plugin.content Plugin.currentSection Plugin.sectionMessages].
      rewrite decide_True by (unfold is_heading1; rewrite Hb; discriminate).
      cbn [map]. unfold node_block at 2. rewrite Hb. cbn [String.eqb Ascii.eqb Bool.eqb].
      by rewrite <- app_assoc.
    + destruct (String.eqb_spec (n_type n) "heading1") as [H1|H1].
      * rewrite render_node_heading1 by done. rewrite decide_False by (by intros []).
        by apply IH.
      * assert (Hstep : Plugin.render_node h st n =
                {| Plugin.content := Plugin.content st ++ [n_content n];
                   Plugin.currentSection := Plugin.currentSection st;
                   Plugin.sectionMessages := Plugin.sectionMessages st |}).
        { unfold Plugin.render_node.
          apply String.eqb_neq in Hn, Hb, H1. by rewrite Hn, Hb, H1. }
        rewrite Hstep, IH by done.
        cbn [Plugin.content Plugin.currentSection Plugin.sectionMessages].
        rewrite decide_True by done. cbn [map]. unfold node_block at 2.
        apply String.eqb_neq in Hb. rewrite Hb. by rewrite <- app_assoc.
Qed.

(** Inside an open section the nodes that are neither headings nor
    quotes go to the output at once. *)
Lemma render_section_content body st :
  Forall (fun n => ~ is_heading2 n) body ->
  truthy (Plugin.currentSection st) = true ->
  Plugin.content (fold_left (Plugin.render_node h) body st) =
  Plugin.content st ++ map n_content (filter is_plain body).
Proof.
  intros Hbody. revert st. induction Hbody as [|n body Hn _ IH]; intros st Hopen.
  - simpl. by rewrite app_nil_r.
  - simpl fold_left. unfold is_heading2 in Hn.
    assert (Hstep : Plugin.currentSection (Plugin.render_node h st n) = Plugin.currentSection st /\
                    Plugin.content (Plugin.render_node h st n) =
                    Plugin.content st ++ map n_content (filter is_plain [n])).
    { unfold Plugin.render_node. rewrite filter_cons, filter_nil.
      apply String.eqb_neq in Hn as Hn'. rewrite Hn', Hopen.
      destruct (String.eqb_spec (n_type n) "blockquote") as [Hb|Hb].
      - rewrite decide_False by (intros (_ & _ & ?); done).
        simpl. by rewrite app_nil_r.
      - destruct (String.eqb_spec (n_type n) "heading1") as [H1|H1].
        + rewrite decide_False by (intros (? & _ & _); done). simpl. by rewrite app_nil_r.
        + by rewrite decide_True. }
    destruct Hstep as [Hs Hc]. rewrite IH by (by rewrite Hs). rewrite Hc.
    rewrite <- app_assoc, <- map_app. f_equal. f_equal.
    by rewrite filter_cons, filter_nil, (filter_cons _ n); case_decide.
Qed.

Lemma title_block_content0 (title : option string) :
  match title with
  | Some t => if truthy t then ["# " +:+ t +:+ nl] else []
  | None => []
  end = title_block title.
Proof. unfold title_block. destruct title as [t|]; [|done]. simpl. by destruct (truthy t). Qed.
End Renderer2.

(** X5: heading1 nodes add nothing to the rendered lifelog: leaving them
    out of the contents gives the same text. *)
Theorem formatLifelogMarkdown_ignores_heading1 (h : Host) (lifelog : Lifelog) :
  Plugin.formatLifelogMarkdown h
    {| l_markdown := l_markdown lifelog; l_title := l_title lifelog;
       l_contents := option_map (filter (fun n => ~ is_heading1 n)) (l_contents lifelog) |} =
  Plugin.formatLifelogMarkdown h lifelog.
Proof.
  unfold Plugin.formatLifelogMarkdown, Plugin.lifelog_blocks. cbn [l_markdown l_title l_contents].
  destruct (present (l_markdown lifelog)); [done|].
  destruct (l_contents lifelog) as [nodes|]; [|done].
  cbn [option_map]. by rewrite fold_render_heading1.
Qed.

(** X6: the blocks of a lifelog without heading2 nodes are the title
    block and then one block per node in the order of the nodes, heading1
    nodes left out: a quote gives its message line, any other node its
    content. *)
Theorem formatLifelogMarkdown_flat
    (h : Host) (title : option string) (nodes : list ContentNode) :
  Forall (fun n => ~ is_heading2 n) nodes ->
  let lifelog := {| l_markdown := None; l_title := title; l_contents := Some nodes |} in
  Plugin.lifelog_blocks h lifelog =
    title_block title ++ map (node_block h) (filter (fun n => ~ is_heading1 n) nodes) /\
  Plugin.formatLifelogMarkdown h lifelog =
    join (nl +:+ nl)
      (title_block title ++ map (node_block h) (filter (fun n => ~ is_heading1 n) nodes)).
Proof.
  intros Hn lifelog.
  assert (Hb : Plugin.lifelog_blocks h lifelog =
               title_block title ++ map (node_block h) (filter (fun n => ~ is_heading1 n) nodes)).
  { unfold lifelog, Plugin.lifelog_blocks. cbn [l_title l_contents].
    rewrite title_block_content0, fold_render_flat by done.
    unfold Plugin.render_finish. reflexivity. }
  split; [exact Hb|].
  unfold Plugin.formatLifelogMarkdown. cbn [lifelog l_markdown present]. by rewrite Hb.
Qed.

Lemma formatLifelogMarkdown_flat_witness :
  let nodes := [ {| n_type := "heading1"; n_content := "Day"; n_speakerName := None;
                    n_startTime := None |};
                 {| n_type := "paragraph"; n_content := "Notes"; n_speakerName := None;
                    n_startTime := None |};
                 node_quote None None "Hello" ] in
  Plugin.formatLifelogMarkdown Demo.host
    {| l_markdown := None; l_title := Some "Day"%string; l_contents := Some nodes |} =
  join (nl +:+ nl)
    (title_block (Some "Day"%string) ++
     map (node_block Demo.host) (filter (fun n => ~ is_heading1 n) nodes)).
Proof.
  apply (formatLifelogMarkdown_flat Demo.host (Some "Day"%string)).
  repeat constructor; discriminate.
Defined.

(** X7: in a section the order of the nodes is not the order of the
    output.  For a lifelog whose contents are a heading2 node with a
    non-empty title followed by nodes none of which is a heading2, at least
    one of them a quote, the blocks are: the title block, the contents of
    the plain nodes of the section, then the heading of the section, then
    the lines of its quotes.  What is written between the quotes of a
    section comes out above the section's heading. *)
Theorem formatLifelogMarkdown_section_order
    (h : Host) (title : option string) (hd : ContentNode) (body : list ContentNode) :
  is_heading2 hd ->
  truthy (n_content hd) = true ->
  Forall (fun n => ~ is_heading2 n) body ->
  filter is_blockquote body <> [] ->
  Plugin.lifelog_blocks h
    {| l_markdown := None; l_title := title; l_contents := Some (hd :: body) |} =
  title_block title ++ map n_content (filter is_plain body) ++
  heading (n_content hd) :: map (Plugin.node_message h) (filter is_blockquote body).
Proof.
  intros Hhd Ht Hbody Hq.
  unfold Plugin.lifelog_blocks. cbn [l_title l_contents]. rewrite title_block_content0.
  simpl fold_left.
  set (st1 := Plugin.render_node h _ hd).
  assert (Hst1 : st1 = {| Plugin.content := title_block title;
                          Plugin.currentSection := n_content hd;
                          Plugin.sectionMessages := [] |}).
  { unfold st1, Plugin.render_node. unfold is_heading2 in Hhd. by rewrite Hhd. }
  destruct (render_section_body h body st1 Hbody) as [Hs Hm]; [by rewrite Hst1|].
  pose proof (render_section_content h body st1 Hbody) as Hc.
  rewrite Hst1 in Hs, Hm, Hc. cbn in Hs, Hm, Hc. specialize (Hc Ht).
  rewrite <- Hst1 in Hs, Hm, Hc.
  unfold Plugin.render_finish. rewrite Hs, Ht, Hm, Hc.
  destruct (filter is_blockquote body) as [|q qs] eqn:Hf; [done|].
  cbn [map length Nat.ltb Nat.leb andb]. by rewrite <- app_assoc.
Qed.

Lemma formatLifelogMarkdown_section_order_witness :
  let para := {| n_type := "paragraph"; n_content := "Aside"; n_speakerName := None;
                 n_startTime := None |} in
  Plugin.lifelog_blocks Demo.host
    {| l_markdown := None; l_title := None;
       l_contents := Some [node_h2 "Meeting"; node_quote None None "Hello"; para] |} =
  title_block None ++ map n_content (filter is_plain [node_quote None None "Hello"; para]) ++
  heading "Meeting" ::
  map (Plugin.node_message Demo.host) (filter is_blockquote [node_quote None None "Hello"; para]).
Proof.
  apply (formatLifelogMarkdown_section_order Demo.host None (node_h2 "Meeting")).
  - reflexivity.
  - reflexivity.
  - repeat constructor; discriminate.
  - discriminate.
Defined.

(** ** The request engine, continued *)

Lemma makeRequest_loop_recovers h key url params k :
  forall fuel retries w json,
    (forall i, (i < k)%nat -> exists ra, reply_at w i = rate_limited ra) ->
    reply_at w k = Response (Some json) ->
    retries + Z.of_nat k <= LimitlessAPI.maxRetries ->
    (k < fuel)%nat ->
    exists w' ds,
      LimitlessAPI.makeRequest_loop h key fuel url params retries w = (Ok json, w') /\
      net w' = drop (S k) (net w) /\
      requests w' = requests w ++ repeat (request_of key url params) (S k) /\
      sleeps w' = sleeps w ++ ds /\ length ds = k /\
      console w' = console w /\ vault_kept w w'.
Proof.
  induction k as [|k IH]; intros fuel retries w json Hpre Hok Hle Hfuel.
  - destruct fuel as [|fuel]; [lia|].
    rewrite reply_at_0 in Hok.
    rewrite (makeRequest_loop_ok h key fuel url params retries w json Hok).
    eexists _, []. split; [reflexivity|]. cbn. rewrite app_nil_r.
    repeat split; try done; by destruct (net w).
  - destruct fuel as [|fuel]; [lia|].
    destruct (Hpre 0%nat) as [ra Hra]; [lia|]. rewrite reply_at_0 in Hra.
    rewrite (makeRequest_loop_retry h key fuel url params retries w ra Hra)
      by (unfold LimitlessAPI.maxRetries in *; lia).
    set (w1 := waited _ _).
    destruct (IH fuel (retries + 1) w1 json) as (w' & ds & Hrun & Hnet & Hrq & Hsl & Hlen & Hco & Hv).
    + intros i Hi. unfold w1. rewrite reply_at_next. apply Hpre. lia.
    + unfold w1. by rewrite reply_at_next.
    + lia.
    + lia.
    + exists w', (LimitlessAPI.computeDelay (newDate h) (clock w) retries ra :: ds).
      split; [exact Hrun|]. rewrite Hnet, Hrq, Hsl, Hco.
      cbn [net requests sleeps console w1 waited slept noticed sent].
      rewrite <- !app_assoc.
      repeat split; try done; try (by destruct (net w)); try (simpl; by rewrite Hlen);
        destruct Hv as (Hv1 & Hv2 & Hv3); by rewrite ?Hv1, ?Hv2, ?Hv3.
Qed.

(** X8: [makeRequest] gets over rate limits: when the first [k <= 5]
    replies are 429 and the next one carries a JSON body, it returns that
    body after [k] waits and [k + 1] requests, logs no error, and leaves the
    vault alone. *)
Theorem makeRequest_recovers
    (h : Host) (key url : string) (params : list (string * string)) (w : World)
    (k : nat) (json : Body) :
  (k <= 5)%nat ->
  (forall i, (i < k)%nat -> exists ra, reply_at w i = rate_limited ra) ->
  reply_at w k = Response (Some json) ->
  exists w' ds,
    LimitlessAPI.makeRequest h key url params w = (Ok json, w') /\
    net w' = drop (S k) (net w) /\
    requests w' = requests w ++ repeat (request_of key url params) (S k) /\
    sleeps w' = sleeps w ++ ds /\ length ds = k /\
    console w' = console w /\ vault_kept w w'.
Proof.
  intros Hk Hpre Hok. unfold LimitlessAPI.makeRequest.
  apply makeRequest_loop_recovers; try done; unfold LimitlessAPI.maxRetries; simpl; lia.
Qed.

Lemma makeRequest_recovers_witness :
  exists w' ds,
    LimitlessAPI.makeRequest Demo.host "key" "https://api.limitless.ai/v1/chats" []
      (Demo.world 0 [rate_limited None; rate_limited (Some "3"%string);
                     Demo.page_chats [] None]) =
      (Ok {| b_lifelogs := None; b_lifelogsNext := None; b_chats := Some [];
             b_chatsNext := None |}, w') /\
    net w' = drop 3 [rate_limited None; rate_limited (Some "3"%string);
                     Demo.page_chats [] None] /\
    requests w' = [] ++ repeat (request_of "key" "https://api.limitless.ai/v1/chats" []) 3 /\
    sleeps w' = [] ++ ds /\ length ds = 2%nat /\
    console w' = [] /\
    vault_kept (Demo.world 0 [rate_limited None; rate_limited (Some "3"%string);
                              Demo.page_chats [] None]) w'.
Proof.
  apply (makeRequest_recovers Demo.host "key" "https://api.limitless.ai/v1/chats" []
           (Demo.world 0 [rate_limited None; rate_limited (Some "3"%string);
                          Demo.page_chats [] None]) 2).
  - lia.
  - intros [|[|i]] Hi; [by eexists | by eexists | lia].
  - reflexivity.
Defined.

Lemma slept_clock d w : clock w <= clock (slept d w).
Proof. cbn. destruct d; lia. Qed.

Lemma makeRequest_loop_bounds h key fuel url params : forall retries w,
  let r := LimitlessAPI.makeRequest_loop h key fuel url params retries w in
  exists n ds,
    requests (snd r) = requests w ++ repeat (request_of key url params) n /\
    sleeps (snd r) = sleeps w ++ ds /\
    (n <= fuel)%nat /\ (length ds <= n)%nat /\
    (fst r <> Diverge -> n = S (length ds)) /\
    clock w <= clock (snd r) /\ folders (snd r) = folders w.
Proof.
  induction fuel as [|fuel IH]; intros retries w r.
  { exists 0%nat, []. subst r. cbn. rewrite !app_nil_r. repeat split; try done; lia. }
  destruct (turn_cases w retries) as [[json Hr]|[(ra & Hr & Hlt)|(e & He & Hstop)]].
  - subst r. rewrite (makeRequest_loop_ok h key fuel url params retries w json Hr).
    exists 1%nat, []. cbn. rewrite app_nil_r. repeat split; try done; lia.
  - subst r. rewrite (makeRequest_loop_retry h key fuel url params retries w ra Hr Hlt).
    set (w1 := waited _ _).
    destruct (IH (retries + 1) w1) as (n & ds & Hrq & Hsl & Hn & Hds & Hnd & Hcl & Hfo).
    exists (S n), (LimitlessAPI.computeDelay (newDate h) (clock w) retries ra :: ds).
    rewrite Hrq, Hsl, Hfo. cbn [requests sleeps folders w1 waited slept noticed sent].
    rewrite <- !app_assoc. repeat split; try done; simpl; try lia.
    + intros Hd. specialize (Hnd Hd). lia.
    + etrans; [|exact Hcl]. unfold w1, waited. cbn.
      destruct (LimitlessAPI.computeDelay _ _ _ _); lia.
  - subst r. rewrite (makeRequest_loop_throw h key fuel url params retries w e He Hstop).
    exists 1%nat, []. cbn. rewrite app_nil_r. repeat split; try done; lia.
Qed.

(** X9: a call of [makeRequest] always ends, with a body or with a
    thrown error; it sends at least one request and at most six, all of them
    the same; it waits once between two requests, so at most five times;
    the clock does not go back; and it changes neither a file nor a
    folder. *)
Theorem makeRequest_bounded
    (h : Host) (key url : string) (params : list (string * string)) (w : World) :
  let r := LimitlessAPI.makeRequest h key url params w in
  fst r <> Diverge /\
  vault_kept w (snd r) /\ folders (snd r) = folders w /\ clock w <= clock (snd r) /\
  exists n ds,
    (1 <= n <= 6)%nat /\
    requests (snd r) = requests w ++ repeat (request_of key url params) n /\
    net (snd r) = drop n (net w) /\
    sleeps (snd r) = sleeps w ++ ds /\ length ds = (n - 1)%nat.
Proof.
  intros r.
  destruct (makeRequest_world h key url params w) as (Hv & (m & Hrq' & Hnet & Hpos & _) & Hnd).
  destruct (makeRequest_loop_bounds h key (S (Z.to_nat LimitlessAPI.maxRetries)) url params 0 w)
    as (n & ds & Hrq & Hsl & Hn & Hds & Hdiv & Hcl & Hfo).
  fold (LimitlessAPI.makeRequest h key url params w) in Hrq, Hsl, Hdiv, Hcl, Hfo.
  fold r in Hrq, Hsl, Hdiv, Hcl, Hfo, Hv, Hrq', Hnet, Hnd.
  assert (m = n) as ->.
  { rewrite Hrq in Hrq'. apply app_inv_head in Hrq'.
    apply (f_equal length) in Hrq'. by rewrite !repeat_length in Hrq'. }
  specialize (Hdiv Hnd).
  split; [done|]. split; [done|]. split; [done|]. split; [done|].
  exists n, ds. change (Z.to_nat LimitlessAPI.maxRetries) with 5%nat in Hn.
  repeat split; try done; lia.
Qed.

(** ** The pages of a day of lifelogs *)

Lemma query_get_set_same k v ps : query_get k (LimitlessAPI.params_set k v ps) = Some v.
Proof.
  induction ps as [|[k' v'] ps IH]; simpl.
  - by rewrite String.eqb_refl.
  - destruct (String.eqb_spec k' k) as [->|Hne]; simpl.
    + by rewrite String.eqb_refl.
    + apply String.eqb_neq in Hne. by rewrite Hne.
Qed.

Section Pages.
Variable h : Host.
Variable key : string.

Lemma makeRequest_ok url params w json :
  hd unreachable (net w) = Response (Some json) ->
  LimitlessAPI.makeRequest h key url params w = (Ok json, sent (request_of key url params) w).
Proof. intros Hr. unfold LimitlessAPI.makeRequest. by apply makeRequest_loop_ok. Qed.

Lemma makeRequest_throw url params w e :
  reply_error (hd unreachable (net w)) = Some e ->
  e_status e <> Some 429 ->
  LimitlessAPI.makeRequest h key url params w =
  (Throw e, logged "Error making request:" e (sent (request_of key url params) w)).
Proof. intros Hr Hs. unfold LimitlessAPI.makeRequest. apply makeRequest_loop_throw; auto. Qed.

Local Abbreviation lifelogs_url := (LimitlessAPI.baseUrl +:+ "/v1/lifelogs").

(** The loop of [getLifelogs] over pages that all arrive. *)
Lemma getLifelogs_loop_pages pages : forall fuel params cursor acc w last c rest,
  Forall (fun p => truthy (snd p) = true) pages ->
  present c = false ->
  net w = map lifelog_page pages ++ Demo.page_lifelogs last c :: rest ->
  (length pages < fuel)%nat ->
  exists w' rqs,
    LimitlessAPI.getLifelogs_loop h key fuel params cursor acc w =
      (Ok (acc ++ concat (map fst pages) ++ last), w') /\
    net w' = rest /\
    requests w' = requests w ++ rqs /\
    cursors_sent rqs =
      query_get "cursor" (LimitlessAPI.with_cursor cursor params) ::
      map (fun p => Some (snd p)) pages /\
    vault_kept w w' /\ sleeps w' = sleeps w /\ console w' = console w /\
    notices w' = notices w.
Proof.
  induction pages as [|p pages IH]; intros fuel params cursor acc w last c rest Hall Hc Hnet Hfuel.
  - destruct fuel as [|fuel]; [simpl in Hfuel; lia|].
    rewrite getLifelogs_loop_step.
    rewrite (makeRequest_ok _ _ w
               {| b_lifelogs := Some last; b_lifelogsNext := c; b_chats := None;
                  b_chatsNext := None |}) by (by rewrite Hnet).
    unfold LimitlessAPI.next_cursor. cbn [b_lifelogsNext b_lifelogs default]. rewrite Hc.
    cbn [present].
    eexists _, [_]. split; [reflexivity|]. cbn. rewrite Hnet. by repeat split.
  - destruct fuel as [|fuel]; [simpl in Hfuel; lia|].
    apply Forall_cons in Hall as [Hp Hall].
    rewrite getLifelogs_loop_step.
    rewrite (makeRequest_ok _ _ w
               {| b_lifelogs := Some (fst p); b_lifelogsNext := Some (snd p); b_chats := None;
                  b_chatsNext := None |}) by (by rewrite Hnet).
    unfold LimitlessAPI.next_cursor. cbn [b_lifelogsNext b_lifelogs default present].
    rewrite Hp. cbn [present]. rewrite Hp. unfold id.
    set (w1 := sent _ w).
    destruct (IH fuel (LimitlessAPI.with_cursor cursor params) (Some (snd p)) (acc ++ fst p)
                w1 last c rest Hall Hc)
      as (w' & rqs & Hrun & Hnet' & Hrq & Hcs & Hv & Hsl & Hco & Hno).
    { unfold w1. cbn. by rewrite Hnet. }
    { simpl in Hfuel. lia. }
    exists w', (request_of key lifelogs_url (LimitlessAPI.with_cursor cursor params) :: rqs).
    rewrite Hrun, Hrq, Hsl, Hco, Hno. cbn [concat map]. rewrite <- !app_assoc.
    split; [done|]. split; [done|]. split; [unfold w1; cbn; by rewrite <- app_assoc|].
    split.
    { cbn [cursors_sent map request_of r_query]. f_equal. fold (cursors_sent rqs).
      rewrite Hcs. f_equal. unfold LimitlessAPI.with_cursor at 1. rewrite Hp.
      apply query_get_set_same. }
    split; [|done]. eapply vault_kept_trans; [|exact Hv]. by repeat split.
Qed.

(** X10: [getLifelogs] returns the lifelogs of all the pages of the day,
    in the order of the pages: when the service answers with pages that
    each name a next cursor, and then with a page that names none, the
    result is the lifelogs of these pages one after the other; the first
    request carries no cursor and each further request the cursor that the
    page before it named; every request carries the date; nothing is
    written, logged or waited for. *)
Theorem getLifelogs_accumulates
    (t : Z) (pages : list (list Lifelog * string)) (last : list Lifelog)
    (c : option string) (rest : list Reply) (w : World) :
  Forall (fun p => truthy (snd p) = true) pages ->
  present c = false ->
  net w = map lifelog_page pages ++ Demo.page_lifelogs last c :: rest ->
  exists w' rqs,
    LimitlessAPI.getLifelogs h key (Some t) w = (Ok (concat (map fst pages) ++ last), w') /\
    net w' = rest /\
    requests w' = requests w ++ rqs /\
    cursors_sent rqs = None :: map (fun p => Some (snd p)) pages /\
    dates_fetched rqs = repeat (Some (iso_day t)) (S (length pages)) /\
    vault_kept w w' /\ sleeps w' = sleeps w /\ console w' = console w.
Proof.
  intros Hall Hc Hnet.
  pose proof (getLifelogs_world h key (Some t) w) as Hw.
  unfold LimitlessAPI.getLifelogs in *. rewrite isoDate_valid in *.
  set (params := [("date"%string, iso_day t); _; _; _; _; _]) in *.
  destruct (getLifelogs_loop_pages pages (S (length (net w))) params None [] w last c rest
              Hall Hc Hnet) as (w' & rqs & Hrun & Hnet' & Hrq & Hcs & Hv & Hsl & Hco & _).
  { rewrite Hnet, length_app, length_map. lia. }
  cbv zeta in Hw. rewrite Hrun in Hw. cbn [fst snd] in Hw.
  destruct Hw as (_ & (rqs' & Hrq' & Hd & _) & _).
  rewrite Hrq in Hrq'. apply app_inv_head in Hrq'. subst rqs'.
  exists w', rqs. rewrite Hrun.
  split; [done|]. split; [done|]. split; [done|]. split; [done|].
  split; [|done].
  assert (Hlen : length rqs = S (length pages)).
  { apply (f_equal length) in Hcs. unfold cursors_sent in Hcs.
    by rewrite length_map in Hcs; simpl in Hcs; rewrite length_map in Hcs. }
  rewrite <- Hlen. unfold dates_fetched. clear -Hd.
  induction Hd as [|rq rqs Hq _ IH]; [done|]. cbn [map length repeat].
  f_equal; [by injection Hq | exact IH].
Qed.

(** The loop of [getLifelogs] when a page fails to arrive. *)
Lemma getLifelogs_loop_fails pages : forall fuel params cursor acc w r e rest,
  Forall (fun p => truthy (snd p) = true) pages ->
  reply_error r = Some e ->
  e_status e <> Some 429 ->
  net w = map lifelog_page pages ++ r :: rest ->
  (length pages < fuel)%nat ->
  exists w',
    LimitlessAPI.getLifelogs_loop h key fuel params cursor acc w = (Throw e, w') /\
    net w' = rest /\
    length (requests w') = (length (requests w) + S (length pages))%nat /\
    console w' = console w ++ ["Error making request:" +:+ " " +:+ e_message e;
                               "Error fetching lifelogs:" +:+ " " +:+ e_message e] /\
    vault_kept w w' /\ sleeps w' = sleeps w /\ notices w' = notices w.
Proof.
  induction pages as [|p pages IH];
    intros fuel params cursor acc w r e rest Hall He Hs Hnet Hfuel.
  - destruct fuel as [|fuel]; [simpl in Hfuel; lia|].
    rewrite getLifelogs_loop_step.
    rewrite (makeRequest_throw _ _ w e) by (by rewrite ?Hnet).
    eexists. split; [reflexivity|]. cbn. rewrite Hnet, length_app, <- app_assoc.
    by repeat split.
  - destruct fuel as [|fuel]; [simpl in Hfuel; lia|].
    apply Forall_cons in Hall as [Hp Hall].
    rewrite getLifelogs_loop_step.
    rewrite (makeRequest_ok _ _ w
               {| b_lifelogs := Some (fst p); b_lifelogsNext := Some (snd p); b_chats := None;
                  b_chatsNext := None |}) by (by rewrite Hnet).
    unfold LimitlessAPI.next_cursor. cbn [b_lifelogsNext b_lifelogs default present].
    rewrite Hp. cbn [present]. rewrite Hp. unfold id.
    set (w1 := sent _ w).
    destruct (IH fuel (LimitlessAPI.with_cursor cursor params) (Some (snd p)) (acc ++ fst p)
                w1 r e rest Hall He Hs)
      as (w' & Hrun & Hnet' & Hrq & Hco & Hv & Hsl & Hno).
    { unfold w1. cbn. by rewrite Hnet. }
    { simpl in Hfuel. lia. }
    exists w'. rewrite Hrun, Hrq, Hco, Hsl, Hno.
    split; [done|]. split; [done|].
    split; [unfold w1; cbn; rewrite length_app; simpl; lia|].
    split; [done|]. split; [|done].
    eapply vault_kept_trans; [|exact Hv]. by repeat split.
Qed.
End Pages.

Lemma getLifelogs_accumulates_witness :
  exists w' rqs,
    LimitlessAPI.getLifelogs Demo.host "key" (Some 1739059200000)
      (Demo.world 0 [lifelog_page ([meeting_lifelog], "c1"%string);
                     Demo.page_lifelogs [intro_lifelog] None]) =
      (Ok (concat (map fst [([meeting_lifelog], "c1"%string)]) ++ [intro_lifelog]), w') /\
    net w' = [] /\
    requests w' = [] ++ rqs /\
    cursors_sent rqs = None :: map (fun p => Some (snd p)) [([meeting_lifelog], "c1"%string)] /\
    dates_fetched rqs = repeat (Some (iso_day 1739059200000)) 2 /\
    vault_kept (Demo.world 0 [lifelog_page ([meeting_lifelog], "c1"%string);
                              Demo.page_lifelogs [intro_lifelog] None]) w' /\
    sleeps w' = [] /\ console w' = [].
Proof.
  apply (getLifelogs_accumulates Demo.host "key" 1739059200000
           [([meeting_lifelog], "c1"%string)] [intro_lifelog] None []
           (Demo.world 0 [lifelog_page ([meeting_lifelog], "c1"%string);
                          Demo.page_lifelogs [intro_lifelog] None])).
  - by repeat constructor.
  - reflexivity.
  - reflexivity.
Defined.

(** X11: a day of lifelogs is fetched whole or not at all.  When a page
    of the day fails to arrive (a failure other than a 429), [getLifelogs]
    throws that error and the lifelogs of the pages before it are lost with
    it; the step of the walk for that day throws as well, before it writes
    anything; the console holds the error twice, once from [makeRequest] and
    once from [getLifelogs]. *)
Theorem getLifelogs_all_or_nothing
    (h : Host) (settings : LimitlessLifelogsSettings) (folder : string) (t : Z)
    (pages : list (list Lifelog * string)) (r : Reply) (e : Err) (rest : list Reply)
    (w : World) :
  Forall (fun p => truthy (snd p) = true) pages ->
  reply_error r = Some e ->
  e_status e <> Some 429 ->
  net w = map lifelog_page pages ++ r :: rest ->
  exists w',
    LimitlessAPI.getLifelogs h (apiKey settings) (Some t) w = (Throw e, w') /\
    Plugin.syncLifelogs_day h settings folder (Some t) w = (Throw e, w') /\
    net w' = rest /\
    length (requests w') = (length (requests w) + S (length pages))%nat /\
    console w' = console w ++ ["Error making request:" +:+ " " +:+ e_message e;
                               "Error fetching lifelogs:" +:+ " " +:+ e_message e] /\
    vault_kept w w' /\ notices w' = notices w.
Proof.
  intros Hall He Hs Hnet.
  assert (Hget : exists w',
    LimitlessAPI.getLifelogs h (apiKey settings) (Some t) w = (Throw e, w') /\
    net w' = rest /\
    length (requests w') = (length (requests w) + S (length pages))%nat /\
    console w' = console w ++ ["Error making request:" +:+ " " +:+ e_message e;
                               "Error fetching lifelogs:" +:+ " " +:+ e_message e] /\
    vault_kept w w' /\ sleeps w' = sleeps w /\ notices w' = notices w).
  { unfold LimitlessAPI.getLifelogs. rewrite isoDate_valid.
    apply (getLifelogs_loop_fails h (apiKey settings) pages) with (r := r); try done.
    rewrite Hnet, length_app, length_map. lia. }
  destruct Hget as (w' & Hrun & Hnet' & Hrq & Hco & Hv & _ & Hno).
  exists w'. split; [done|]. split; [|done].
  by rewrite syncLifelogs_day_step, isoDate_valid, Hrun.
Qed.

Lemma getLifelogs_all_or_nothing_witness :
  exists w',
    LimitlessAPI.getLifelogs Demo.host (apiKey Demo.settings) (Some 1739059200000)
      (Demo.world 0 [lifelog_page ([meeting_lifelog], "c1"%string); Failure (Some 500) None]) =
      (Throw {| e_status := Some 500; e_retryAfter := None; e_message := "Request failed" |}, w') /\
    Plugin.syncLifelogs_day Demo.host Demo.settings "Limitless Lifelogs" (Some 1739059200000)
      (Demo.world 0 [lifelog_page ([meeting_lifelog], "c1"%string); Failure (Some 500) None]) =
      (Throw {| e_status := Some 500; e_retryAfter := None; e_message := "Request failed" |}, w') /\
    net w' = [] /\
    length (requests w') = (length (@nil Request) + 2)%nat /\
    console w' = [] ++ ["Error making request:" +:+ " " +:+ "Request failed";
                        "Error fetching lifelogs:" +:+ " " +:+ "Request failed"] /\
    vault_kept (Demo.world 0 [lifelog_page ([meeting_lifelog], "c1"%string);
                              Failure (Some 500) None]) w' /\
    notices w' = [].
Proof.
  apply (getLifelogs_all_or_nothing Demo.host Demo.settings "Limitless Lifelogs" 1739059200000
           [([meeting_lifelog], "c1"%string)] (Failure (Some 500) None)
           {| e_status := Some 500; e_retryAfter := None; e_message := "Request failed" |} []
           (Demo.world 0 [lifelog_page ([meeting_lifelog], "c1"%string);
                          Failure (Some 500) None])).
  - by repeat constructor.
  - reflexivity.
  - discriminate.
  - reflexivity.
Defined.

(** ** The chat sync, continued *)

Section ChatRun.
Variable h : Host.
Variable settings : LimitlessLifelogsSettings.

Local Abbreviation chat_folder := (normalizePath h (chatFolderPath settings)).

(** The world in which the loop of [syncChats] starts. *)
Lemma syncChats_run w :
  syncChatsEnabled settings = true ->
  truthy (apiKey settings) = true ->
  exists wb,
    vault_kept w wb /\ net wb = net w /\ requests wb = requests w /\
    console wb = console w /\ notices wb = notices w ++ ["Starting chat sync..."%string] /\
    Plugin.syncChats h settings w =
    match Plugin.syncChats_loop h settings (S (length (net wb))) chat_folder None 0 wb with
    | (Ok m, wc) =>
        (Ok tt, noticed ("Chat sync complete! Processed " +:+ of_Z m +:+ " chats.") wc)
    | (Throw e, wc) =>
        (Ok tt, noticed "Error syncing chats. Check console for details."
                  (logged "Error syncing chats:" e wc))
    | (Diverge, wc) => (Diverge, wc)
    end.
Proof.
  intros Hen Hkey. unfold Plugin.syncChats. rewrite Hen, Hkey. cbn [negb].
  unfold try_catch. unfold bind at 1. unfold ensureFolderExists.
  destruct (decide (chat_folder ∈ folders w)).
  - exists (noticed "Starting chat sync..." w). repeat split.
    unfold bind at 1. unfold Notice at 1. unfold bind at 1.
    by destruct (Plugin.syncChats_loop h settings _ _ None 0 _) as [[m|er|] wc].
  - exists (noticed "Starting chat sync..." (with_folder chat_folder w)). repeat split.
    unfold bind at 1. unfold Notice at 1. unfold bind at 1.
    by destruct (Plugin.syncChats_loop h settings _ _ None 0 _) as [[m|er|] wc].
Qed.

Lemma getChats_throw params w e :
  reply_error (hd unreachable (net w)) = Some e ->
  e_status e <> Some 429 ->
  LimitlessAPI.getChats h (apiKey settings) params w =
  (Throw (if status_is e 404 then Error "Chats not found or access denied"
          else if status_is e 401 then Error "Invalid API key or unauthorized access"
          else e),
   logged "Error making request:" e
     (sent (request_of (apiKey settings) (LimitlessAPI.baseUrl +:+ "/v1/chats")
              (LimitlessAPI.chat_query params)) w)).
Proof.
  intros He Hs. unfold LimitlessAPI.getChats, try_catch. unfold bind at 1.
  rewrite (makeRequest_throw h (apiKey settings) _ _ w e He Hs).
  by destruct (status_is e 404), (status_is e 401).
Qed.
End ChatRun.

(** X12: when the first request of a chat sync is refused, the sync
    stops there and tells the cause on the console.  The error that is not
    a 429 is logged by [makeRequest], replaced by [getChats] when its status
    is 404 or 401 (the replacement carries a message and no status), and
    logged again by [syncChats], which shows the failure notice and returns
    normally; one request has been sent and the vault is as before. *)
Theorem syncChats_refused
    (h : Host) (settings : LimitlessLifelogsSettings) (w : World) (e : Err) :
  syncChatsEnabled settings = true ->
  truthy (apiKey settings) = true ->
  reply_error (reply_at w 0) = Some e ->
  e_status e <> Some 429 ->
  let cause :=
    if status_is e 404 then "Chats not found or access denied"%string
    else if status_is e 401 then "Invalid API key or unauthorized access"%string
    else e_message e in
  exists w',
    Plugin.syncChats h settings w = (Ok tt, w') /\
    notices w' = notices w ++ ["Starting chat sync...";
                               "Error syncing chats. Check console for details."]%string /\
    console w' = console w ++ ["Error making request:" +:+ " " +:+ e_message e;
                               "Error syncing chats:" +:+ " " +:+ cause] /\
    length (requests w') = S (length (requests w)) /\
    vault_kept w w'.
Proof.
  intros Hen Hkey He Hs cause. rewrite reply_at_0 in He.
  destruct (syncChats_run h settings w Hen Hkey) as (wb & Hv & Hnet & Hrq & Hco & Hno & ->).
  rewrite syncChats_loop_step.
  rewrite (getChats_throw h settings _ wb e) by (by rewrite ?Hnet).
  eexists. split; [reflexivity|]. cbn. rewrite Hno, Hco, Hrq, <- !app_assoc, length_app.
  destruct Hv as (Hv1 & Hv2 & Hv3).
  split; [done|]. split.
  { subst cause. by destruct (status_is e 404), (status_is e 401). }
  split; [simpl; lia|]. by repeat split.
Qed.

Lemma syncChats_refused_witness :
  exists w',
    Plugin.syncChats Demo.host Demo.settings (Demo.world 0 [Failure (Some 401) None]) =
      (Ok tt, w') /\
    notices w' = [] ++ ["Starting chat sync...";
                        "Error syncing chats. Check console for details."]%string /\
    console w' = [] ++ ["Error making request:" +:+ " " +:+ "Request failed";
                        "Error syncing chats:" +:+ " " +:+
                        "Invalid API key or unauthorized access"] /\
    length (requests w') = 1%nat /\
    vault_kept (Demo.world 0 [Failure (Some 401) None]) w'.
Proof.
  apply (syncChats_refused Demo.host Demo.settings (Demo.world 0 [Failure (Some 401) None])
           {| e_status := Some 401; e_retryAfter := None; e_message := "Request failed" |}).
  - reflexivity.
  - reflexivity.
  - reflexivity.
  - discriminate.
Defined.

(** X13: [deleteChat] sends exactly one request, whatever the answer: it
    does not go through [makeRequest], so a 429 is thrown at once, without
    a wait, a notice or a second attempt; any response counts as success,
    with or without a body; a 404 and a 401 are replaced by errors that
    carry a message only; the vault and the console stay as they are. *)
Theorem deleteChat_single_request (key id : string) (w : World) :
  let r := LimitlessAPI.deleteChat key id w in
  let rq := {| r_url := LimitlessAPI.baseUrl +:+ "/v1/chats/" +:+ id; r_query := [];
               r_apiKey := key |} in
  snd r = sent rq w /\
  (forall json, reply_at w 0 = Response json -> fst r = Ok true) /\
  (forall ra, reply_at w 0 = rate_limited ra ->
     fst r = Throw {| e_status := Some 429; e_retryAfter := ra;
                      e_message := "Request failed" |}) /\
  (forall ra, reply_at w 0 = Failure (Some 404) ra ->
     fst r = Throw (Error "Chat not found or access denied")) /\
  (forall ra, reply_at w 0 = Failure (Some 401) ra ->
     fst r = Throw (Error "Invalid API key or unauthorized access")) /\
  (net w = [] -> fst r = Throw {| e_status := None; e_retryAfter := None;
                                  e_message := "Request failed" |}).
Proof.
  intros r rq. subst r. rewrite reply_at_0.
  unfold LimitlessAPI.deleteChat, try_catch, bind, requestUrl. fold rq.
  destruct (hd unreachable (net w)) as [json|st ra] eqn:Hr.
  - cbn. split; [done|]. split; [done|]. split; [done|]. split; [done|]. split; [done|].
    intros Hn. by rewrite Hn in Hr.
  - set (e := {| e_status := st; e_retryAfter := ra; e_message := "Request failed" |}).
    split; [by destruct (status_is e 404), (status_is e 401)|].
    split; [done|].
    split; [by intros ra' [= -> ->]|].
    split; [by intros ra' [= -> ->]|].
    split; [by intros ra' [= -> ->]|].
    intros Hn. rewrite Hn in Hr. simpl in Hr. unfold unreachable in Hr.
    injection Hr as <- <-. reflexivity.
Qed.

(** ** How far the chat sync can pass its cap *)

Section Cap.
Variable h : Host.
Variable settings : LimitlessLifelogsSettings.




End Cap.



(** ** What the chat sync writes *)

Section ChatWrites.
Variable h : Host.
Variable settings : LimitlessLifelogsSettings.
Variable folder : string.

Lemma getChatFilePath_prefix chat p :
  Plugin.getChatFilePath h settings chat folder = Some p ->
  startsWith p (folder +:+ "/") = true.
Proof.
  unfold Plugin.getChatFilePath, startsWith.
  repeat match goal with
         | |- context [if ?b then _ else _] => destruct b
         | |- context [match ?o with Some _ => _ | None => _ end] => destruct o
         end; intros [= <-]; rewrite <- (append_assoc folder "/"); apply prefix_append.
Qed.

Lemma processChatFile_writes chat w :
  exists ws,
    writes (snd (Plugin.processChatFile h settings chat folder w)) = writes w ++ ws /\
    Forall (fun pc => Plugin.getChatFilePath h settings chat folder = Some (fst pc) /\
                      snd pc = Plugin.formatChatMarkdown h chat) ws.
Proof.
  rewrite processChatFile_cases.
  destruct (Plugin.getChatFilePath h settings chat folder) as [p|].
  - cbv zeta. destruct (Plugin.differs _ _).
    + destruct (decide _); eexists [_]; (split; [reflexivity|]); by repeat constructor.
    + exists []. by rewrite app_nil_r.
  - exists []. by rewrite app_nil_r.
Qed.

Lemma for_of_writes cs : forall n w,
  exists ws,
    writes (snd (for_of cs (Plugin.count_chat h settings folder) n w)) = writes w ++ ws /\
    Forall (fun pc => exists c, c ∈ cs /\
                        Plugin.getChatFilePath h settings c folder = Some (fst pc) /\
                        snd pc = Plugin.formatChatMarkdown h c) ws.
Proof.
  induction cs as [|c cs IH]; intros n w.
  - exists []. by rewrite app_nil_r.
  - rewrite for_of_cons.
    destruct (processChatFile_writes c w) as (ws1 & Hw1 & Hall1).
    destruct (IH (n + 1) (snd (Plugin.processChatFile h settings c folder w)))
      as (ws2 & Hw2 & Hall2).
    exists (ws1 ++ ws2). rewrite Hw2, Hw1, <- app_assoc. split; [done|].
    apply Forall_app. split.
    + eapply Forall_impl; [exact Hall1|]. intros pc [? ?]. exists c. split; [left|done].
    + eapply Forall_impl; [exact Hall2|]. intros pc (c' & ? & ?). exists c'. split; [by right|done].
Qed.
End ChatWrites.

(** X15: a chat sync touches the files of its chats and no other.  Every
    write of the sync goes to the path of one of the chats it processed,
    with the rendering of that chat as content; every such path begins with
    the chat folder and a slash; and a file at any other path has the
    content it had before. *)
Theorem syncChats_frame (h : Host) (settings : LimitlessLifelogsSettings) (w : World) :
  let plan := sync_plan h settings (net w) in
  let w' := snd (Plugin.syncChats h settings w) in
  (exists ws,
     writes w' = writes w ++ ws /\
     Forall (fun pc => exists c, c ∈ plan /\
               Plugin.getChatFilePath h settings c (normalizePath h (chatFolderPath settings)) =
                 Some (fst pc) /\
               snd pc = Plugin.formatChatMarkdown h c /\
               startsWith (fst pc) (normalizePath h (chatFolderPath settings) +:+ "/") = true)
       ws) /\
  (forall q, q ∉ chat_paths h settings plan -> files w' !! q = files w !! q) /\
  faulty w' = faulty w.
Proof.
  intros plan w'.
  destruct (syncChats_plan h settings w) as (w1 & Hrun & Hf & Hw & Hfa).
  subst w'. rewrite Hrun. cbn [snd]. fold plan in Hf, Hw, Hfa.
  set (folder := normalizePath h (chatFolderPath settings)) in *.
  split; [|split].
  - destruct (for_of_writes h settings folder plan 0 w) as (ws & Hws & Hall).
    exists ws. rewrite Hw, Hws. split; [done|].
    eapply Forall_impl; [exact Hall|]. intros pc (c & Hin & Hp & Hc).
    exists c. repeat split; try done. by eapply getChatFilePath_prefix.
  - intros q Hq. rewrite Hf. by apply for_of_files_other.
  - rewrite Hfa. apply for_of_faulty.
Qed.

Section Within.
Variable h : Host.
Variable settings : LimitlessLifelogsSettings.





End Within.



(** ** The lifelog sync, continued *)

Section LifelogRun.
Variable h : Host.
Variable settings : LimitlessLifelogsSettings.

Local Abbreviation lifelog_folder := (normalizePath h (folderPath settings)).

(** The world in which the walk of [syncLifelogs] starts, and how its end
    is reported. *)
Lemma syncLifelogs_shape w :
  truthy (apiKey settings) = true ->
  exists wb,
    vault_kept w wb /\ net wb = net w /\ requests wb = requests w /\
    console wb = console w /\ sleeps wb = sleeps w /\
    notices wb = notices w ++ ["Starting Limitless lifelog sync..."%string] /\
    Plugin.syncLifelogs h settings w =
    match Plugin.syncLifelogs_loop h settings (S (length (net wb))) lifelog_folder
            (walk_start h settings w) (Some (clock w)) wb with
    | (Ok _, wc) => (Ok tt, noticed "Limitless lifelog sync complete!" wc)
    | (Throw e, wc) =>
        (Ok tt, noticed "Error syncing Limitless lifelogs. Check console for details."
                  (logged "Error syncing lifelogs:" e wc))
    | (Diverge, wc) => (Diverge, wc)
    end.
Proof.
  intros Hkey. unfold Plugin.syncLifelogs. rewrite Hkey. cbn [negb].
  unfold try_catch. unfold bind at 1. unfold ensureFolderExists.
  destruct (decide (lifelog_folder ∈ folders w)) as [Hin|Hin].
  - exists (noticed "Starting Limitless lifelog sync..." w). repeat split.
    unfold bind at 1. unfold Plugin.getLastSyncedDate, bind at 1, getFiles, ret at 1.
    unfold bind at 1. unfold now at 1. unfold bind at 1. unfold Notice at 1.
    unfold bind at 1. fold (walk_start h settings w).
    by destruct (Plugin.syncLifelogs_loop h settings _ _ _ _ _) as [[[]|er|] wc].
  - exists (noticed "Starting Limitless lifelog sync..." (with_folder lifelog_folder w)).
    repeat split.
    unfold bind at 1. unfold Plugin.getLastSyncedDate, bind at 1, getFiles, ret at 1.
    unfold bind at 1. unfold now at 1. unfold bind at 1. unfold Notice at 1.
    unfold bind at 1. cbn [files with_folder clock]. fold (walk_start h settings w).
    by destruct (Plugin.syncLifelogs_loop h settings _ _ _ _ _) as [[[]|er|] wc].
Qed.

(** A day whose lifelogs come in one page. *)
Lemma getLifelogs_single t ls c rest w :
  present c = false ->
  net w = Demo.page_lifelogs ls c :: rest ->
  exists rq,
    LimitlessAPI.getLifelogs h (apiKey settings) (Some t) w = (Ok ls, sent rq w) /\
    query_get "date" (r_query rq) = Some (iso_day t).
Proof.
  intros Hc Hnet. unfold LimitlessAPI.getLifelogs. rewrite isoDate_valid.
  rewrite getLifelogs_loop_step. cbn [LimitlessAPI.with_cursor].
  rewrite (makeRequest_ok h (apiKey settings) _ _ w
             {| b_lifelogs := Some ls; b_lifelogsNext := c; b_chats := None;
                b_chatsNext := None |}) by (by rewrite Hnet).
  unfold LimitlessAPI.next_cursor. cbn [b_lifelogsNext b_lifelogs default]. rewrite Hc.
  cbn [present]. eexists. split; [reflexivity|]. reflexivity.
Qed.

Lemma stored_app ws1 ws2 fs : stored (ws1 ++ ws2) fs = stored ws2 (stored ws1 fs).
Proof. unfold stored. by rewrite foldl_app. Qed.

(** One day of the walk, its lifelogs coming in one page. *)
Lemma syncLifelogs_day_single t ls rest w :
  net w = day_page ls :: rest ->
  lifelog_path h settings t ∉ faulty w ->
  exists w' rq,
    Plugin.syncLifelogs_day h settings lifelog_folder (Some t) w = (Ok tt, w') /\
    net w' = rest /\
    requests w' = requests w ++ [rq] /\
    query_get "date" (r_query rq) = Some (iso_day t) /\
    writes w' = writes w ++ day_writes h settings t [ls] /\
    files w' = stored (day_writes h settings t [ls]) (files w) /\
    faulty w' = faulty w /\ console w' = console w /\ sleeps w' = sleeps w.
Proof.
  intros Hnet Hok.
  destruct (getLifelogs_single t ls None rest w eq_refl Hnet) as (rq & Hget & Hd).
  rewrite syncLifelogs_day_step, isoDate_valid, Hget.
  cbn [day_writes]. rewrite app_nil_r.
  destruct (0 <? length ls)%nat.
  - cbv zeta. fold (lifelog_path h settings t).
    rewrite decide_False by done.
    eexists _, rq. split; [reflexivity|]. cbn. by rewrite Hnet.
  - eexists _, rq. split; [reflexivity|]. cbn. rewrite Hnet, app_nil_r. by repeat split.
Qed.

(** The walk over days that all arrive, one page each. *)
Lemma syncLifelogs_loop_days e days : forall fuel c rest w,
  (forall k : nat, (k < length days)%nat -> walk_day h c k <= e) ->
  e < walk_day h c (length days) ->
  net w = map day_page days ++ rest ->
  faulty w = ∅ ->
  (length days < fuel)%nat ->
  exists w' rqs,
    Plugin.syncLifelogs_loop h settings fuel lifelog_folder (Some c) (Some e) w = (Ok tt, w') /\
    net w' = rest /\
    requests w' = requests w ++ rqs /\
    dates_fetched rqs = map Some (walk_days h c (length days)) /\
    writes w' = writes w ++ day_writes h settings c days /\
    files w' = stored (day_writes h settings c days) (files w) /\
    console w' = console w /\ sleeps w' = sleeps w.
Proof.
  induction days as [|ls days IH]; intros fuel c rest w Hin Hout Hnet Hfa Hfuel.
  - destruct fuel as [|fuel]; [simpl in Hfuel; lia|].
    rewrite syncLifelogs_loop_step. cbn [JsDate.leb].
    simpl in Hout. rewrite (proj2 (Z.leb_gt c e)) by lia.
    exists w, []. cbn. rewrite !app_nil_r. by repeat split.
  - destruct fuel as [|fuel]; [simpl in Hfuel; lia|].
    rewrite syncLifelogs_loop_step. cbn [JsDate.leb].
    pose proof (Hin 0%nat ltac:(simpl; lia)) as H0. simpl in H0.
    rewrite (proj2 (Z.leb_le c e)) by lia.
    destruct (syncLifelogs_day_single c ls (map day_page days ++ rest) w)
      as (w1 & rq & Hday & Hnet1 & Hrq1 & Hd1 & Hw1 & Hf1 & Hfa1 & Hco1 & Hsl1).
    { by rewrite Hnet. }
    { rewrite Hfa. set_solver. }
    rewrite Hday. cbn [JsDate.nextDay option_map].
    destruct (IH fuel (setNextDate h c) rest w1)
      as (w' & rqs & Hrun & Hnet' & Hrq & Hds & Hw & Hf & Hco & Hsl).
    { intros k Hk. exact (Hin (S k) ltac:(simpl; lia)). }
    { exact Hout. }
    { done. }
    { by rewrite Hfa1. }
    { simpl in Hfuel. lia. }
    exists w', (rq :: rqs). rewrite Hrun, Hrq, Hrq1, Hw, Hw1, Hf, Hf1, Hco, Hco1, Hsl, Hsl1.
    rewrite <- !app_assoc.
    split; [done|]. split; [done|]. split; [done|]. split.
    { cbn [dates_fetched map length]. fold (dates_fetched rqs). rewrite Hds. unfold walk_days.
      cbn [seq map walk_day]. f_equal; [by rewrite Hd1|].
      by rewrite <- seq_shift, !map_map. }
    split.
    { f_equal. cbn [day_writes]. by rewrite app_nil_r. }
    split; [|done].
    change (day_writes h settings c (ls :: days)) with
      ((if (0 <? length ls)%nat
        then [(lifelog_path h settings c,
               join (nl +:+ nl) (map (Plugin.formatLifelogMarkdown h) ls))]
        else []) ++ day_writes h settings (setNextDate h c) days).
    rewrite stored_app. cbn [day_writes]. by rewrite app_nil_r.
Qed.

(** On a host whose days all have 24 hours the walk goes by days of 24
    hours. *)
Lemma walk_day_fixed k : forall c,
  (forall t, setNextDate h t = t + JsDate.msPerDay) ->
  walk_day h c k = c + Z.of_nat k * JsDate.msPerDay.
Proof.
  induction k as [|k IH]; intros c Hstep; [simpl; lia|].
  cbn [walk_day]. rewrite IH, Hstep by done. lia.
Qed.

Lemma days_between_unique c e (n : nat) :
  c <= e ->
  (forall k : nat, (k < n)%nat -> c + Z.of_nat k * JsDate.msPerDay <= e) ->
  e < c + Z.of_nat n * JsDate.msPerDay ->
  n = days_between c e.
Proof.
  intros Hle Hin Hout. unfold days_between, JsDate.msPerDay in *.
  assert (H0 : 0 <= (e - c) / 86400000) by (apply Z.div_pos; lia).
  pose proof (Z.mul_div_le (e - c) 86400000 ltac:(lia)) as H1.
  pose proof (Z.mul_succ_div_gt (e - c) 86400000 ltac:(lia)) as H2.
  set (q := (e - c) / 86400000) in *.
  assert (Hn1 : q + 1 <= Z.of_nat n) by nia.
  assert (Hn2 : Z.of_nat n <= q + 1).
  { destruct (Z_le_gt_dec (Z.of_nat n) (q + 1)) as [|Hgt]; [done|].
    specialize (Hin (Z.to_nat (q + 1)) ltac:(lia)). rewrite Z2Nat.id in Hin by lia. nia. }
  lia.
Qed.
End LifelogRun.

(** X17: a lifelog sync makes one request for each day of its walk, in
    order, and writes one file for each of these days that has lifelogs.
    The walk starts at [c] and goes on by the host's step to the next local
    day as long as it has not passed the present; [days] holds the lifelogs
    of its days.  When the vault accepts writes and the service answers
    each day with one page, the sync returns; the dates it has requested
    are those of the days of the walk, one request each; it has written, in
    this order, the file [{folder}/{date}.md] of each day whose page holds
    a lifelog, with the renderings of the lifelogs of that day joined by an
    empty line, whether or not the file was there before; and its last
    notice is the notice of completion.  On a host whose days all have 24
    hours (a zone of fixed offset) these days are [c], [c] plus one day, and
    so on up to now: every calendar day from the start to now, once.  (In a
    zone with daylight-saving time a step of 23 or 25 hours can make two
    days of the walk fall on one calendar date.) *)
Theorem syncLifelogs_walks_every_day
    (h : Host) (settings : LimitlessLifelogsSettings) (w : World) (c : Z)
    (days : list (list Lifelog)) (rest : list Reply) :
  truthy (apiKey settings) = true ->
  walk_start h settings w = Some c ->
  (forall k : nat, (k < length days)%nat -> walk_day h c k <= clock w) ->
  clock w < walk_day h c (length days) ->
  net w = map day_page days ++ rest ->
  faulty w = ∅ ->
  (exists w' rqs,
     Plugin.syncLifelogs h settings w = (Ok tt, w') /\
     net w' = rest /\
     requests w' = requests w ++ rqs /\
     dates_fetched rqs = map Some (walk_days h c (length days)) /\
     writes w' = writes w ++ day_writes h settings c days /\
     files w' = stored (day_writes h settings c days) (files w) /\
     last (notices w') = Some "Limitless lifelog sync complete!"%string /\
     console w' = console w /\ sleeps w' = sleeps w) /\
  ((forall t, setNextDate h t = t + JsDate.msPerDay) ->
   c <= clock w ->
   length days = days_between c (clock w) /\
   walk_days h c (length days) =
     map (fun k => iso_day (c + Z.of_nat k * JsDate.msPerDay)) (seq 0 (length days))).
Proof.
  intros Hkey Hstart Hin Hout Hnet Hfa. split.
  - destruct (syncLifelogs_shape h settings w Hkey)
      as (wb & (Hvf & Hvw & Hvfa) & Hnb & Hrb & Hcb & Hsb & Hno & ->).
    rewrite Hstart.
    destruct (syncLifelogs_loop_days h settings (clock w) days (S (length (net wb))) c rest wb)
      as (w' & rqs & Hrun & Hnet' & Hrq & Hds & Hw & Hf & Hco & Hsl); try done.
    { by rewrite Hnb. }
    { by rewrite Hvfa. }
    { rewrite Hnb, Hnet, length_app, length_map. lia. }
    rewrite Hrun. eexists _, rqs. split; [reflexivity|].
    cbn [net requests writes files notices console sleeps noticed].
    rewrite Hrq, Hrb, Hw, Hvw, Hf, Hvf, Hco, Hcb, Hsl, Hsb, last_snoc.
    by repeat split.
  - intros Hstep Hle. split.
    + apply days_between_unique; [done| |].
      * intros k Hk. rewrite <- (walk_day_fixed h k c Hstep). by apply Hin.
      * rewrite <- (walk_day_fixed h _ c Hstep). exact Hout.
    + unfold walk_days. apply map_ext. intros k. by rewrite (walk_day_fixed h k c Hstep).
Qed.

Lemma syncLifelogs_walks_every_day_witness :
  (exists w' rqs,
     Plugin.syncLifelogs Demo.host Demo.settings
       (synced_world [day_page [meeting_lifelog]; day_page []]) = (Ok tt, w') /\
     net w' = [] /\
     requests w' = [] ++ rqs /\
     dates_fetched rqs = map Some (walk_days Demo.host 1739059200000 2) /\
     writes w' = [] ++ day_writes Demo.host Demo.settings 1739059200000 [[meeting_lifelog]; []] /\
     files w' =
       stored (day_writes Demo.host Demo.settings 1739059200000 [[meeting_lifelog]; []])
         (files (synced_world [day_page [meeting_lifelog]; day_page []])) /\
     last (notices w') = Some "Limitless lifelog sync complete!"%string /\
     console w' = [] /\ sleeps w' = []) /\
  ((forall t, setNextDate Demo.host t = t + JsDate.msPerDay) ->
   1739059200000 <= 1739188800000 ->
   2%nat = days_between 1739059200000 1739188800000 /\
   walk_days Demo.host 1739059200000 2 =
     map (fun k => iso_day (1739059200000 + Z.of_nat k * JsDate.msPerDay)) (seq 0 2)).
Proof.
  apply (syncLifelogs_walks_every_day Demo.host Demo.settings
           (synced_world [day_page [meeting_lifelog]; day_page []]) 1739059200000
           [[meeting_lifelog]; []] []).
  - reflexivity.
  - vm_compute. reflexivity.
  - intros [|[|k]] Hk; [vm_compute; discriminate | vm_compute; discriminate | simpl in Hk; lia].
  - vm_compute. reflexivity.
  - reflexivity.
  - reflexivity.
Defined.

(** X18: a lifelog sync with nothing to walk says that it is complete.
    When the walk has no date to start at (the host reads no date from the
    name of the newest date-named file, or there is no such file and it
    reads none from the start date of the settings) or its start lies
    after the present, the sync sends no request and writes nothing, and
    its notices are the two of a sync that went well. *)
Theorem syncLifelogs_nothing_to_do
    (h : Host) (settings : LimitlessLifelogsSettings) (w : World) :
  truthy (apiKey settings) = true ->
  (forall c, walk_start h settings w = Some c -> clock w < c) ->
  exists w',
    Plugin.syncLifelogs h settings w = (Ok tt, w') /\
    requests w' = requests w /\ net w' = net w /\ vault_kept w w' /\
    console w' = console w /\
    notices w' = notices w ++ ["Starting Limitless lifelog sync...";
                               "Limitless lifelog sync complete!"]%string.
Proof.
  intros Hkey Hstart.
  destruct (syncLifelogs_shape h settings w Hkey)
    as (wb & Hv & Hnb & Hrb & Hcb & Hsb & Hno & ->).
  rewrite syncLifelogs_loop_step.
  assert (Hleb : JsDate.leb (walk_start h settings w) (Some (clock w)) = false).
  { destruct (walk_start h settings w) as [c|]; [|done].
    cbn [JsDate.leb]. apply Z.leb_gt, Hstart. reflexivity. }
  rewrite Hleb. eexists. split; [reflexivity|].
  cbn [requests net console notices noticed]. rewrite Hno, <- app_assoc.
  destruct Hv as (? & ? & ?). by repeat split.
Qed.

Lemma syncLifelogs_nothing_to_do_witness :
  let settings := {| apiKey := "key"; folderPath := "Limitless Lifelogs";
                     startDate := "tomorrow"; chatFolderPath := "Limitless Chats";
                     syncChatsEnabled := false; chatFileFormat := "per-chat";
                     maxChatsPerSync := 50 |} in
  exists w',
    Plugin.syncLifelogs Demo.host settings (Demo.world 1739188800000 [day_page [meeting_lifelog]])
      = (Ok tt, w') /\
    requests w' = [] /\ net w' = [day_page [meeting_lifelog]] /\
    vault_kept (Demo.world 1739188800000 [day_page [meeting_lifelog]]) w' /\
    console w' = [] /\
    notices w' = [] ++ ["Starting Limitless lifelog sync...";
                        "Limitless lifelog sync complete!"]%string.
Proof.
  apply (syncLifelogs_nothing_to_do Demo.host
           {| apiKey := "key"; folderPath := "Limitless Lifelogs";
              startDate := "tomorrow"; chatFolderPath := "Limitless Chats";
              syncChatsEnabled := false; chatFileFormat := "per-chat";
              maxChatsPerSync := 50 |}
           (Demo.world 1739188800000 [day_page [meeting_lifelog]])).
  - reflexivity.
  - intros c Hc. vm_compute in Hc. discriminate Hc.
Defined.

(** X19: a write that the vault rejects ends the lifelog sync.  When the
    file of the first day of the walk cannot be written, the error is not
    caught at that day (as it is for a chat): the walk stops, no later day
    is requested, the files are as before, the console holds the error and
    the last notice is the failure notice. *)
Theorem syncLifelogs_write_rejected
    (h : Host) (settings : LimitlessLifelogsSettings) (w : World) (c : Z)
    (ls : list Lifelog) (rest : list Reply) :
  truthy (apiKey settings) = true ->
  walk_start h settings w = Some c ->
  c <= clock w ->
  net w = day_page ls :: rest ->
  ls <> [] ->
  lifelog_path h settings c ∈ faulty w ->
  exists w',
    Plugin.syncLifelogs h settings w = (Ok tt, w') /\
    net w' = rest /\
    length (requests w') = S (length (requests w)) /\
    files w' = files w /\
    console w' = console w ++ ["Error syncing lifelogs:" +:+ " " +:+ "EACCES"] /\
    last (notices w') = Some "Error syncing Limitless lifelogs. Check console for details."%string.
Proof.
  intros Hkey Hstart Hle Hnet Hls Hfa.
  destruct (syncLifelogs_shape h settings w Hkey)
    as (wb & (Hvf & Hvw & Hvfa) & Hnb & Hrb & Hcb & Hsb & Hno & ->).
  rewrite Hstart, syncLifelogs_loop_step. cbn [JsDate.leb].
  rewrite (proj2 (Z.leb_le c (clock w))) by done.
  destruct (getLifelogs_single h settings c ls None rest wb eq_refl) as (rq & Hget & _).
  { by rewrite Hnb. }
  rewrite syncLifelogs_day_step, isoDate_valid, Hget.
  destruct ls as [|l ls]; [done|]. cbn [length Nat.ltb Nat.leb]. cbv zeta.
  fold (lifelog_path h settings c).
  rewrite decide_True by (cbn [faulty sent]; by rewrite Hvfa).
  eexists. split; [reflexivity|].
  cbn [net requests files console notices noticed logged rejected sent].
  rewrite Hnb, Hnet, Hrb, Hvf, Hcb, last_snoc, length_app. simpl. repeat split; try done. lia.
Qed.

Lemma syncLifelogs_write_rejected_witness :
  let w := {| files := ∅; folders := ∅;
              faulty := {[ "Limitless Lifelogs/2025-02-09.md"%string ]};
              net := [day_page [meeting_lifelog]; day_page [intro_lifelog]];
              clock := 1739188800000; requests := []; sleeps := []; writes := [];
              notices := []; console := [] |} in
  exists w',
    Plugin.syncLifelogs Demo.host Demo.settings w = (Ok tt, w') /\
    net w' = [day_page [intro_lifelog]] /\
    length (requests w') = 1%nat /\
    files w' = ∅ /\
    console w' = [] ++ ["Error syncing lifelogs:" +:+ " " +:+ "EACCES"] /\
    last (notices w') = Some "Error syncing Limitless lifelogs. Check console for details."%string.
Proof.
  apply (syncLifelogs_write_rejected Demo.host Demo.settings
           {| files := ∅; folders := ∅;
              faulty := {[ "Limitless Lifelogs/2025-02-09.md"%string ]};
              net := [day_page [meeting_lifelog]; day_page [intro_lifelog]];
              clock := 1739188800000; requests := []; sleeps := []; writes := [];
              notices := []; console := [] |}
           1739059200000 [meeting_lifelog] [day_page [intro_lifelog]]).
  - reflexivity.
  - vm_compute. reflexivity.
  - vm_compute. discriminate.
  - reflexivity.
  - discriminate.
  - vm_compute. set_solver.
Defined.

(** ** The names of the lifelog files *)

Lemma all_days_spec n : forall z p,
  all_days n z p = true -> forall x, z <= x < z + Z.of_nat n -> p x = true.
Proof.
  induction n as [|n IH]; intros z p H x Hx; [lia|].
  cbn [all_days] in H. apply andb_true_iff in H as [Hz H].
  destruct (Z.eq_dec x z) as [->|Hne]; [done|].
  apply (IH (z + 1) p H). lia.
Qed.

Lemma startsWith_append (p s : string) : startsWith (p +:+ s) p = true.
Proof. apply prefix_append. Qed.

Lemma substring_all (s : string) : String.substring 0 (String.length s) s = s.
Proof. induction s as [|a s IH]; [done|]. simpl. by rewrite IH. Qed.

Lemma substring_skip (a s : string) m :
  String.substring (String.length a) m (a +:+ s) = String.substring 0 m s.
Proof. induction a as [|x a IH]; [done|]. rewrite append_cons. simpl. exact IH. Qed.

Lemma endsWith_append (a p : string) : endsWith (a +:+ p) p = true.
Proof.
  unfold endsWith. rewrite length_append.
  rewrite (proj2 (Nat.leb_le _ _)) by lia.
  replace (String.length a + String.length p - String.length p)%nat with (String.length a) by lia.
  rewrite substring_skip, substring_all. apply String.eqb_refl.
Qed.

Lemma includes_char_lacks c s : lacks c s = true -> includes (String c EmptyString) s = false.
Proof.
  induction s as [|a s IH]; [done|]. cbn [lacks]. intros [Ha Hs]%andb_true_iff.
  rewrite includes_unfold, (IH Hs), orb_false_r. simpl.
  destruct (Ascii.ascii_dec c a) as [->|]; [|done]. by rewrite Ascii.eqb_refl in Ha.
Qed.

Lemma includes_char_append c a s :
  includes (String c EmptyString) (a +:+ String c s) = true.
Proof. exact (includes_append (String c EmptyString) a s). Qed.

(** The last segment of a path. *)
Lemma after_last_append c (a s : string) :
  lacks c s = true -> Plugin.after_last c (a +:+ String c s) = s.
Proof.
  intros Hs. induction a as [|x a IH].
  - rewrite append_nil. cbn [Plugin.after_last].
    by rewrite Ascii.eqb_refl, (includes_char_lacks c s Hs).
  - rewrite append_cons. cbn [Plugin.after_last].
    rewrite (includes_char_append c a s). cbn [negb]. rewrite andb_false_r.
    rewrite includes_unfold, (includes_char_append c a s), orb_true_r. exact IH.
Qed.

(** A name without its extension. *)
Lemma before_last_append c (a s : string) :
  lacks c s = true -> Plugin.before_last c (a +:+ String c s) = a.
Proof.
  intros Hs. induction a as [|x a IH].
  - rewrite append_nil. cbn [Plugin.before_last].
    by rewrite (includes_char_lacks c s Hs), Ascii.eqb_refl.
  - rewrite append_cons. cbn [Plugin.before_last].
    by rewrite (includes_char_append c a s), IH.
Qed.

Lemma basename_md (folder name : string) :
  lacks "/" name = true ->
  Plugin.basename (folder +:+ "/" +:+ name +:+ ".md") = name.
Proof.
  intros Hn. unfold Plugin.basename.
  change ("/" +:+ name +:+ ".md") with (String "/" (name +:+ ".md")).
  rewrite after_last_append by (by rewrite lacks_append, Hn).
  change ".md"%string with (String "." "md").
  by apply before_last_append.
Qed.

(** A run of exactly [n] digits is read whatever follows it. *)
Lemma digits_exact n : forall acc s v rest,
  JsDate.digits n acc s = Some (v, EmptyString) ->
  JsDate.digits n acc (s +:+ rest) = Some (v, rest).
Proof.
  induction n as [|n IH]; intros acc s v rest H.
  - simpl in H. injection H as -> ->. reflexivity.
  - destruct s as [|c r]; [done|]. rewrite append_cons. cbn [JsDate.digits] in *.
    destruct (is_digit c); [|done]. by apply IH.
Qed.

Lemma digits_shape n : forall acc s v,
  JsDate.digits n acc s = Some (v, EmptyString) ->
  String.length s = n /\ forall_chars is_digit s = true.
Proof.
  induction n as [|n IH]; intros acc s v H.
  - simpl in H. by injection H as -> ->.
  - destruct s as [|c r]; [done|]. cbn [JsDate.digits] in H.
    destruct (is_digit c) eqn:Hc; [|done].
    destruct (IH _ _ _ H) as [Hl Hd]. simpl. by rewrite Hl, Hc, Hd.
Qed.

Lemma digits_lack_slash s : forall_chars is_digit s = true -> lacks "/" s = true.
Proof.
  induction s as [|c r IH]; [done|]. cbn [forall_chars lacks].
  intros [Hc Hr]%andb_true_iff. rewrite (IH Hr), andb_true_r.
  destruct (Ascii.eqb_spec c "/") as [->|]; [discriminate Hc | done].
Qed.

(** The years from 1970 to 2106 are written in four digits, the months
    and the days of the month in two. *)
Lemma year_names :
  all_days 137 1970
    (fun y => match JsDate.digits 4 0 (JsDate.iso_year y) with
              | Some (v, EmptyString) => v =? y
              | _ => false
              end) = true.
Proof. vm_compute. reflexivity. Qed.

Lemma month_names :
  all_days 31 1
    (fun m => match JsDate.digits 2 0 (JsDate.pad 2 m) with
              | Some (v, EmptyString) => v =? m
              | _ => false
              end) = true.
Proof. vm_compute. reflexivity. Qed.

Lemma year_name y :
  1970 <= y <= 2106 -> JsDate.digits 4 0 (JsDate.iso_year y) = Some (y, EmptyString).
Proof.
  intros Hy. pose proof (all_days_spec _ _ _ year_names y ltac:(lia)) as H.
  cbv beta in H. destruct (JsDate.digits 4 0 (JsDate.iso_year y)) as [[v [|? ?]]|]; try done.
  by apply Z.eqb_eq in H as ->.
Qed.

Lemma month_name m :
  1 <= m <= 31 -> JsDate.digits 2 0 (JsDate.pad 2 m) = Some (m, EmptyString).
Proof.
  intros Hm. pose proof (all_days_spec _ _ _ month_names m ltac:(lia)) as H.
  cbv beta in H. destruct (JsDate.digits 2 0 (JsDate.pad 2 m)) as [[v [|? ?]]|]; try done.
  by apply Z.eqb_eq in H as ->.
Qed.

Lemma days_in_month_le y m : JsDate.days_in_month y m <= 31.
Proof.
  unfold JsDate.days_in_month.
  repeat match goal with |- context [if ?b then _ else _] => destruct b end; lia.
Qed.

(** The year of a day from 1970-01-01 to 2106-11-23. *)
Lemma days_from_civil_year y m d :
  1 <= m <= 12 -> 1 <= d <= 31 ->
  0 <= JsDate.days_from_civil y m d < 50000 -> 1970 <= y <= 2106.
Proof.
  unfold JsDate.days_from_civil. intros Hm Hd.
  destruct (Z.leb_spec m 2) as [Hlo|Hhi]; cbv beta iota zeta; intros Hz;
    Z.to_euclidean_division_equations; lia.
Qed.

(** A date written as year, month and day is read as that day. *)
Lemma parse_day z y m d :
  1970 <= y <= 2106 -> 1 <= m <= 12 -> 1 <= d <= JsDate.days_in_month y m ->
  let name := JsDate.iso_year y +:+ "-" +:+ JsDate.pad 2 m +:+ "-" +:+ JsDate.pad 2 d in
  JsDate.parse z name = Some (JsDate.days_from_civil y m d * JsDate.msPerDay) /\
  Plugin.is_date_name name = true /\ lacks "/" name = true.
Proof.
  intros Hy Hm Hd name.
  pose proof (days_in_month_le y m) as Hle.
  pose proof (year_name y Hy) as Hys.
  pose proof (month_name m ltac:(lia)) as Hms.
  pose proof (month_name d ltac:(lia)) as Hds.
  split; [|split].
  - unfold JsDate.parse, name.
    rewrite (digits_exact 4 0 _ y _ Hys).
    change ("-" +:+ JsDate.pad 2 m +:+ "-" +:+ JsDate.pad 2 d)
      with (String "-" (JsDate.pad 2 m +:+ "-" +:+ JsDate.pad 2 d)).
    cbn [JsDate.expect]. rewrite Ascii.eqb_refl.
    rewrite (digits_exact 2 0 _ m _ Hms).
    change ("-" +:+ JsDate.pad 2 d) with (String "-" (JsDate.pad 2 d)).
    cbn [JsDate.expect]. rewrite Ascii.eqb_refl, Hds.
    rewrite (proj2 (Z.leb_le 1 m)), (proj2 (Z.leb_le m 12)), (proj2 (Z.leb_le 1 d)),
      (proj2 (Z.leb_le d _)) by lia.
    reflexivity.
  - destruct (digits_shape _ _ _ _ Hys) as [Hl1 Hc1].
    destruct (digits_shape _ _ _ _ Hms) as [Hl2 Hc2].
    destruct (digits_shape _ _ _ _ Hds) as [Hl3 Hc3].
    unfold name.
    destruct (JsDate.iso_year y) as [|y1 [|y2 [|y3 [|y4 [|? ?]]]]]; try done.
    destruct (JsDate.pad 2 m) as [|m1 [|m2 [|? ?]]]; try done.
    destruct (JsDate.pad 2 d) as [|d1 [|d2 [|? ?]]]; try done.
    cbn [forall_chars] in Hc1, Hc2, Hc3.
    repeat match goal with H : _ && _ = true |- _ => apply andb_true_iff in H as [? ?] end.
    unfold Plugin.is_date_name. repeat (rewrite append_cons || rewrite append_nil).
    cbn [String.list_ascii_of_string forallb].
    repeat match goal with H : is_digit _ = true |- _ => rewrite H; clear H end.
    reflexivity.
  - unfold name. rewrite !lacks_append.
    destruct (digits_shape _ _ _ _ Hys) as [_ Hc1].
    destruct (digits_shape _ _ _ _ Hms) as [_ Hc2].
    destruct (digits_shape _ _ _ _ Hds) as [_ Hc3].
    rewrite (digits_lack_slash _ Hc1), (digits_lack_slash _ Hc2), (digits_lack_slash _ Hc3).
    reflexivity.
Qed.

(** The names of the days from 1970-01-01 to 2106-11-23 are read back as
    the days they name. *)
Lemma day_names_roundtrip z d :
  0 <= d < 50000 ->
  let name := iso_day (d * JsDate.msPerDay) in
  JsDate.parse z name = Some (d * JsDate.msPerDay) /\
  Plugin.is_date_name name = true /\ lacks "/" name = true.
Proof.
  intros Hd.
  pose proof (all_days_spec _ _ _ calendar_roundtrip d ltac:(lia)) as Hcal.
  cbv beta in Hcal.
  unfold iso_day, JsDate.year_of, JsDate.month_of, JsDate.day_of.
  rewrite Z.div_mul by done.
  destruct (JsDate.civil_from_days d) as [[y m] dd]. cbn [fst snd].
  repeat match goal with H : _ && _ = true |- _ => apply andb_true_iff in H as [H ?] end.
  apply Z.eqb_eq in Hcal.
  repeat match goal with H : (_ <=? _) = true |- _ => apply Z.leb_le in H end.
  pose proof (days_in_month_le y m).
  assert (Hy : 1970 <= y <= 2106).
  { apply (days_from_civil_year y m dd); lia. }
  destruct (parse_day z y m dd Hy ltac:(lia) ltac:(lia)) as (Hp & Hs & Hl).
  rewrite Hcal in Hp. by repeat split.
Qed.

(** X20: the file that the lifelog sync writes for a day is the file
    that the next sync reads that day from.  For every instant [t] from
    1970-01-01 to 2106-11-23, the path [{folder}/{date}.md] written for the
    day of [t] passes the three filters of [getLastSyncedDate] (it lies
    under the folder, ends in [.md], and its basename has the shape of a
    date), and its basename is parsed to the start of that very day, UTC,
    whatever the zone of the host. *)
Theorem lifelog_file_read_back
    (h : Host) (settings : LimitlessLifelogsSettings) (t : Z) :
  0 <= t < 50000 * JsDate.msPerDay ->
  Plugin.date_files h settings [lifelog_path h settings t] =
  [Some (t / JsDate.msPerDay * JsDate.msPerDay)].
Proof.
  intros Ht.
  set (d := t / JsDate.msPerDay).
  assert (Hd : 0 <= d < 50000).
  { subst d. unfold JsDate.msPerDay in *. split.
    - apply Z.div_pos; lia.
    - apply Z.div_lt_upper_bound; lia. }
  destruct (day_names_roundtrip (tz h) d Hd) as (Hpar & Hshape & Hslash).
  assert (Hname : iso_day t = iso_day (d * JsDate.msPerDay)).
  { unfold iso_day, JsDate.year_of, JsDate.month_of, JsDate.day_of.
    rewrite Z.div_mul by done. reflexivity. }
  unfold lifelog_path. rewrite Hname.
  set (name := iso_day (d * JsDate.msPerDay)) in *.
  unfold Plugin.date_files.
  set (folder := normalizePath h (folderPath settings)).
  rewrite filter_cons, filter_nil.
  rewrite decide_True
    by (rewrite <- (append_assoc folder "/"); apply startsWith_append).
  rewrite filter_cons, filter_nil.
  rewrite decide_True
    by (rewrite <- (append_assoc "/" name ".md"), <- (append_assoc folder);
        apply endsWith_append).
  cbn [map]. rewrite basename_md by done.
  rewrite filter_cons, filter_nil, decide_True by done.
  cbn [map]. by rewrite (newDate_parse h _ _ Hpar).
Qed.

Lemma lifelog_file_read_back_witness :
  Plugin.date_files Demo.host Demo.settings [lifelog_path Demo.host Demo.settings 1739095200123] =
  [Some (1739095200123 / JsDate.msPerDay * JsDate.msPerDay)].
Proof.
  apply (lifelog_file_read_back Demo.host Demo.settings 1739095200123).
  unfold JsDate.msPerDay. lia.
Defined.

(** ** The time that the backoff takes *)

Lemma makeRequest_loop_waits h key url params fuel : forall retries w,
  0 <= retries <= LimitlessAPI.maxRetries ->
  (Z.to_nat (LimitlessAPI.maxRetries - retries) < fuel)%nat ->
  Forall no_retry_after (net w) ->
  let r := LimitlessAPI.makeRequest_loop h key fuel url params retries w in
  exists k : nat,
    sleeps (snd r) =
      sleeps w ++ map (fun i => Some (1000 * 2 ^ (retries + Z.of_nat i))) (seq 0 k) /\
    clock (snd r) = clock w + 1000 * (2 ^ (retries + Z.of_nat k) - 2 ^ retries) /\
    retries + Z.of_nat k <= LimitlessAPI.maxRetries /\
    (forall i, (i < k)%nat -> reply_at w i = rate_limited None) /\
    (retries + Z.of_nat k = LimitlessAPI.maxRetries \/
     forall ra, reply_at w k <> rate_limited ra) /\
    requests (snd r) = requests w ++ repeat (request_of key url params) (S k).
Proof.
  induction fuel as [|fuel IH]; intros retries w Hr0 Hfuel Hall r; [lia|].
  destruct (turn_cases w retries) as [[json Hr]|[(ra & Hr & Hlt)|(e & He & Hstop)]].
  - subst r. rewrite (makeRequest_loop_ok h key fuel url params retries w json Hr).
    exists 0%nat. cbn. rewrite app_nil_r, Z.add_0_r.
    split; [done|]. split; [lia|]. split; [lia|]. split; [intros i Hi; lia|].
    split; [|done]. right. intros ra. rewrite reply_at_0, Hr. discriminate.
  - assert (ra = None) as ->.
    { destruct (net w) as [|x l]; simpl in Hr; [by injection Hr|].
      apply Forall_cons in Hall as [Hx _]. subst x. exact Hx. }
    subst r. rewrite (makeRequest_loop_retry h key fuel url params retries w None Hr Hlt).
    set (w1 := waited _ _).
    destruct (IH (retries + 1) w1) as (k & Hsl & Hcl & Hk & Hpre & Hstop & Hrq).
    { lia. }
    { lia. }
    { unfold w1. cbn. destruct (net w) as [|x l]; [done|]. by apply Forall_cons in Hall as [_ ?]. }
    exists (S k). rewrite Hsl, Hcl, Hrq.
    assert (Hd : LimitlessAPI.computeDelay (newDate h) (clock w) retries None =
                 Some (1000 * 2 ^ retries)) by reflexivity.
    unfold w1. rewrite Hd. cbn [sleeps clock requests waited slept noticed sent].
    rewrite <- !app_assoc. cbn [seq map]. rewrite Z.add_0_r.
    replace (retries + Z.of_nat (S k)) with (retries + 1 + Z.of_nat k) by lia.
    rewrite (Z.pow_add_r 2 retries 1), Z.pow_1_r by lia.
    assert (0 < 2 ^ retries) by (apply Z.pow_pos_nonneg; lia).
    split; [|split; [lia|split; [lia|split; [|split]]]].
    + do 2 f_equal. rewrite <- seq_shift, map_map. apply map_ext. intros i.
      do 3 f_equal. lia.
    + intros [|i] Hi.
      * by rewrite reply_at_0.
      * specialize (Hpre i ltac:(lia)). unfold w1 in Hpre.
        by rewrite reply_at_next in Hpre.
    + destruct Hstop as [Hmax|Hno]; [by left|right].
      intros ra. specialize (Hno ra). unfold w1 in Hno.
      by rewrite reply_at_next in Hno.
    + done.
  - subst r. rewrite (makeRequest_loop_throw h key fuel url params retries w e He Hstop).
    exists 0%nat. cbn. rewrite app_nil_r, Z.add_0_r.
    split; [done|]. split; [lia|]. split; [lia|]. split; [intros i Hi; lia|].
    split; [|done]. destruct Hstop as [Hne|Hge]; [right|left; lia].
    intros ra. rewrite reply_at_0. intros Hra. rewrite Hra in He.
    injection He as <-. by apply Hne.
Qed.

(** X21: without [retry-after] headers a call of [makeRequest] waits for
    1, 2, 4, 8 and 16 seconds, in this order, as far as it gets: its waits
    are the first [k] of these five, [k] being the number of 429 replies it
    went through, which is the number of 429 replies that the service
    starts with, five at most.  It sends [k + 1] requests, and it takes
    [2 ^ k - 1] seconds of waiting, 31 seconds at most. *)
Theorem makeRequest_waits_bounded
    (h : Host) (key url : string) (params : list (string * string)) (w : World) :
  Forall no_retry_after (net w) ->
  let r := LimitlessAPI.makeRequest h key url params w in
  exists k : nat,
    (k <= 5)%nat /\
    (forall i, (i < k)%nat -> reply_at w i = rate_limited None) /\
    (k = 5%nat \/ forall ra, reply_at w k <> rate_limited ra) /\
    requests (snd r) = requests w ++ repeat (request_of key url params) (S k) /\
    sleeps (snd r) = sleeps w ++ firstn k backoff_waits /\
    clock (snd r) = clock w + 1000 * (2 ^ Z.of_nat k - 1) /\
    clock (snd r) - clock w <= 31000.
Proof.
  intros Hall r.
  destruct (makeRequest_loop_waits h key url params (S (Z.to_nat LimitlessAPI.maxRetries))
              0 w) as (k & Hsl & Hcl & Hk & Hpre & Hstop & Hrq).
  { unfold LimitlessAPI.maxRetries. lia. }
  { lia. }
  { done. }
  fold (LimitlessAPI.makeRequest h key url params w) in Hsl, Hcl, Hrq. fold r in Hsl, Hcl, Hrq.
  unfold LimitlessAPI.maxRetries in Hk, Hstop.
  exists k. split; [lia|]. split; [done|]. split; [destruct Hstop; [left; lia|by right]|].
  split; [done|]. rewrite Hsl, Hcl, Z.add_0_l.
  assert (Hk5 : (k <= 5)%nat) by lia. clear Hpre Hstop Hrq.
  do 6 (destruct k as [|k];
        [split; [reflexivity|]; simpl Z.of_nat; change (2 ^ 0) with 1;
         change (2 ^ 1) with 2; change (2 ^ 2) with 4; change (2 ^ 3) with 8;
         change (2 ^ 4) with 16; change (2 ^ 5) with 32; lia|]).
  lia.
Qed.

Lemma makeRequest_waits_bounded_witness :
  let w := Demo.world 0 [rate_limited None; rate_limited None; Demo.page_chats [] None] in
  let r := LimitlessAPI.makeRequest Demo.host "key" "https://api.limitless.ai/v1/chats" [] w in
  exists k : nat,
    (k <= 5)%nat /\
    (forall i, (i < k)%nat -> reply_at w i = rate_limited None) /\
    (k = 5%nat \/ forall ra, reply_at w k <> rate_limited ra) /\
    requests (snd r) =
      requests w ++ repeat (request_of "key" "https://api.limitless.ai/v1/chats" []) (S k) /\
    sleeps (snd r) = sleeps w ++ firstn k backoff_waits /\
    clock (snd r) = clock w + 1000 * (2 ^ Z.of_nat k - 1) /\
    clock (snd r) - clock w <= 31000.
Proof.
  apply (makeRequest_waits_bounded Demo.host "key" "https://api.limitless.ai/v1/chats" []
           (Demo.world 0 [rate_limited None; rate_limited None; Demo.page_chats [] None])).
  repeat constructor.
Defined.

(** ** What the syncs send *)

Section Sent.
Variable h : Host.
Variable settings : LimitlessLifelogsSettings.

Lemma page_limit_nonzero : Z.min (Plugin.maxChats_or settings 50) 100 <> 0.
Proof.
  unfold Plugin.maxChats_or.
  destruct (Z.eqb_spec (maxChatsPerSync settings) 0); lia.
Qed.

Lemma query_get_set_if_other k k' v ps :
  k <> k' -> query_get k (LimitlessAPI.set_if k' v ps) = query_get k ps.
Proof.
  intros Hne. unfold LimitlessAPI.set_if. destruct v as [s|]; [|done].
  destruct (truthy s); [|done]. by apply query_get_set_other.
Qed.

(** The query of a page of chats. *)
Lemma page_request cursor :
  chat_request h settings
    (request_of (apiKey settings) (LimitlessAPI.baseUrl +:+ "/v1/chats")
       (LimitlessAPI.chat_query (Plugin.page_params h settings cursor))) /\
  query_get "cursor"
    (LimitlessAPI.chat_query (Plugin.page_params h settings cursor)) =
  (if present cursor then cursor else None).
Proof.
  unfold chat_request, LimitlessAPI.chat_query, Plugin.page_params.
  cbn [request_of r_url r_apiKey r_query LimitlessAPI.p_cursor LimitlessAPI.p_direction
       LimitlessAPI.p_limit LimitlessAPI.p_timezone LimitlessAPI.p_isScheduled
       LimitlessAPI.p_globalPromptId].
  rewrite (proj2 (Z.eqb_neq _ 0) page_limit_nonzero).
  set (sp0 := LimitlessAPI.set_if "cursor" cursor []).
  assert (H0 : query_get "cursor" sp0 = if present cursor then cursor else None).
  { unfold sp0, LimitlessAPI.set_if, present. destruct cursor as [c|]; [|done].
    destruct (truthy c); [|done]. apply query_get_set_same. }
  change (LimitlessAPI.set_if "globalPromptId" None ?x) with x.
  change (LimitlessAPI.set_if "direction" (Some "desc"%string) sp0)
    with (LimitlessAPI.params_set "direction" "desc" sp0).
  split; [split; [done|split; [done|split; [|split]]]|].
  - rewrite query_get_set_if_other, query_get_set_other by discriminate.
    apply query_get_set_same.
  - rewrite query_get_set_if_other by discriminate. apply query_get_set_same.
  - unfold LimitlessAPI.set_if. destruct (truthy (timeZone h)).
    + apply query_get_set_same.
    + rewrite !query_get_set_other by discriminate. unfold sp0, LimitlessAPI.set_if.
      destruct cursor as [c|]; [|done]. by destruct (truthy c).
  - by rewrite query_get_set_if_other, !query_get_set_other by discriminate.
Qed.

Lemma getChats_requests cursor w :
  exists n,
    requests (snd (LimitlessAPI.getChats h (apiKey settings)
                     (Plugin.page_params h settings cursor) w)) =
    requests w ++
    repeat (request_of (apiKey settings) (LimitlessAPI.baseUrl +:+ "/v1/chats")
              (LimitlessAPI.chat_query (Plugin.page_params h settings cursor))) n.
Proof.
  unfold LimitlessAPI.getChats, try_catch, bind.
  destruct (makeRequest_world h (apiKey settings) (LimitlessAPI.baseUrl +:+ "/v1/chats")
              (LimitlessAPI.chat_query (Plugin.page_params h settings cursor)) w)
    as (_ & (n & Hrq & _) & _).
  exists n.
  destruct (LimitlessAPI.makeRequest h (apiKey settings) _ _ w) as [[body|e|] w1];
    cbn [fst snd] in *; try done.
  by destruct (status_is e 404), (status_is e 401).
Qed.

Lemma syncChats_loop_sent folder fuel : forall cursor n w,
  exists rqs,
    requests (snd (Plugin.syncChats_loop h settings fuel folder cursor n w)) =
      requests w ++ rqs /\
    Forall (chat_request h settings) rqs.
Proof.
  induction fuel as [|fuel IH]; intros cursor n w.
  { exists []. simpl. by rewrite app_nil_r. }
  rewrite syncChats_loop_step.
  destruct (getChats_requests cursor w) as (k & Hrq).
  assert (Hall : Forall (chat_request h settings)
                   (repeat (request_of (apiKey settings) (LimitlessAPI.baseUrl +:+ "/v1/chats")
                      (LimitlessAPI.chat_query (Plugin.page_params h settings cursor))) k)).
  { apply Forall_forall. intros rq Hin. apply list_elem_of_In, repeat_spec in Hin.
    subst rq. apply page_request. }
  destruct (LimitlessAPI.getChats h (apiKey settings) _ w) as [[[cs next]|e|] w1];
    cbn [fst snd] in *; eauto.
  destruct (for_of_chats_returns h settings folder cs n w1) as (w2 & Hfor & Hk).
  cbv zeta. rewrite Hfor. cbn [snd].
  destruct Hk as (_ & _ & Hrq2 & _).
  destruct (present next && _).
  - destruct (IH next (n + Z.of_nat (length cs)) w2) as (rqs & Hrqs & Hall').
    eexists. rewrite Hrqs, Hrq2, Hrq, <- app_assoc. split; [reflexivity|].
    by apply Forall_app.
  - cbn [snd]. rewrite Hrq2, Hrq. eauto.
Qed.
End Sent.

(** X22: whatever the settings, the vault and the service, the only
    requests that a chat sync sends go to [/v1/chats] of the API with the
    key of the settings, ask for the newest chats first, and ask for pages
    of [min (maxChatsPerSync || 50) 100] chats: never for more than 100,
    and never for none.  A sync that is disabled, and one without a key,
    sends nothing. *)
Theorem syncChats_requests
    (h : Host) (settings : LimitlessLifelogsSettings) (w : World) :
  (exists rqs,
     requests (snd (Plugin.syncChats h settings w)) = requests w ++ rqs /\
     Forall (chat_request h settings) rqs) /\
  (syncChatsEnabled settings = false \/ truthy (apiKey settings) = false ->
   requests (snd (Plugin.syncChats h settings w)) = requests w) /\
  Z.min (Plugin.maxChats_or settings 50) 100 <= 100 /\
  Z.min (Plugin.maxChats_or settings 50) 100 <> 0.
Proof.
  assert (Hoff : syncChatsEnabled settings = false \/ truthy (apiKey settings) = false ->
                 requests (snd (Plugin.syncChats h settings w)) = requests w).
  { intros Hoff. unfold Plugin.syncChats.
    destruct (syncChatsEnabled settings); [|reflexivity].
    destruct Hoff as [Hen|Hkey]; [discriminate Hen|]. by rewrite Hkey. }
  split; [|split; [exact Hoff|split; [lia | apply page_limit_nonzero]]].
  destruct (syncChatsEnabled settings) eqn:Hen.
  2:{ exists []. rewrite app_nil_r. split; [|done]. apply Hoff. by left. }
  destruct (truthy (apiKey settings)) eqn:Hkey.
  2:{ exists []. rewrite app_nil_r. split; [|done]. apply Hoff. by right. }
  destruct (syncChats_run h settings w Hen Hkey) as (wb & _ & _ & Hrb & _ & _ & ->).
  destruct (syncChats_loop_sent h settings (normalizePath h (chatFolderPath settings))
              (S (length (net wb))) None 0 wb) as (rqs & Hrq & Hall).
  exists rqs.
  destruct (Plugin.syncChats_loop h settings _ _ None 0 wb) as [[m|e|] wc];
    cbn [fst snd requests noticed logged] in *; by rewrite Hrq, Hrb.
Qed.

Section SentLifelogs.
Variable h : Host.
Variable settings : LimitlessLifelogsSettings.

Lemma getLifelogs_loop_sent fuel : forall params cursor acc w,
  lifelog_request h settings
    (request_of (apiKey settings) (LimitlessAPI.baseUrl +:+ "/v1/lifelogs") params) ->
  exists rqs,
    requests (snd (LimitlessAPI.getLifelogs_loop h (apiKey settings) fuel params cursor acc w)) =
      requests w ++ rqs /\
    Forall (lifelog_request h settings) rqs.
Proof.
  induction fuel as [|fuel IH]; intros params cursor acc w Hp.
  { exists []. simpl. by rewrite app_nil_r. }
  rewrite getLifelogs_loop_step.
  set (params' := LimitlessAPI.with_cursor cursor params).
  assert (Hp' : lifelog_request h settings
                  (request_of (apiKey settings) (LimitlessAPI.baseUrl +:+ "/v1/lifelogs") params')).
  { subst params'. unfold LimitlessAPI.with_cursor. destruct cursor as [c|]; [|done].
    destruct (truthy c); [|done].
    destruct Hp as (? & ? & ? & ? & ? & ? & ?). unfold lifelog_request.
    cbn [request_of r_url r_apiKey r_query] in *.
    by rewrite !query_get_set_other by discriminate. }
  destruct (makeRequest_world h (apiKey settings) (LimitlessAPI.baseUrl +:+ "/v1/lifelogs")
              params' w) as (_ & (n & Hrq & _) & _).
  assert (Hall : Forall (lifelog_request h settings)
                   (repeat (request_of (apiKey settings)
                              (LimitlessAPI.baseUrl +:+ "/v1/lifelogs") params') n)).
  { apply Forall_forall. intros rq Hin. apply list_elem_of_In, repeat_spec in Hin.
    by subst rq. }
  destruct (LimitlessAPI.makeRequest h (apiKey settings) _ params' w) as [[data|e|] w1];
    cbn [fst snd] in *; eauto.
  destruct (present (LimitlessAPI.next_cursor data)); [|eauto].
  destruct (IH params' (LimitlessAPI.next_cursor data) (acc ++ default [] (b_lifelogs data)) w1 Hp')
    as (rqs & Hrqs & Hall').
  eexists. rewrite Hrqs, Hrq, <- app_assoc. split; [reflexivity|]. by apply Forall_app.
Qed.

Lemma syncLifelogs_day_sent folder date w :
  exists rqs,
    requests (snd (Plugin.syncLifelogs_day h settings folder date w)) = requests w ++ rqs /\
    Forall (lifelog_request h settings) rqs.
Proof.
  rewrite syncLifelogs_day_step.
  destruct (JsDate.isoDate date) as [d|] eqn:Hd.
  2:{ exists []. simpl. by rewrite app_nil_r. }
  unfold LimitlessAPI.getLifelogs. rewrite Hd.
  set (params := [("date"%string, d); _; _; _; _; _]).
  destruct (getLifelogs_loop_sent (S (length (net w))) params None [] w)
    as (rqs & Hrq & Hall).
  { by repeat split. }
  exists rqs.
  destruct (LimitlessAPI.getLifelogs_loop h (apiKey settings) _ params None [] w)
    as [[logs|e|] w1]; cbn [fst snd] in *; try done.
  destruct (0 <? length logs)%nat; [|done].
  cbv zeta. by destruct (decide _).
Qed.

Lemma syncLifelogs_loop_sent folder endDate fuel : forall date w,
  exists rqs,
    requests (snd (Plugin.syncLifelogs_loop h settings fuel folder date endDate w)) =
      requests w ++ rqs /\
    Forall (lifelog_request h settings) rqs.
Proof.
  induction fuel as [|fuel IH]; intros date w.
  { exists []. simpl. by rewrite app_nil_r. }
  rewrite syncLifelogs_loop_step.
  destruct (JsDate.leb date endDate).
  2:{ exists []. simpl. by rewrite app_nil_r. }
  destruct (syncLifelogs_day_sent folder date w) as (rqs1 & Hrq1 & Hall1).
  destruct (Plugin.syncLifelogs_day h settings folder date w) as [[[]|e|] w1];
    cbn [fst snd] in *; eauto.
  destruct (IH (JsDate.nextDay (setNextDate h) date) w1) as (rqs2 & Hrq2 & Hall2).
  eexists. rewrite Hrq2, Hrq1, <- app_assoc. split; [reflexivity|]. by apply Forall_app.
Qed.
End SentLifelogs.

(** X23: whatever the settings, the vault and the service, the only
    requests that a lifelog sync sends go to [/v1/lifelogs] of the API with
    the key of the settings, and each asks, in the zone of the host, for
    pages of 10 lifelogs in ascending order with their markdown and their
    headings.  A sync without a key sends nothing. *)
Theorem syncLifelogs_requests
    (h : Host) (settings : LimitlessLifelogsSettings) (w : World) :
  (exists rqs,
     requests (snd (Plugin.syncLifelogs h settings w)) = requests w ++ rqs /\
     Forall (lifelog_request h settings) rqs) /\
  (truthy (apiKey settings) = false ->
   requests (snd (Plugin.syncLifelogs h settings w)) = requests w).
Proof.
  assert (Hoff : truthy (apiKey settings) = false ->
                 requests (snd (Plugin.syncLifelogs h settings w)) = requests w).
  { intros Hkey. unfold Plugin.syncLifelogs. by rewrite Hkey. }
  split; [|exact Hoff].
  destruct (truthy (apiKey settings)) eqn:Hkey.
  2:{ exists []. rewrite app_nil_r. split; [|done]. by apply Hoff. }
  destruct (syncLifelogs_shape h settings w Hkey) as (wb & _ & _ & Hrb & _ & _ & _ & ->).
  destruct (syncLifelogs_loop_sent h settings (normalizePath h (folderPath settings))
              (Some (clock w)) (S (length (net wb))) (walk_start h settings w) wb)
    as (rqs & Hrq & Hall).
  exists rqs.
  destruct (Plugin.syncLifelogs_loop h settings _ _ _ _ wb) as [[[]|e|] wc];
    cbn [fst snd requests noticed logged] in *; by rewrite Hrq, Hrb.
Qed.

(** ** The pages of a chat sync *)

Section ChatPages.
Variable h : Host.
Variable settings : LimitlessLifelogsSettings.

Local Abbreviation chat_url := (LimitlessAPI.baseUrl +:+ "/v1/chats").


End ChatPages.


